(** * LingoAI: request orchestration, edit history and PCM codec

    A shallow embedding of the stateful core of [src/App.tsx] and of the
    audio helpers of the Gemini service module ([createAudioBlob],
    [decodeGeminiPCM]), with the properties the specification states about
    them.

    Conventions.
    - A JavaScript string is the list of its UTF-16 code units.
    - A JavaScript number is an IEEE-754 binary64 value, a [spec_float]
      operated on with the Standard Library's executable specification of
      binary floating point at precision 53; a [Float32Array] element is a
      binary32 value (precision 24).
    - The React component is a record of its [useState] and [useRef] cells.
      An event handler is a function on that record.  Handlers are run one
      event at a time, each on the state committed by the previous one, as
      React does for discrete events; an effect is run after a commit that
      changed one of its dependencies.
    - An [async] function is a task that is resumed by the event it awaits
      (a chunk of the stream, the end of the stream, a rejected promise). *)

From Stdlib Require Import ZArith NArith QArith Qabs Qround Bool List Lia String Ascii.
From Stdlib Require Import Strings.Byte Floats.SpecFloat.
From stdpp Require Import base option list relations.

Local Open Scope Z_scope.

(** ** JavaScript values *)

Module Js.

(** A string, as the sequence of its UTF-16 code units. *)
Definition jsstring := list N.

(** A string literal of the source (ASCII only). *)
Definition lit (s : string) : jsstring :=
  List.map N_of_ascii (list_ascii_of_string s).

(** [WhiteSpace] and [LineTerminator] code units of ECMAScript, the ones
    [String.prototype.trim] strips. *)
Definition isWhiteSpace (c : N) : bool :=
  (N.leb 9 c && N.leb c 13) || N.eqb c 32 || N.eqb c 160 || N.eqb c 5760
  || (N.leb 8192 c && N.leb c 8202) || N.eqb c 8232 || N.eqb c 8233
  || N.eqb c 8239 || N.eqb c 8287 || N.eqb c 12288 || N.eqb c 65279.

Fixpoint trimStart (s : jsstring) : jsstring :=
  match s with
  | c :: s' => if isWhiteSpace c then trimStart s' else s
  | [] => []
  end.

(** [s.trim()] *)
Definition trim (s : jsstring) : jsstring :=
  rev (trimStart (rev (trimStart s))).

(** [!s] for a string [s]: only the empty string is falsy. *)
Definition falsy (s : jsstring) : bool :=
  match s with [] => true | _ => false end.

(** [a.length] *)
Definition length {A} (a : list A) : Z := Z.of_nat (List.length a).

(** [a[i]]; [None] is [undefined], the value of a read out of range. *)
Definition get {A} (a : list A) (i : Z) : option A :=
  if i <? 0 then None else a !! Z.to_nat i.

(** [a.slice(0, e)]: a negative [e] counts from the end, and the bound is
    clamped to the array. *)
Definition slice0 {A} (a : list A) (e : Z) : list A :=
  let k := if e <? 0 then Z.max (length a + e) 0 else Z.min e (length a) in
  take (Z.to_nat k) a.

(** [a.push(x)] *)
Definition push {A} (a : list A) (x : A) : list A := a ++ [x].

(** [a.shift()], the array that is left. *)
Definition shift {A} (a : list A) : list A := drop 1 a.

End Js.

Import Js.

(** ** The edit buffer and its undo/redo history

    [sourceText], [history], [historyIndex] are [useState] cells,
    [isInternalChange] is a [useRef] cell.  [historyTimer] is the timer of
    the history-tracking effect, together with the values its callback closes
    over (those of the render that scheduled it). *)

Record HistoryClosure := {
  c_sourceText : jsstring;
  c_history : list jsstring;
  c_historyIndex : Z
}.

Record Editor := {
  sourceText : jsstring;
  history : list jsstring;
  historyIndex : Z;
  isInternalChange : bool;
  historyTimer : option HistoryClosure
}.

Definition setSourceText (v : jsstring) (s : Editor) : Editor :=
  {| sourceText := v; history := history s; historyIndex := historyIndex s;
     isInternalChange := isInternalChange s; historyTimer := historyTimer s |}.

Definition setHistory (v : list jsstring) (s : Editor) : Editor :=
  {| sourceText := sourceText s; history := v; historyIndex := historyIndex s;
     isInternalChange := isInternalChange s; historyTimer := historyTimer s |}.

Definition setHistoryIndex (v : Z) (s : Editor) : Editor :=
  {| sourceText := sourceText s; history := history s; historyIndex := v;
     isInternalChange := isInternalChange s; historyTimer := historyTimer s |}.

Definition setIsInternalChange (v : bool) (s : Editor) : Editor :=
  {| sourceText := sourceText s; history := history s;
     historyIndex := historyIndex s;
     isInternalChange := v; historyTimer := historyTimer s |}.

Definition setHistoryTimer (v : option HistoryClosure) (s : Editor) : Editor :=
  {| sourceText := sourceText s; history := history s;
     historyIndex := historyIndex s;
     isInternalChange := isInternalChange s; historyTimer := v |}.

(** The state of the first render: [useState('')], [useState([''])],
    [useState(0)], [useRef(false)]. *)
Definition initialEditor : Editor :=
  {| sourceText := []; history := [[]]; historyIndex := 0;
     isInternalChange := false; historyTimer := None |}.

(** [handleUndo].  The result is [None] when [history[historyIndex - 1]] is
    [undefined]: the source would store [undefined] as the source text, which
    is outside the typed state. *)
Definition handleUndo (s : Editor) : option Editor :=
  if 0 <? historyIndex s then
    let s := setIsInternalChange true s in
    prevText ← get (history s) (historyIndex s - 1);
    let s := setHistoryIndex (historyIndex s - 1) s in
    Some (setSourceText prevText s)
  else Some s.

(** [handleRedo], with the same convention. *)
Definition handleRedo (s : Editor) : option Editor :=
  if historyIndex s <? length (history s) - 1 then
    let s := setIsInternalChange true s in
    nextText ← get (history s) (historyIndex s + 1);
    let s := setHistoryIndex (historyIndex s + 1) s in
    Some (setSourceText nextText s)
  else Some s.

(** The history-tracking effect: the cleanup of its previous run
    ([clearTimeout]) followed by its body. *)
Definition historyEffect (s : Editor) : Editor :=
  let s := setHistoryTimer None s in
  if isInternalChange s then setIsInternalChange false s
  else
    setHistoryTimer
      (Some {| c_sourceText := sourceText s; c_history := history s;
               c_historyIndex := historyIndex s |}) s.

(** The callback of the effect's timer, 500 ms after it was set. *)
Definition historyTimeout (c : HistoryClosure) (s : Editor) : Editor :=
  if bool_decide (Some (c_sourceText c) ≠ get (c_history c) (c_historyIndex c))
  then
    let newHistory := slice0 (c_history c) (c_historyIndex c + 1) in
    let newHistory := push newHistory (c_sourceText c) in
    let newHistory :=
      if 50 <? length newHistory then shift newHistory else newHistory in
    let s := setHistory newHistory s in
    setHistoryIndex (length newHistory - 1) s
  else s.

(** A commit: React re-runs the effect when one of its dependencies
    [sourceText, history, historyIndex] differs from the previous render. *)
Definition historyDeps (s : Editor) : jsstring * list jsstring * Z :=
  (sourceText s, history s, historyIndex s).

Definition commit (old new : Editor) : Editor :=
  if bool_decide (historyDeps old = historyDeps new) then new
  else historyEffect new.

(** The effects of the first render: the tracking effect, then the effect
    that restores the text saved in [localStorage], when there is one and it
    is not the empty string. *)
Definition mount (saved : option jsstring) : Editor :=
  let s := historyEffect initialEditor in
  match saved with
  | Some savedText =>
      if falsy savedText then s
      else
        let s' := setSourceText savedText s in
        let s' := setHistory [savedText] s' in
        let s' := setHistoryIndex 0 s' in
        commit s s'
  | None => s
  end.

(** The events of the edit buffer. *)

(** The source text is replaced: by the user ([onChange] of the text area),
    by Clear, by Swap, by an uploaded file or by a transcript. *)
Definition typeText (text : jsstring) (s : Editor) : Editor :=
  commit s (setSourceText text s).

(** The pending timer, if any, fires. *)
Definition quiet (s : Editor) : Editor :=
  match historyTimer s with
  | Some c => commit s (historyTimeout c (setHistoryTimer None s))
  | None => s
  end.

(** Ctrl+Z and Ctrl+Y. *)
Definition undo (s : Editor) : option Editor := commit s <$> handleUndo s.
Definition redo (s : Editor) : option Editor := commit s <$> handleRedo s.

(** [push(text)] of the specification: the text is set and stays stable for
    the quiet period, so that the timer of the tracking effect fires. *)
Definition pushText (text : jsstring) (s : Editor) : Editor :=
  quiet (typeText text s).

(** The array the timer callback stores: the entries up to the cursor, the
    new text, the oldest entry dropped beyond 50. *)
Definition recorded (c : HistoryClosure) : list jsstring :=
  let newHistory := push (slice0 (c_history c) (c_historyIndex c + 1))
                         (c_sourceText c) in
  if 50 <? length newHistory then shift newHistory else newHistory.

(** *** Well-formed editor states *)

(** The invariant of the specification's [EditHistory]. *)
Definition Bounded (s : Editor) : Prop :=
  length (history s) <= 50 /\ 0 <= historyIndex s < length (history s).

(** The entry at the cursor. *)
Definition current (s : Editor) : option jsstring :=
  get (history s) (historyIndex s).

(** The closure of the state's own render. *)
Definition closureOf (s : Editor) : HistoryClosure :=
  {| c_sourceText := sourceText s; c_history := history s;
     c_historyIndex := historyIndex s |}.

(** Between two events: the history is bounded, the re-entrancy flag has
    been consumed, a pending timer closes over the committed values, and
    with no timer pending the entry at the cursor is the source text. *)
Record Settled (s : Editor) : Prop := {
  settled_bounded : Bounded s;
  settled_flag : isInternalChange s = false;
  settled_timer : forall c, historyTimer s = Some c -> c = closureOf s;
  settled_sync : historyTimer s = None -> current s = Some (sourceText s)
}.

(** One event of the edit buffer. *)
Inductive editorStep : Editor -> Editor -> Prop :=
| step_type text s : editorStep s (typeText text s)
| step_quiet s : editorStep s (quiet s)
| step_undo s s' : undo s = Some s' -> editorStep s s'
| step_redo s s' : redo s = Some s' -> editorStep s s'.

(** The editor states of a run of the component. *)
Inductive reachable : Editor -> Prop :=
| reach_mount saved : reachable (mount saved)
| reach_step s s' : reachable s -> editorStep s s' -> reachable s'.

(** ** The translation state of the component *)

(** A JavaScript number (binary64). *)
Definition number := spec_float.

(** The number [0]. *)
Definition zero : number := S754_zero false.

(** [types.ts] *)
Inductive TranslationStatus := IDLE | LOADING | SUCCESS | ERROR.

Record TranslationResult := {
  translatedText : jsstring;
  detectedLanguage : jsstring;
  resultConfidence : number
}.

Inductive Tab := TextTab | DocumentTab.

Record Selection := { sel_text : jsstring; sel_x : number; sel_y : number }.

(** A value caught by [catch (err: any)]: what matters is [err.message]. *)
Record Thrown := { message : option jsstring }.

(** The values the callback of the typing timer closes over: the source text
    of its render, and the languages [handleTranslate] was built with. *)
Record TypingClosure := {
  c_text : jsstring;
  c_sourceLang : jsstring;
  c_targetLang : jsstring
}.

(** Calls of the translation service, in the order they are made. *)
Inductive ServiceCall :=
| CallTranslateTextStream (text sourceLang targetLang : jsstring)
| CallTranslateText (text sourceLang targetLang : jsstring).

(** The [useState] cells (with the editor's), the [useRef] cells
    [typingTimeoutRef] (the pending timer, with its closure) and
    [activeStreamRef], the [localStorage] item ['lingoai_source_text'], and
    the log of service calls. *)
Record App := {
  editor : Editor;
  activeTab : Tab;
  sourceLang : jsstring;
  targetLang : jsstring;
  isRecording : bool;
  targetText : jsstring;
  detectedLang : jsstring;
  confidence : number;
  error : option jsstring;
  status : TranslationStatus;
  selection : option Selection;
  uploadedFileName : option jsstring;
  translatedDocContent : option jsstring;
  typingTimeoutRef : option TypingClosure;
  activeStreamRef : Z;
  localStorage : option jsstring;
  calls : list ServiceCall
}.

Definition setEditor (v : Editor) (a : App) : App :=
  {| editor := v; activeTab := activeTab a; sourceLang := sourceLang a;
     targetLang := targetLang a; isRecording := isRecording a;
     targetText := targetText a; detectedLang := detectedLang a;
     confidence := confidence a; error := error a; status := status a;
     selection := selection a; uploadedFileName := uploadedFileName a;
     translatedDocContent := translatedDocContent a;
     typingTimeoutRef := typingTimeoutRef a;
     activeStreamRef := activeStreamRef a; localStorage := localStorage a;
     calls := calls a |}.

Definition setTargetText (v : jsstring) (a : App) : App :=
  {| editor := editor a; activeTab := activeTab a; sourceLang := sourceLang a;
     targetLang := targetLang a; isRecording := isRecording a;
     targetText := v; detectedLang := detectedLang a;
     confidence := confidence a; error := error a; status := status a;
     selection := selection a; uploadedFileName := uploadedFileName a;
     translatedDocContent := translatedDocContent a;
     typingTimeoutRef := typingTimeoutRef a;
     activeStreamRef := activeStreamRef a; localStorage := localStorage a;
     calls := calls a |}.

Definition setDetectedLang (v : jsstring) (a : App) : App :=
  {| editor := editor a; activeTab := activeTab a; sourceLang := sourceLang a;
     targetLang := targetLang a; isRecording := isRecording a;
     targetText := targetText a; detectedLang := v;
     confidence := confidence a; error := error a; status := status a;
     selection := selection a; uploadedFileName := uploadedFileName a;
     translatedDocContent := translatedDocContent a;
     typingTimeoutRef := typingTimeoutRef a;
     activeStreamRef := activeStreamRef a; localStorage := localStorage a;
     calls := calls a |}.

Definition setConfidence (v : number) (a : App) : App :=
  {| editor := editor a; activeTab := activeTab a; sourceLang := sourceLang a;
     targetLang := targetLang a; isRecording := isRecording a;
     targetText := targetText a; detectedLang := detectedLang a;
     confidence := v; error := error a; status := status a;
     selection := selection a; uploadedFileName := uploadedFileName a;
     translatedDocContent := translatedDocContent a;
     typingTimeoutRef := typingTimeoutRef a;
     activeStreamRef := activeStreamRef a; localStorage := localStorage a;
     calls := calls a |}.

Definition setError (v : option jsstring) (a : App) : App :=
  {| editor := editor a; activeTab := activeTab a; sourceLang := sourceLang a;
     targetLang := targetLang a; isRecording := isRecording a;
     targetText := targetText a; detectedLang := detectedLang a;
     confidence := confidence a; error := v; status := status a;
     selection := selection a; uploadedFileName := uploadedFileName a;
     translatedDocContent := translatedDocContent a;
     typingTimeoutRef := typingTimeoutRef a;
     activeStreamRef := activeStreamRef a; localStorage := localStorage a;
     calls := calls a |}.

Definition setStatus (v : TranslationStatus) (a : App) : App :=
  {| editor := editor a; activeTab := activeTab a; sourceLang := sourceLang a;
     targetLang := targetLang a; isRecording := isRecording a;
     targetText := targetText a; detectedLang := detectedLang a;
     confidence := confidence a; error := error a; status := v;
     selection := selection a; uploadedFileName := uploadedFileName a;
     translatedDocContent := translatedDocContent a;
     typingTimeoutRef := typingTimeoutRef a;
     activeStreamRef := activeStreamRef a; localStorage := localStorage a;
     calls := calls a |}.

Definition setSelection (v : option Selection) (a : App) : App :=
  {| editor := editor a; activeTab := activeTab a; sourceLang := sourceLang a;
     targetLang := targetLang a; isRecording := isRecording a;
     targetText := targetText a; detectedLang := detectedLang a;
     confidence := confidence a; error := error a; status := status a;
     selection := v; uploadedFileName := uploadedFileName a;
     translatedDocContent := translatedDocContent a;
     typingTimeoutRef := typingTimeoutRef a;
     activeStreamRef := activeStreamRef a; localStorage := localStorage a;
     calls := calls a |}.

Definition setUploadedFileName (v : option jsstring) (a : App) : App :=
  {| editor := editor a; activeTab := activeTab a; sourceLang := sourceLang a;
     targetLang := targetLang a; isRecording := isRecording a;
     targetText := targetText a; detectedLang := detectedLang a;
     confidence := confidence a; error := error a; status := status a;
     selection := selection a; uploadedFileName := v;
     translatedDocContent := translatedDocContent a;
     typingTimeoutRef := typingTimeoutRef a;
     activeStreamRef := activeStreamRef a; localStorage := localStorage a;
     calls := calls a |}.

Definition setTranslatedDocContent (v : option jsstring) (a : App) : App :=
  {| editor := editor a; activeTab := activeTab a; sourceLang := sourceLang a;
     targetLang := targetLang a; isRecording := isRecording a;
     targetText := targetText a; detectedLang := detectedLang a;
     confidence := confidence a; error := error a; status := status a;
     selection := selection a; uploadedFileName := uploadedFileName a;
     translatedDocContent := v;
     typingTimeoutRef := typingTimeoutRef a;
     activeStreamRef := activeStreamRef a; localStorage := localStorage a;
     calls := calls a |}.

Definition setTypingTimeoutRef (v : option TypingClosure) (a : App) : App :=
  {| editor := editor a; activeTab := activeTab a; sourceLang := sourceLang a;
     targetLang := targetLang a; isRecording := isRecording a;
     targetText := targetText a; detectedLang := detectedLang a;
     confidence := confidence a; error := error a; status := status a;
     selection := selection a; uploadedFileName := uploadedFileName a;
     translatedDocContent := translatedDocContent a;
     typingTimeoutRef := v;
     activeStreamRef := activeStreamRef a; localStorage := localStorage a;
     calls := calls a |}.

Definition setActiveStreamRef (v : Z) (a : App) : App :=
  {| editor := editor a; activeTab := activeTab a; sourceLang := sourceLang a;
     targetLang := targetLang a; isRecording := isRecording a;
     targetText := targetText a; detectedLang := detectedLang a;
     confidence := confidence a; error := error a; status := status a;
     selection := selection a; uploadedFileName := uploadedFileName a;
     translatedDocContent := translatedDocContent a;
     typingTimeoutRef := typingTimeoutRef a;
     activeStreamRef := v; localStorage := localStorage a;
     calls := calls a |}.

Definition setLocalStorage (v : option jsstring) (a : App) : App :=
  {| editor := editor a; activeTab := activeTab a; sourceLang := sourceLang a;
     targetLang := targetLang a; isRecording := isRecording a;
     targetText := targetText a; detectedLang := detectedLang a;
     confidence := confidence a; error := error a; status := status a;
     selection := selection a; uploadedFileName := uploadedFileName a;
     translatedDocContent := translatedDocContent a;
     typingTimeoutRef := typingTimeoutRef a;
     activeStreamRef := activeStreamRef a; localStorage := v;
     calls := calls a |}.

Definition logCall (c : ServiceCall) (a : App) : App :=
  {| editor := editor a; activeTab := activeTab a; sourceLang := sourceLang a;
     targetLang := targetLang a; isRecording := isRecording a;
     targetText := targetText a; detectedLang := detectedLang a;
     confidence := confidence a; error := error a; status := status a;
     selection := selection a; uploadedFileName := uploadedFileName a;
     translatedDocContent := translatedDocContent a;
     typingTimeoutRef := typingTimeoutRef a;
     activeStreamRef := activeStreamRef a; localStorage := localStorage a;
     calls := calls a ++ [c] |}.

(** *** [handleTranslate]

    A call of the async function runs to its first [await] and leaves a
    task; the task is resumed by what it awaits.  [activeStreamRef.current]
    is a JavaScript number that is only ever incremented by one from [0], so
    it is an integer (exactly, below [2^53]). *)

Inductive Await := AwaitChunk | AwaitResult | Returned.

Record Task := {
  streamId : Z;
  t_text : jsstring;
  t_sourceLang : jsstring;
  t_targetLang : jsstring;
  fullText : jsstring;
  awaiting : Await
}.

Definition setAwaiting (v : Await) (t : Task) : Task :=
  {| streamId := streamId t; t_text := t_text t;
     t_sourceLang := t_sourceLang t; t_targetLang := t_targetLang t;
     fullText := fullText t; awaiting := v |}.

Definition setFullText (v : jsstring) (t : Task) : Task :=
  {| streamId := streamId t; t_text := t_text t;
     t_sourceLang := t_sourceLang t; t_targetLang := t_targetLang t;
     fullText := v; awaiting := awaiting t |}.

(** What resumes a suspended task: the stream yields a chunk or ends, the
    structured call resolves, or the awaited promise rejects. *)
Inductive Resumption :=
| Chunk (chunk : jsstring)
| StreamEnd
| Resolve (result : TranslationResult)
| Throw (err : Thrown).

(** [err.message || 'Translation failed. Please try again.'] *)
Definition messageOr (err : Thrown) (fallback : jsstring) : jsstring :=
  match message err with
  | Some m => if falsy m then fallback else m
  | None => fallback
  end.

(** [streamId !== activeStreamRef.current] *)
Definition stale (t : Task) (a : App) : bool :=
  bool_decide (streamId t ≠ activeStreamRef a).

(** The synchronous prefix of [handleTranslate(text)], built with
    [sourceLang] and [targetLang]. *)
Definition handleTranslate (sourceLang targetLang text : jsstring) (a : App)
  : App * option Task :=
  if falsy (trim text) then
    let a := setTargetText [] a in
    let a := setDetectedLang [] a in
    let a := setConfidence zero a in
    (a, None)
  else
    let a := setActiveStreamRef (activeStreamRef a + 1) a in
    let streamId := activeStreamRef a in
    let a := setStatus LOADING a in
    let a := setError None a in
    let a := setTargetText [] a in
    let a := logCall (CallTranslateTextStream text sourceLang targetLang) a in
    (a, Some {| streamId := streamId; t_text := text;
                t_sourceLang := sourceLang; t_targetLang := targetLang;
                fullText := []; awaiting := AwaitChunk |}).

(** The [catch] block. *)
Definition catchBlock (err : Thrown) (t : Task) (a : App) : Task * App :=
  if stale t a then (setAwaiting Returned t, a)
  else
    let a :=
      setError
        (Some (messageOr err (lit "Translation failed. Please try again."))) a
    in
    let a := setStatus ERROR a in
    (setAwaiting Returned t, a).

(** The function from one [await] to the next.  A resumption the task does
    not await leaves everything as it is. *)
Definition resume (r : Resumption) (t : Task) (a : App) : Task * App :=
  match awaiting t, r with
  | AwaitChunk, Chunk chunk =>
      if stale t a then (setAwaiting Returned t, a)
      else
        let t := setFullText (fullText t ++ chunk) t in
        (t, setTargetText (fullText t) a)
  | AwaitChunk, StreamEnd =>
      if bool_decide (t_sourceLang t = lit "auto") then
        (setAwaiting AwaitResult t,
         logCall
           (CallTranslateText (t_text t) (t_sourceLang t) (t_targetLang t)) a)
      else (setAwaiting Returned t, setStatus SUCCESS a)
  | AwaitResult, Resolve result =>
      if stale t a then (setAwaiting Returned t, a)
      else
        let a := setDetectedLang (detectedLanguage result) a in
        let a := setConfidence (resultConfidence result) a in
        (setAwaiting Returned t, setStatus SUCCESS a)
  | AwaitChunk, Throw err | AwaitResult, Throw err => catchBlock err t a
  | _, _ => (t, a)
  end.

(** *** Effects and the other handlers *)

(** The effect that saves the source text ([setLastSaved] left out). *)
Definition saveEffect (a : App) : App :=
  match activeTab a with
  | TextTab => setLocalStorage (Some (sourceText (editor a))) a
  | DocumentTab => a
  end.

(** The debounced translation effect: the cleanup of its previous run, then
    its body. *)
Definition debounceEffect (a : App) : App :=
  let a := setTypingTimeoutRef None a in
  match activeTab a with
  | DocumentTab => a
  | TextTab =>
      if (0 <? length (sourceText (editor a))) && negb (isRecording a) then
        setTypingTimeoutRef
          (Some {| c_text := sourceText (editor a);
                   c_sourceLang := sourceLang a;
                   c_targetLang := targetLang a |}) a
      else if length (sourceText (editor a)) =? 0 then
        let a := setTargetText [] a in
        let a := setDetectedLang [] a in
        let a := setConfidence zero a in
        setStatus IDLE a
      else a
  end.

(** [handleClear] *)
Definition handleClear (a : App) : App :=
  let a := setEditor (setSourceText [] (editor a)) a in
  let a := setTargetText [] a in
  let a := setDetectedLang [] a in
  let a := setConfidence zero a in
  let a := setError None a in
  let a := setStatus IDLE a in
  let a := setSelection None a in
  let a := setUploadedFileName None a in
  let a := setTranslatedDocContent None a in
  setLocalStorage None a.

(** The dependencies of the save effect and of the debounce effect
    ([handleTranslate] is rebuilt when a language changes). *)
Definition saveDeps (a : App) : jsstring * Tab :=
  (sourceText (editor a), activeTab a).

Definition debounceDeps (a : App) : jsstring * (jsstring * jsstring) * bool * Tab :=
  (sourceText (editor a), (sourceLang a, targetLang a), isRecording a,
   activeTab a).

#[global] Instance Tab_eq_dec : EqDecision Tab.
Proof. solve_decision. Defined.

(** A commit of the component: the effects whose dependencies changed, in
    the order of the source. *)
Definition appCommit (old new : App) : App :=
  let a := setEditor (commit (editor old) (editor new)) new in
  let a := if bool_decide (saveDeps old = saveDeps new) then a
           else saveEffect a in
  if bool_decide (debounceDeps old = debounceDeps new) then a
  else debounceEffect a.

(** The component with the invocations of [handleTranslate] in flight. *)
Record System := { app : App; tasks : list Task }.

(** The task of generation [id] is resumed. *)
Fixpoint deliver (id : Z) (r : Resumption) (ts : list Task) (a : App)
  : list Task * App :=
  match ts with
  | [] => ([], a)
  | t :: ts' =>
      if bool_decide (streamId t = id) then
        let '(t', a') := resume r t a in (t' :: ts', a')
      else
        let '(ts'', a') := deliver id r ts' a in (t :: ts'', a')
  end.

Definition deliverTo (id : Z) (r : Resumption) (s : System) : System :=
  let '(ts, a) := deliver id r (tasks s) (app s) in
  {| app := a; tasks := ts |}.

(** The typing timer fires, 300 ms after it was set. *)
Definition typingTimeout (s : System) : System :=
  match typingTimeoutRef (app s) with
  | Some c =>
      let a := setTypingTimeoutRef None (app s) in
      let '(a, t) :=
        handleTranslate (c_sourceLang c) (c_targetLang c) (c_text c) a in
      {| app := a; tasks := tasks s ++ option_list t |}
  | None => s
  end.

(** A handler that only touches the component. *)
Definition onApp (f : App -> App) (s : System) : System :=
  {| app := appCommit (app s) (f (app s)); tasks := tasks s |}.

Definition onEditor (f : Editor -> Editor) (a : App) : App :=
  setEditor (f (editor a)) a.

(** The timer of the history effect fires. *)
Definition historyTimerFires (a : App) : App :=
  match historyTimer (editor a) with
  | Some c => onEditor (fun e => historyTimeout c (setHistoryTimer None e)) a
  | None => a
  end.

(** One event of the component. *)
Inductive appStep : System -> System -> Prop :=
| app_change text s :
    appStep s (onApp (onEditor (setSourceText text)) s)
| app_undo e s :
    handleUndo (editor (app s)) = Some e ->
    appStep s (onApp (setEditor e) s)
| app_redo e s :
    handleRedo (editor (app s)) = Some e ->
    appStep s (onApp (setEditor e) s)
| app_clear s : appStep s (onApp handleClear s)
| app_history_timer s : appStep s (onApp historyTimerFires s)
| app_typing_timer s : appStep s (typingTimeout s)
| app_resume id r s : appStep s (deliverTo id r s).

(** The component at its first render: the initial values of the [useState]
    and [useRef] cells, and the item [saved] in [localStorage]. *)
Definition initialApp (saved : option jsstring) : App :=
  {| editor := initialEditor; activeTab := TextTab;
     sourceLang := lit "auto"; targetLang := lit "es";
     isRecording := false; targetText := []; detectedLang := [];
     confidence := zero; error := None; status := IDLE;
     selection := None; uploadedFileName := None;
     translatedDocContent := None; typingTimeoutRef := None;
     activeStreamRef := 0; localStorage := saved; calls := [] |}.

(** The resumptions after which [handleTranslate] checks the generation
    before it touches the state: a chunk of the stream, the result of the
    structured call, an exception. *)
Definition guarded (r : Resumption) : bool :=
  match r with
  | Chunk _ | Resolve _ | Throw _ => true
  | StreamEnd => false
  end.

(** Two requests in a row from the first render. *)
Definition twoRequests : System :=
  let s := {| app := initialApp None; tasks := [] |} in
  let s := onApp (onEditor (setSourceText (lit "Hello"))) s in
  let s := typingTimeout s in
  let s := onApp (onEditor (setSourceText (lit "Hello world"))) s in
  typingTimeout s.


(** ** The PCM codec

    Binary64 and binary32 arithmetic is the Standard Library's [SpecFloat]
    at [(prec, emax) = (53, 1024)] and [(24, 128)].  An [ArrayBuffer] is a
    list of bytes; the typed-array views over it are little-endian, as on
    every platform the application runs on. *)

(** An element of a [Float32Array]. *)
Definition float32 := spec_float.

(** Reading a [Float32Array] element gives the number of the same value. *)
Definition toNumber (x : float32) : number :=
  match x with
  | S754_finite s m e => binary_round 53 1024 s m e
  | _ => x
  end.

(** Writing a number to a [Float32Array] element rounds it to binary32
    (ties to even). *)
Definition toFloat32 (x : number) : float32 :=
  match x with
  | S754_finite s m e => binary_round 24 128 s m e
  | _ => x
  end.

(** The number of an integer (exact below [2^53]). *)
Definition ofInt (k : Z) : number := binary_normalize 53 1024 k 0 false.

Definition mul (x y : number) : number := SFmul 53 1024 x y.
Definition div (x y : number) : number := SFdiv 53 1024 x y.

(** ECMAScript's [truncate]: the integer part, toward zero.  [Z.shiftl] by a
    negative amount shifts right. *)
Definition truncate (x : number) : Z :=
  match x with
  | S754_finite s m e => cond_Zopp s (Z.shiftl (Zpos m) e)
  | _ => 0
  end.

(** Wrapping to 16 bits, two's complement. *)
Definition wrap16 (z : Z) : Z :=
  let int16bit := z mod 65536 in
  if 32768 <=? int16bit then int16bit - 65536 else int16bit.

(** ECMAScript's [ToInt16], the conversion of a number written to an
    [Int16Array] element: not-a-number and the infinities give [0], any
    other number is truncated and wrapped modulo [2^16]. *)
Definition toInt16 (x : number) : Z := wrap16 (truncate x).

Definition byteOfZ (z : Z) : byte :=
  match Byte.of_N (Z.to_N (z mod 256)) with
  | Some b => b
  | None => Byte.x00
  end.

Definition byteToZ (b : byte) : Z := Z.of_N (Byte.to_N b).

(** [new Uint8Array(int16.buffer)]: the bytes of an [Int16Array]. *)
Definition uint8View (int16 : list Z) : list byte :=
  flat_map (fun k => [byteOfZ k; byteOfZ (k / 256)]) int16.

(** The [Int16Array] view of a buffer of even length. *)
Fixpoint int16View (buffer : list byte) : list Z :=
  match buffer with
  | lo :: hi :: rest =>
      wrap16 (byteToZ lo + 256 * byteToZ hi) :: int16View rest
  | _ => []
  end.

(** What the modelled code throws. *)
Inductive JsError :=
| RangeError
| IndexSizeError
| TypeError
| NoAudioData
| HostError (name : string).

(** The result of code that may throw, and its sequencing. *)
Definition Result (A : Type) : Type := JsError + A.

Definition andThen {A B} (r : Result A) (k : A -> Result B) : Result B :=
  match r with
  | inl err => inl err
  | inr x => k x
  end.

Notation "'try!' x <- r ; k" := (andThen r (fun x => k))
  (at level 100, x name, r at next level, right associativity,
   format "'[v' 'try!'  x  <-  r ; '/' k ']'").

(** [new Int16Array(buffer)] throws a [RangeError] when the byte length of
    the buffer is not a multiple of 2. *)
Definition newInt16Array (buffer : list byte) : Result (list Z) :=
  if length buffer mod 2 =? 0 then inr (int16View buffer)
  else inl RangeError.

(** The loop [for (i = 0; i < src.length; i++) dst[i] = f(src[i])], from
    index [i] on.  A write beyond the end of a typed array is ignored. *)
Fixpoint fillFrom {A B} (f : A -> B) (i : nat) (src : list A) (dst : list B)
  : list B :=
  match src with
  | [] => dst
  | x :: src' => fillFrom f (S i) src' (<[i := f x]> dst)
  end.

(** [encode]: [btoa] of the bytes, base64 with padding. *)
Definition base64Char (n : Z) : N :=
  Z.to_N
    (if n <? 26 then 65 + n
     else if n <? 52 then 97 + (n - 26)
     else if n <? 62 then 48 + (n - 52)
     else if n =? 62 then 43 else 47).

Fixpoint encode (bytes : list byte) : jsstring :=
  match bytes with
  | [] => []
  | [a] =>
      let n := byteToZ a * 65536 in
      [base64Char (n / 262144); base64Char (n / 4096 mod 64); 61%N; 61%N]
  | [a; b] =>
      let n := byteToZ a * 65536 + byteToZ b * 256 in
      [base64Char (n / 262144); base64Char (n / 4096 mod 64);
       base64Char (n / 64 mod 64); 61%N]
  | a :: b :: c :: rest =>
      let n := byteToZ a * 65536 + byteToZ b * 256 + byteToZ c in
      base64Char (n / 262144) :: base64Char (n / 4096 mod 64)
      :: base64Char (n / 64 mod 64) :: base64Char (n mod 64) :: encode rest
  end.

Record Blob := { data : jsstring; mimeType : jsstring }.

(** The sample [data[i] * 32768], as stored in an [Int16Array]. *)
Definition encodeSample (x : float32) : Z :=
  toInt16 (mul (toNumber x) (ofInt 32768)).

(** The [Int16Array] that [createAudioBlob] fills. *)
Definition pcm16 (data : list float32) : list Z :=
  let l := List.length data in
  let int16 := replicate l 0 in
  fillFrom encodeSample 0 data int16.

(** [createAudioBlob] *)
Definition createAudioBlob (data : list float32) : Blob :=
  {| data := encode (uint8View (pcm16 data));
     mimeType := lit "audio/pcm;rate=16000" |}.

(** The bytes [createAudioBlob] encodes: the specification's
    [floatToPCM16]. *)
Definition floatToPCM16 (data : list float32) : list byte :=
  uint8View (pcm16 data).

(** An [AudioBuffer], and the [AudioContext] that allocates it.  The
    context belongs to the browser: it is a parameter of the code. *)
Record AudioBuffer := {
  sampleRate : number;
  channels : list (list float32)
}.

Record AudioContext := {
  createBuffer : Z -> Z -> number -> Result AudioBuffer
}.

(** [audioBuffer.getChannelData(0)] *)
Definition getChannelData0 (b : AudioBuffer) : Result (list float32) :=
  match channels b with
  | c :: _ => inr c
  | [] => inl IndexSizeError
  end.

(** The channel is a view: writing it writes the buffer. *)
Definition setChannelData0 (c : list float32) (b : AudioBuffer) : AudioBuffer :=
  {| sampleRate := sampleRate b; channels := <[0%nat := c]> (channels b) |}.

(** The sample [dataInt16[i] / 32768.0], as stored in a [Float32Array]. *)
Definition decodeSample (k : Z) : float32 :=
  toFloat32 (div (ofInt k) (ofInt 32768)).

(** [decodeGeminiPCM]; the default of [sampleRate] is [24000]. *)
Definition decodeGeminiPCM (buffer : list byte) (ctx : AudioContext)
  (sampleRate : number) : Result AudioBuffer :=
  try! dataInt16 <- newInt16Array buffer;
  try! audioBuffer <- createBuffer ctx 1 (length dataInt16) sampleRate;
  try! channelData <- getChannelData0 audioBuffer;
  let channelData := fillFrom decodeSample 0 dataInt16 channelData in
  inr (setChannelData0 channelData audioBuffer).

(** A context whose [createBuffer] allocates silence, as the Web Audio API
    does for a positive length (it rejects the others). *)
Definition allocatingContext : AudioContext :=
  {| createBuffer numberOfChannels len rate :=
       if (0 <? numberOfChannels) && (0 <? len) then
         inr {| sampleRate := rate;
                channels := replicate (Z.to_nat numberOfChannels)
                              (replicate (Z.to_nat len) zero) |}
       else inl (HostError "NotSupportedError") |}.

(** The value of a number, as a rational; [None] for not-a-number and the
    infinities. *)
Definition valueOf (x : spec_float) : option Q :=
  match x with
  | S754_zero _ => Some 0%Q
  | S754_finite s m e =>
      Some (if 0 <=? e then inject_Z (cond_Zopp s (Zpos m) * 2 ^ e)
            else Qmake (cond_Zopp s (Zpos m)) (Z.to_pos (2 ^ (- e))))
  | _ => None
  end.

(** The integer part of a rational, toward zero. *)
Definition Qtruncate (q : Q) : Z := Z.quot (Qnum q) (Zpos (Qden q)).

(** Rounding to the nearest integer, ties upward ([Math.round]). *)
Definition Qround (q : Q) : Z := Qfloor (q + (1 # 2))%Q.

(** The integer stored for a sample: its value times 32768, truncated toward
    zero and wrapped to 16 bits; [0] for not-a-number and the infinities. *)
Definition quantized (x : float32) : Z :=
  match valueOf x with
  | Some q => wrap16 (Qtruncate (q * 32768))
  | None => 0
  end.

(** Some binary32 samples: 1.0, 1.5, and three quarters of [1/32768]. *)
Definition fullScale : float32 := S754_finite false 8388608 (-23).
Definition onePointFive : float32 := S754_finite false 12582912 (-23).
Definition threeQuarterStep : float32 := S754_finite false 12582912 (-39).

(** ** Speech playback

    [isSpeaking] is a [useState] cell, [audioContextRef] a [useRef] cell.
    [synthesisCalls] logs the calls of [generateSpeech], [started] the
    buffers handed to [source.start()]. *)

Record Player := {
  isSpeaking : bool;
  audioContextRef : option AudioContext;
  synthesisCalls : list jsstring;
  started : list AudioBuffer
}.

Definition setIsSpeaking (v : bool) (p : Player) : Player :=
  {| isSpeaking := v; audioContextRef := audioContextRef p;
     synthesisCalls := synthesisCalls p; started := started p |}.

Definition setAudioContextRef (v : option AudioContext) (p : Player) : Player :=
  {| isSpeaking := isSpeaking p; audioContextRef := v;
     synthesisCalls := synthesisCalls p; started := started p |}.

Definition logSynthesis (text : jsstring) (p : Player) : Player :=
  {| isSpeaking := isSpeaking p; audioContextRef := audioContextRef p;
     synthesisCalls := synthesisCalls p ++ [text]; started := started p |}.

Definition start (b : AudioBuffer) (p : Player) : Player :=
  {| isSpeaking := isSpeaking p; audioContextRef := audioContextRef p;
     synthesisCalls := synthesisCalls p; started := started p ++ [b] |}.

(** [new AudioContext({ sampleRate: 24000 })], the browser's. *)
Record Browser := { newAudioContext : number -> Result AudioContext }.

(** [handleSpeak(text)] up to [await generateSpeech(text)], as built by a
    render in which [isSpeaking] was [flag]; an exception in the [try] block
    is caught, and the flag is cleared. *)
Definition handleSpeakFrom (flag : bool) (browser : Browser) (text : jsstring)
  (p : Player) : Player :=
  if falsy text || flag then p
  else
    let p := setIsSpeaking true p in
    let created :=
      match audioContextRef p with
      | None =>
          try! ctx <- newAudioContext browser (ofInt 24000);
          inr (setAudioContextRef (Some ctx) p)
      | Some _ => inr p
      end in
    match created with
    | inr p => logSynthesis text p
    | inl err => setIsSpeaking false p
    end.

(** The handler of the committed render, the one a click calls. *)
Definition handleSpeak (browser : Browser) (text : jsstring) (p : Player)
  : Player :=
  handleSpeakFrom (isSpeaking p) browser text p.

(** What resumes [handleSpeak]: [generateSpeech] resolves with the audio
    bytes or rejects (with [NoAudioData] when the response carries no
    audio); later, the started source ends. *)
Inductive Playback :=
| Synthesized (audioData : list byte)
| SynthesisFailed (err : JsError)
| Ended.

(** [audioContextRef.current!]: a method called on [null] throws a
    [TypeError]. *)
Definition nullContext : AudioContext :=
  {| createBuffer _ _ _ := inl TypeError |}.

(** [handleSpeak] from [await generateSpeech(text)] on, and [onended]. *)
Definition resumeSpeak (r : Playback) (p : Player) : Player :=
  match r with
  | Synthesized audioData =>
      let ctx := default nullContext (audioContextRef p) in
      let played :=
        try! audioBuffer <- decodeGeminiPCM audioData ctx (ofInt 24000);
        inr (start audioBuffer p)
      in
      match played with
      | inr p => p
      | inl err => setIsSpeaking false p
      end
  | SynthesisFailed err => setIsSpeaking false p
  | Ended => setIsSpeaking false p
  end.

(** The player at the first render, and a browser whose audio contexts
    allocate. *)
Definition initialPlayer : Player :=
  {| isSpeaking := false; audioContextRef := None; synthesisCalls := [];
     started := [] |}.

Definition allocatingBrowser : Browser :=
  {| newAudioContext _ := inr allocatingContext |}.

(** ** More of the component

    *** The edit history, continued *)

(** [k] presses of Ctrl+Z, and of Ctrl+Y. *)
Definition undoTimes (k : nat) (s : Editor) : option Editor :=
  Nat.iter k (fun o => o ≫= undo) (Some s).

Definition redoTimes (k : nat) (s : Editor) : option Editor :=
  Nat.iter k (fun o => o ≫= redo) (Some s).

(** No entry of the history equals the next one. *)
Definition NoRepeat (h : list jsstring) : Prop :=
  forall (i : nat) a b, h !! i = Some a -> h !! S i = Some b -> a ≠ b.

(** Forty-nine pushes from the first render: a history at capacity. *)
Definition fullEditor : Editor :=
  foldl (fun s text => pushText text s) (mount None)
        (List.map (fun n => [N.of_nat n + 97]%N) (seq 0 49)).

(** The settled state with cursor [i] on the entry [text] of [h]. *)
Definition onEntry (h : list jsstring) (i : Z) (text : jsstring) : Editor :=
  {| sourceText := text; history := h; historyIndex := i;
     isInternalChange := false; historyTimer := None |}.

(** *** A translation request, from the service to the display *)

(** [translateTextStream]: of the chunks of the response stream, the
    generator yields the texts that are present and not empty. *)
Fixpoint translateTextStream (responseStream : list (option jsstring))
  : list jsstring :=
  match responseStream with
  | [] => []
  | chunk :: rest =>
      match chunk with
      | Some textPart =>
          if falsy textPart then translateTextStream rest
          else textPart :: translateTextStream rest
      | None => translateTextStream rest
      end
  end.

(** A task resumed by a sequence of resumptions. *)
Definition runTask (rs : list Resumption) (ta : Task * App) : Task * App :=
  foldl (fun ta r => resume r ta.1 ta.2) ta rs.

(** [handleTranslate(text)] followed by the resumptions of its task, with
    no other event in between. *)
Definition request (sourceLang targetLang text : jsstring)
  (rs : list Resumption) (a : App) : App :=
  match handleTranslate sourceLang targetLang text a with
  | (a, Some t) => (runTask rs (t, a)).2
  | (a, None) => a
  end.

(** [setIsRecording], called by [onopen], [onclose] and [stopVoiceInput]. *)
Definition setIsRecording (v : bool) (a : App) : App :=
  {| editor := editor a; activeTab := activeTab a; sourceLang := sourceLang a;
     targetLang := targetLang a; isRecording := v;
     targetText := targetText a; detectedLang := detectedLang a;
     confidence := confidence a; error := error a; status := status a;
     selection := selection a; uploadedFileName := uploadedFileName a;
     translatedDocContent := translatedDocContent a;
     typingTimeoutRef := typingTimeoutRef a;
     activeStreamRef := activeStreamRef a; localStorage := localStorage a;
     calls := calls a |}.

(** A change of the source text, committed. *)
Definition changeText (text : jsstring) (a : App) : App :=
  appCommit a (onEditor (setSourceText text) a).

(** The tasks of a system have distinct generations, none above the
    counter. *)
Definition Fresh (s : System) : Prop :=
  NoDup (List.map streamId (tasks s)) /\
  Forall (fun t => streamId t <= activeStreamRef (app s)) (tasks s).

(** *** Swap *)

Definition setSourceLang (v : jsstring) (a : App) : App :=
  {| editor := editor a; activeTab := activeTab a; sourceLang := v;
     targetLang := targetLang a; isRecording := isRecording a;
     targetText := targetText a; detectedLang := detectedLang a;
     confidence := confidence a; error := error a; status := status a;
     selection := selection a; uploadedFileName := uploadedFileName a;
     translatedDocContent := translatedDocContent a;
     typingTimeoutRef := typingTimeoutRef a;
     activeStreamRef := activeStreamRef a; localStorage := localStorage a;
     calls := calls a |}.

Definition setTargetLang (v : jsstring) (a : App) : App :=
  {| editor := editor a; activeTab := activeTab a; sourceLang := sourceLang a;
     targetLang := v; isRecording := isRecording a;
     targetText := targetText a; detectedLang := detectedLang a;
     confidence := confidence a; error := error a; status := status a;
     selection := selection a; uploadedFileName := uploadedFileName a;
     translatedDocContent := translatedDocContent a;
     typingTimeoutRef := typingTimeoutRef a;
     activeStreamRef := activeStreamRef a; localStorage := localStorage a;
     calls := calls a |}.

(** [handleSwap] *)
Definition handleSwap (a : App) : App :=
  if bool_decide (sourceLang a = lit "auto") then a
  else
    let prevSource := sourceLang a in
    let prevTarget := targetLang a in
    let a' := setSourceLang prevTarget a in
    let a' := setTargetLang prevSource a' in
    let a' := onEditor (setSourceText (targetText a)) a' in
    setTargetText (sourceText (editor a)) a'.

(** The Swap button or Ctrl+Shift+S, committed. *)
Definition swap (a : App) : App := appCommit a (handleSwap a).

(** *** The service module, continued: base64 *)

(** The value of a character of the base64 alphabet. *)
Definition base64Value (c : N) : option Z :=
  let c := Z.of_N c in
  if (65 <=? c) && (c <=? 90) then Some (c - 65)
  else if (97 <=? c) && (c <=? 122) then Some (c - 97 + 26)
  else if (48 <=? c) && (c <=? 57) then Some (c - 48 + 52)
  else if c =? 43 then Some 62
  else if c =? 47 then Some 63
  else None.

(** ASCII whitespace: tab, line feed, form feed, carriage return, space. *)
Definition isAsciiWhitespace (c : N) : bool :=
  N.eqb c 9 || N.eqb c 10 || N.eqb c 12 || N.eqb c 13 || N.eqb c 32.

(** One or two [=] at the end are removed. *)
Definition stripPadding (data : jsstring) : jsstring :=
  match rev data with
  | c1 :: r1 =>
      if N.eqb c1 61 then
        match r1 with
        | c2 :: r2 => if N.eqb c2 61 then rev r2 else rev r1
        | [] => rev r1
        end
      else data
  | [] => data
  end.

(** The bytes of a sequence of 6-bit values: three bytes for four values,
    and for a rest of two or three values one or two bytes, the bits left
    over being discarded. *)
Fixpoint decodeValues (values : list Z) : list Z :=
  match values with
  | a :: b :: c :: d :: rest =>
      let n := a * 262144 + b * 4096 + c * 64 + d in
      n / 65536 :: n / 256 mod 256 :: n mod 256 :: decodeValues rest
  | [a; b; c] =>
      let n := a * 4096 + b * 64 + c in
      [n / 1024; n / 4 mod 256]
  | [a; b] => [(a * 64 + b) / 16]
  | _ => []
  end.

(** [atob]: the forgiving base64 decoding of the HTML standard.  The result
    is a binary string; an [InvalidCharacterError] is thrown for a length
    of 1 modulo 4 and for a character outside the alphabet. *)
Definition atob (data : jsstring) : Result jsstring :=
  let data := List.filter (fun c => negb (isAsciiWhitespace c)) data in
  let data := if length data mod 4 =? 0 then stripPadding data else data in
  if length data mod 4 =? 1 then inl (HostError "InvalidCharacterError")
  else
    match mapM base64Value data with
    | Some values => inr (List.map Z.to_N (decodeValues values))
    | None => inl (HostError "InvalidCharacterError")
    end.

(** [generateSpeech], from the payload [base64Audio] of the response on:
    absent or empty it throws ["No audio data returned"], otherwise the
    bytes are the character codes of [atob(base64Audio)]. *)
Definition generateSpeechBytes (base64Audio : option jsstring)
  : Result (list byte) :=
  match base64Audio with
  | None => inl NoAudioData
  | Some base64Audio =>
      if falsy base64Audio then inl NoAudioData
      else
        try! binaryString <- atob base64Audio;
        inr (List.map (fun c => byteOfZ (Z.of_N c)) binaryString)
  end.

(** The 6-bit values of the bytes, without padding. *)
Fixpoint encodeValues (bytes : list byte) : list Z :=
  match bytes with
  | [] => []
  | [a] =>
      let n := byteToZ a * 65536 in
      [n / 262144; n / 4096 mod 64]
  | [a; b] =>
      let n := byteToZ a * 65536 + byteToZ b * 256 in
      [n / 262144; n / 4096 mod 64; n / 64 mod 64]
  | a :: b :: c :: rest =>
      let n := byteToZ a * 65536 + byteToZ b * 256 + byteToZ c in
      n / 262144 :: n / 4096 mod 64 :: n / 64 mod 64 :: n mod 64
      :: encodeValues rest
  end.

(** The [=] that complete the last group. *)
Definition padding (bytes : list byte) : jsstring :=
  match (List.length bytes mod 3)%nat with
  | 1%nat => [61; 61]%N
  | 2%nat => [61]%N
  | _ => []
  end.

(** *** Speech playback, event by event *)

Inductive PlayerEvent :=
| SpeakClick (text : jsstring)
| Resumed (r : Playback).

Definition playerStep (browser : Browser) (p : Player) (e : PlayerEvent)
  : Player :=
  match e with
  | SpeakClick text => handleSpeak browser text p
  | Resumed r => resumeSpeak r p
  end.

Definition playerRun (browser : Browser) (p : Player)
  (events : list PlayerEvent) : Player :=
  foldl (playerStep browser) p events.

(** *** Voice transcription

    The functional update of [onmessage],
    [prev => (prev ? prev + ' ' + text : text)], for a transcription whose
    [text] is present. *)
Definition appendTranscription (text prev : jsstring) : jsstring :=
  if falsy prev then text else prev ++ lit " " ++ text.

(** [onmessage] with an input transcription, committed. *)
Definition onTranscription (text : jsstring) (a : App) : App :=
  appCommit a
    (onEditor (fun e => setSourceText
                          (appendTranscription text (sourceText e)) e) a).

Definition transcribe (texts : list jsstring) (a : App) : App :=
  foldl (fun a text => onTranscription text a) a texts.

(** The texts from the first one that is not empty on. *)
Fixpoint skipEmpty (texts : list jsstring) : list jsstring :=
  match texts with
  | [] => []
  | text :: rest => if falsy text then skipEmpty rest else texts
  end.

(** [texts.join(' ')] *)
Definition joinSpace (texts : list jsstring) : jsstring :=
  match texts with
  | [] => []
  | text :: rest => text ++ flat_map (fun t => lit " " ++ t) rest
  end.

(** *** Download of a translated document *)




(** *** The first render

    The effects of the first render run in the order of the source, each
    with the values of that render: the tracking effect, the effect that
    restores the saved text (its updates are queued), the save effect, the
    debounce effect.  The render that the restore effect asked for is then
    committed. *)
Definition appMount (saved : option jsstring) : App :=
  let a := initialApp saved in
  let a := setEditor (historyEffect (editor a)) a in
  let savedText := localStorage a in
  let a := saveEffect a in
  let a := debounceEffect a in
  match savedText with
  | Some savedText =>
      if falsy savedText then a
      else
        let e := setSourceText savedText (editor a) in
        let e := setHistory [savedText] e in
        let e := setHistoryIndex 0 e in
        appCommit a (setEditor e a)
  | None => a
  end.

(** The item of [localStorage] is the source text; after Clear on an empty
    text it is absent. *)
Definition Persisted (a : App) : Prop :=
  activeTab a = TextTab /\
  (localStorage a = Some (sourceText (editor a)) \/
   localStorage a = None /\ sourceText (editor a) = []).

Lemma get_in_range {A} (a : list A) i :
  0 <= i < length a -> is_Some (get a i).
Proof.
  unfold get, length. intros [H0 H1]. destruct (Z.ltb_spec i 0); [lia|].
  apply lookup_lt_is_Some. lia.
Qed.

Lemma length_slice0 {A} (a : list A) e :
  0 <= e <= length a -> length (slice0 a e) = e.
Proof.
  unfold slice0, length. intros [H0 H1].
  destruct (Z.ltb_spec e 0); [lia|].
  rewrite length_take. lia.
Qed.

Lemma length_push {A} (a : list A) x : length (push a x) = length a + 1.
Proof. unfold push, length. rewrite length_app. simpl. lia. Qed.

Lemma length_shift {A} (a : list A) :
  0 < length a -> length (shift a) = length a - 1.
Proof. unfold shift, length. rewrite length_drop. lia. Qed.

Lemma get_push_last {A} (a : list A) x : get (push a x) (length a) = Some x.
Proof.
  unfold get, push, length. destruct (Z.ltb_spec (Z.of_nat (List.length a)) 0); [lia|].
  rewrite Nat2Z.id. apply list_lookup_middle. done.
Qed.

Lemma get_shift {A} (a : list A) i :
  0 <= i -> get (shift a) i = get a (i + 1).
Proof.
  unfold get, shift. intros Hi.
  destruct (Z.ltb_spec i 0); [lia|]. destruct (Z.ltb_spec (i + 1) 0); [lia|].
  rewrite lookup_drop. f_equal. lia.
Qed.

(** ** The edit history *)

Lemma recorded_length c :
  length (c_history c) <= 50 ->
  0 <= c_historyIndex c < length (c_history c) ->
  1 <= length (recorded c) <= 50.
Proof.
  intros Hlen Hidx. unfold recorded.
  pose proof (length_slice0 (c_history c) (c_historyIndex c + 1)) as Hs.
  pose proof (length_push (slice0 (c_history c) (c_historyIndex c + 1))
                (c_sourceText c)) as Hp.
  destruct (Z.ltb_spec 50 (length (push (slice0 (c_history c)
              (c_historyIndex c + 1)) (c_sourceText c)))) as [Hgt|Hle].
  - rewrite length_shift by lia. lia.
  - lia.
Qed.

Lemma recorded_last c :
  0 <= c_historyIndex c < length (c_history c) ->
  get (recorded c) (length (recorded c) - 1) = Some (c_sourceText c).
Proof.
  intros Hidx. unfold recorded.
  set (a := slice0 (c_history c) (c_historyIndex c + 1)).
  assert (Ha : length a = c_historyIndex c + 1)
    by (apply length_slice0; lia).
  pose proof (length_push a (c_sourceText c)) as Hp.
  destruct (Z.ltb_spec 50 (length (push a (c_sourceText c)))) as [Hgt|Hle].
  - rewrite length_shift by lia. rewrite get_shift by lia.
    replace (length (push a (c_sourceText c)) - 1 - 1 + 1) with (length a)
      by lia.
    apply get_push_last.
  - replace (length (push a (c_sourceText c)) - 1) with (length a) by lia.
    apply get_push_last.
Qed.

Lemma historyTimeout_fields c s :
  sourceText (historyTimeout c s) = sourceText s /\
  isInternalChange (historyTimeout c s) = isInternalChange s /\
  historyTimer (historyTimeout c s) = historyTimer s.
Proof. unfold historyTimeout. case_bool_decide; done. Qed.

Lemma historyTimeout_records c s :
  Some (c_sourceText c) ≠ get (c_history c) (c_historyIndex c) ->
  history (historyTimeout c s) = recorded c /\
  historyIndex (historyTimeout c s) = length (recorded c) - 1.
Proof.
  intros Hne. unfold historyTimeout. rewrite bool_decide_eq_true_2 by done.
  done.
Qed.

Lemma historyTimeout_same c s :
  Some (c_sourceText c) = get (c_history c) (c_historyIndex c) ->
  historyTimeout c s = s.
Proof.
  intros He. unfold historyTimeout. rewrite bool_decide_eq_false_2; [done|].
  intros Hne. by apply Hne.
Qed.

(** What a run of the effect leaves behind. *)
Lemma historyEffect_fields s :
  sourceText (historyEffect s) = sourceText s /\
  history (historyEffect s) = history s /\
  historyIndex (historyEffect s) = historyIndex s /\
  isInternalChange (historyEffect s) = false /\
  historyTimer (historyEffect s) =
    if isInternalChange s then None else Some (closureOf s).
Proof. unfold historyEffect. destruct s as [t h i [] tm]; done. Qed.

Lemma commit_fields old new :
  sourceText (commit old new) = sourceText new /\
  history (commit old new) = history new /\
  historyIndex (commit old new) = historyIndex new.
Proof.
  unfold commit. case_bool_decide; [done|].
  pose proof (historyEffect_fields new). tauto.
Qed.

(** A commit settles the state, given what holds of the new state when the
    effect does not run, and when it runs with the flag set. *)
Lemma commit_settled old new :
  Bounded new ->
  (historyDeps old = historyDeps new ->
   isInternalChange new = false /\
   (forall c, historyTimer new = Some c -> c = closureOf new) /\
   (historyTimer new = None -> current new = Some (sourceText new))) ->
  (isInternalChange new = true -> current new = Some (sourceText new)) ->
  Settled (commit old new).
Proof.
  intros Hb Hsame Hflag. unfold commit. case_bool_decide as Hd.
  - destruct (Hsame Hd) as (? & ? & ?). by constructor.
  - pose proof (historyEffect_fields new) as (Ht & Hh & Hi & Hf & Htm).
    constructor.
    + unfold Bounded. rewrite Hh, Hi. exact Hb.
    + exact Hf.
    + intros c. rewrite Htm. destruct (isInternalChange new); [done|].
      intros [= <-]. unfold closureOf. by rewrite Ht, Hh, Hi.
    + rewrite Htm. unfold current. rewrite Ht, Hh, Hi.
      destruct (isInternalChange new); [|done]. intros _. by apply Hflag.
Qed.

Lemma typeText_settled text s : Settled s -> Settled (typeText text s).
Proof.
  intros [Hb Hf Ht Hsync]. unfold typeText. apply commit_settled.
  - exact Hb.
  - intros Hd. unfold historyDeps in Hd. simpl in Hd.
    assert (Htext : text = sourceText s) by congruence.
    split; [exact Hf|]. simpl. split.
    + intros c Hc. rewrite (Ht c Hc). unfold closureOf. simpl. congruence.
    + intros Hn. unfold current. simpl. rewrite Htext. by apply Hsync.
  - simpl. congruence.
Qed.

Lemma quiet_settled s : Settled s -> Settled (quiet s).
Proof.
  intros Hs. pose proof Hs as [Hb Hf Ht Hsync]. unfold quiet.
  destruct (historyTimer s) as [c|] eqn:Hc; [|exact Hs].
  pose proof (Ht c eq_refl) as ->. destruct Hb as [Hlen Hidx].
  pose proof (historyTimeout_fields (closureOf s) (setHistoryTimer None s))
    as (Hst & Hsf & Hstm).
  destruct (decide (Some (sourceText s) = current s)) as [He|Hne].
  - rewrite historyTimeout_same by exact He. apply commit_settled.
    + by split.
    + intros _. split; [exact Hf|]. simpl. split; [done|].
      intros _. unfold current. simpl. symmetry. exact He.
    + simpl. congruence.
  - destruct (historyTimeout_records (closureOf s) (setHistoryTimer None s)
                Hne) as [Hh Hi].
    apply commit_settled.
    + unfold Bounded. rewrite Hh, Hi.
      pose proof (recorded_length (closureOf s) Hlen Hidx). lia.
    + intros _. rewrite Hsf, Hstm. simpl. split; [exact Hf|]. split; [done|].
      intros _. unfold current. rewrite Hh, Hi, Hst. simpl.
      apply (recorded_last (closureOf s)). exact Hidx.
    + rewrite Hsf. simpl. congruence.
Qed.

Lemma handleUndo_applies s :
  0 < historyIndex s < length (history s) ->
  exists prevText,
    get (history s) (historyIndex s - 1) = Some prevText /\
    handleUndo s =
      Some {| sourceText := prevText; history := history s;
              historyIndex := historyIndex s - 1; isInternalChange := true;
              historyTimer := historyTimer s |}.
Proof.
  intros Hi.
  destruct (get_in_range (history s) (historyIndex s - 1)) as [p Hp]; [lia|].
  exists p. split; [exact Hp|]. unfold handleUndo.
  destruct (Z.ltb_spec 0 (historyIndex s)); [|lia]. simpl. rewrite Hp. done.
Qed.

Lemma handleUndo_at_start s : historyIndex s <= 0 -> handleUndo s = Some s.
Proof.
  intros Hi. unfold handleUndo.
  destruct (Z.ltb_spec 0 (historyIndex s)); [lia|done].
Qed.

Lemma handleRedo_applies s :
  0 <= historyIndex s < length (history s) - 1 ->
  exists nextText,
    get (history s) (historyIndex s + 1) = Some nextText /\
    handleRedo s =
      Some {| sourceText := nextText; history := history s;
              historyIndex := historyIndex s + 1; isInternalChange := true;
              historyTimer := historyTimer s |}.
Proof.
  intros Hi.
  destruct (get_in_range (history s) (historyIndex s + 1)) as [p Hp]; [lia|].
  exists p. split; [exact Hp|]. unfold handleRedo.
  destruct (Z.ltb_spec (historyIndex s) (length (history s) - 1)); [|lia].
  simpl. rewrite Hp. done.
Qed.

Lemma handleRedo_at_end s :
  length (history s) - 1 <= historyIndex s -> handleRedo s = Some s.
Proof.
  intros Hi. unfold handleRedo.
  destruct (Z.ltb_spec (historyIndex s) (length (history s) - 1)); [lia|done].
Qed.

(** The commit that follows an applied undo or redo: the cursor moved, so
    the effect runs, finds the flag, clears it and sets no timer. *)
Lemma commit_replay s text i tm :
  i ≠ historyIndex s ->
  commit s {| sourceText := text; history := history s; historyIndex := i;
              isInternalChange := true; historyTimer := tm |} =
  {| sourceText := text; history := history s; historyIndex := i;
     isInternalChange := false; historyTimer := None |}.
Proof.
  intros Hi. unfold commit. rewrite bool_decide_eq_false_2; [done|].
  unfold historyDeps. simpl. intros [= _ Hx]. by apply Hi.
Qed.

Lemma commit_same s : commit s s = s.
Proof. unfold commit. by rewrite bool_decide_eq_true_2. Qed.

Lemma undo_settled s s' : Settled s -> undo s = Some s' -> Settled s'.
Proof.
  intros Hs Hu. pose proof Hs as [[Hlen Hidx] Hf Ht Hsync]. unfold undo in Hu.
  destruct (Z_lt_le_dec 0 (historyIndex s)) as [Hpos|Hz].
  - destruct (handleUndo_applies s) as (p & Hp & He); [lia|].
    rewrite He in Hu. simpl in Hu. rewrite commit_replay in Hu by lia.
    injection Hu as <-.
    constructor; [split; simpl; lia|done|done|done].
  - rewrite handleUndo_at_start in Hu by exact Hz. simpl in Hu.
    rewrite commit_same in Hu. by injection Hu as <-.
Qed.

Lemma redo_settled s s' : Settled s -> redo s = Some s' -> Settled s'.
Proof.
  intros Hs Hu. pose proof Hs as [[Hlen Hidx] Hf Ht Hsync]. unfold redo in Hu.
  destruct (Z_lt_le_dec (historyIndex s) (length (history s) - 1))
    as [Hlt|Hge].
  - destruct (handleRedo_applies s) as (p & Hp & He); [lia|].
    rewrite He in Hu. simpl in Hu. rewrite commit_replay in Hu by lia.
    injection Hu as <-.
    constructor; [split; simpl; lia|done|done|done].
  - rewrite handleRedo_at_end in Hu by exact Hge. simpl in Hu.
    rewrite commit_same in Hu. by injection Hu as <-.
Qed.

Lemma mount_settled saved : Settled (mount saved).
Proof.
  assert (H0 : Settled (historyEffect initialEditor)).
  { constructor; [by vm_compute|done|by intros c [= <-]|done]. }
  unfold mount. destruct saved as [savedText|]; [|exact H0].
  destruct (falsy savedText) eqn:Hfal; [exact H0|].
  apply commit_settled.
  - unfold Bounded, length. simpl. lia.
  - intros Hd. exfalso. unfold historyDeps in Hd. cbn in Hd.
    destruct savedText; [done|congruence].
  - done.
Qed.

Lemma editorStep_settled s s' : Settled s -> editorStep s s' -> Settled s'.
Proof.
  intros Hs Hstep. destruct Hstep as [text s|s|s s' Hu|s s' Hr].
  - by apply typeText_settled.
  - by apply quiet_settled.
  - by eapply undo_settled.
  - by eapply redo_settled.
Qed.

Lemma reachable_settled s : reachable s -> Settled s.
Proof.
  induction 1 as [saved|s s' _ IH Hstep].
  - apply mount_settled.
  - by eapply editorStep_settled.
Qed.

(** After the quiet period the entry at the cursor is the source text. *)
Lemma quiet_current s :
  Settled s ->
  sourceText (quiet s) = sourceText s /\
  current (quiet s) = Some (sourceText s).
Proof.
  intros Hs. pose proof Hs as [[Hlen Hidx] Hf Ht Hsync]. unfold quiet.
  destruct (historyTimer s) as [c|] eqn:Hc; [|by split; [|apply Hsync]].
  pose proof (Ht c eq_refl) as ->.
  pose proof (historyTimeout_fields (closureOf s) (setHistoryTimer None s))
    as (Hst & _ & _).
  pose proof (commit_fields s
                (historyTimeout (closureOf s) (setHistoryTimer None s)))
    as (Ct & Ch & Ci).
  unfold current. rewrite Ct, Ch, Ci, Hst. split; [done|].
  destruct (decide (Some (sourceText s) = current s)) as [He|Hne].
  - rewrite historyTimeout_same by exact He. simpl. symmetry. exact He.
  - destruct (historyTimeout_records (closureOf s) (setHistoryTimer None s)
                Hne) as [-> ->].
    apply (recorded_last (closureOf s)). exact Hidx.
Qed.

Lemma typeText_sourceText text s : sourceText (typeText text s) = text.
Proof.
  unfold typeText.
  by destruct (commit_fields s (setSourceText text s)) as (-> & _).
Qed.

(** C2.  Every sequence of pushes (the text is set, then the debounced
    tracking step runs) from a state of a run of the component keeps the
    history within 50 entries and the cursor inside it, after every push of
    the sequence; and after a push the entry at the cursor is the text that
    was pushed, which is the current source text. *)
Theorem push_sequence_invariant (s : Editor) (texts : list jsstring) (n : nat) :
  reachable s ->
  let s' := foldl (fun s text => pushText text s) s (take n texts) in
  length (history s') <= 50 /\
  0 <= historyIndex s' < length (history s') /\
  forall text, last (take n texts) = Some text ->
    sourceText s' = text /\ current s' = Some text.
Proof.
  intros Hs%reachable_settled. generalize (take n texts). clear texts n.
  intros texts. simpl. revert s Hs.
  induction texts as [|text texts _] using rev_ind; intros s Hs.
  - simpl. destruct Hs as [[Hlen Hidx] _ _ _].
    split; [exact Hlen|]. split; [exact Hidx|]. intros text [=].
  - rewrite foldl_app. simpl.
    set (s1 := foldl (fun s text => pushText text s) s texts).
    assert (Hs1 : Settled s1).
    { subst s1. revert s Hs. induction texts as [|t ts IHts];
        intros s Hs; simpl; [done|].
      apply IHts. unfold pushText. by apply quiet_settled, typeText_settled. }
    pose proof (typeText_settled text s1 Hs1) as Hs2.
    pose proof (quiet_settled _ Hs2) as [[Hlen Hidx] _ _ _].
    destruct (quiet_current _ Hs2) as [Ht Hc].
    rewrite typeText_sourceText in Ht, Hc.
    unfold pushText. split; [exact Hlen|]. split; [exact Hidx|].
    intros text' Hlast. rewrite last_snoc in Hlast.
    injection Hlast as <-. by split.
Qed.

Lemma push_sequence_invariant_witness :
  let texts := [lit "a"; lit "ab"; lit "abc"] in
  let s' := foldl (fun s text => pushText text s) (mount None) (take 2 texts) in
  length (history s') <= 50 /\
  0 <= historyIndex s' < length (history s') /\
  forall text, last (take 2 texts) = Some text ->
    sourceText s' = text /\ current s' = Some text.
Proof.
  exact (push_sequence_invariant (mount None)
           [lit "a"; lit "ab"; lit "abc"] 2 (reach_mount None)).
Defined.

(** C3.  With the cursor inside the history: when the cursor is not at the
    first entry, undo followed by redo brings the cursor back and makes the
    source text the entry that was at the cursor, so the text that was
    current is restored exactly; at the first entry undo changes nothing,
    and at the last entry redo changes nothing. *)
Theorem undo_then_redo_restores (s : Editor) :
  0 <= historyIndex s < length (history s) ->
  (0 < historyIndex s ->
   exists s1 s2,
     undo s = Some s1 /\ redo s1 = Some s2 /\
     history s2 = history s /\ historyIndex s2 = historyIndex s /\
     Some (sourceText s2) = current s /\
     (current s = Some (sourceText s) -> sourceText s2 = sourceText s)) /\
  (historyIndex s = 0 -> handleUndo s = Some s /\ undo s = Some s) /\
  (historyIndex s = length (history s) - 1 ->
   handleRedo s = Some s /\ redo s = Some s).
Proof.
  intros Hidx. split; [|split].
  - intros Hpos.
    destruct (handleUndo_applies s) as (p & Hp & Hu); [lia|].
    set (s1 := {| sourceText := p; history := history s;
                  historyIndex := historyIndex s - 1;
                  isInternalChange := false; historyTimer := None |}).
    assert (Hundo : undo s = Some s1).
    { unfold undo. rewrite Hu. simpl. by rewrite commit_replay by lia. }
    destruct (handleRedo_applies s1) as (q & Hq & Hr); [simpl; lia|].
    simpl in Hq, Hr.
    replace (historyIndex s - 1 + 1) with (historyIndex s) in Hq, Hr by lia.
    exists s1. eexists. split; [exact Hundo|]. split.
    { unfold redo. rewrite Hr. simpl.
      change (history s) with (history s1) at 1.
      rewrite commit_replay by (simpl; lia). reflexivity. }
    simpl. unfold current. rewrite Hq. repeat split. congruence.
  - intros H0. rewrite (handleUndo_at_start s) by lia. split; [done|].
    unfold undo. rewrite (handleUndo_at_start s) by lia. simpl.
    by rewrite commit_same.
  - intros Hend. rewrite (handleRedo_at_end s) by lia. split; [done|].
    unfold redo. rewrite (handleRedo_at_end s) by lia. simpl.
    by rewrite commit_same.
Qed.

Lemma undo_then_redo_restores_witness :
  let s := {| sourceText := lit "ab"; history := [[]; lit "a"; lit "ab"];
              historyIndex := 2; isInternalChange := false;
              historyTimer := None |} in
  exists s1 s2,
    undo s = Some s1 /\ redo s1 = Some s2 /\
    history s2 = history s /\ historyIndex s2 = historyIndex s /\
    Some (sourceText s2) = current s /\
    (current s = Some (sourceText s) -> sourceText s2 = sourceText s).
Proof.
  intros s.
  refine (proj1 (undo_then_redo_restores s _) _); vm_compute; split; congruence.
Defined.

(** C10.  An undo or a redo leaves the history entries as they are: the
    handler changes only the cursor, the source text and the re-entrancy
    flag.  When it applied, the commit that follows runs the tracking effect
    with the flag set: the effect clears the flag and sets no timer, so that
    the tracking step has nothing to record and the entries stay the same. *)
Theorem undo_redo_keep_entries (s s' : Editor) :
  handleUndo s = Some s' \/ handleRedo s = Some s' ->
  history s' = history s /\
  historyTimer s' = historyTimer s /\
  (s' ≠ s ->
   isInternalChange s' = true /\
   let s'' := commit s s' in
   history s'' = history s /\
   sourceText s'' = sourceText s' /\
   historyIndex s'' = historyIndex s' /\
   isInternalChange s'' = false /\
   historyTimer s'' = None /\
   quiet s'' = s'').
Proof.
  assert (Hshape :
    (handleUndo s = Some s' \/ handleRedo s = Some s') ->
    s' = s \/
    exists text i, i ≠ historyIndex s /\
      s' = {| sourceText := text; history := history s; historyIndex := i;
              isInternalChange := true; historyTimer := historyTimer s |}).
  { intros [Hu|Hr].
    - unfold handleUndo in Hu.
      destruct (Z.ltb_spec 0 (historyIndex s)); [|left; congruence].
      simpl in Hu.
      destruct (get (history s) (historyIndex s - 1)) as [p|]; [|done].
      right. exists p, (historyIndex s - 1). split; [lia|].
      simpl in Hu. injection Hu as <-. reflexivity.
    - unfold handleRedo in Hr.
      destruct (Z.ltb_spec (historyIndex s) (length (history s) - 1));
        [|left; congruence].
      simpl in Hr.
      destruct (get (history s) (historyIndex s + 1)) as [p|]; [|done].
      right. exists p, (historyIndex s + 1). split; [lia|].
      simpl in Hr. injection Hr as <-. reflexivity. }
  intros H. destruct (Hshape H) as [->|(text & i & Hi & ->)].
  - split; [done|]. split; [done|]. intros Hne. by destruct Hne.
  - simpl. split; [done|]. split; [done|]. intros _. split; [done|].
    rewrite commit_replay by exact Hi. simpl. repeat split; done.
Qed.

Lemma undo_redo_keep_entries_witness :
  let s := {| sourceText := lit "ab"; history := [[]; lit "a"; lit "ab"];
              historyIndex := 2; isInternalChange := false;
              historyTimer := None |} in
  let s' := {| sourceText := lit "a"; history := [[]; lit "a"; lit "ab"];
               historyIndex := 1; isInternalChange := true;
               historyTimer := None |} in
  history s' = history s /\
  historyTimer s' = historyTimer s /\
  (s' ≠ s ->
   isInternalChange s' = true /\
   let s'' := commit s s' in
   history s'' = history s /\
   sourceText s'' = sourceText s' /\
   historyIndex s'' = historyIndex s' /\
   isInternalChange s'' = false /\
   historyTimer s'' = None /\
   quiet s'' = s'').
Proof.
  intros s s'. apply (undo_redo_keep_entries s s'). left. reflexivity.
Defined.

(** ** Translation requests *)

Lemma trimStart_nil_iff s : trimStart s = [] <-> forallb isWhiteSpace s = true.
Proof.
  induction s as [|c s IH]; simpl; [done|].
  destruct (isWhiteSpace c); simpl; [exact IH|]. split; done.
Qed.

Lemma trimStart_head s c s' :
  trimStart s = c :: s' -> isWhiteSpace c = false.
Proof.
  induction s as [|d s IH]; simpl; [done|].
  destruct (isWhiteSpace d) eqn:Hd; [exact IH|]. congruence.
Qed.

(** A string trims to the empty string exactly when it consists of white
    space. *)
Lemma trim_nil_iff s : trim s = [] <-> forallb isWhiteSpace s = true.
Proof.
  rewrite <- trimStart_nil_iff. unfold trim. split.
  - intros H.
    assert (Hr : trimStart (rev (trimStart s)) = []).
    { destruct (trimStart (rev (trimStart s))) as [|c l] eqn:He; [done|].
      apply (f_equal List.length) in H. rewrite length_rev in H. done. }
    destruct (trimStart s) as [|c s'] eqn:Hs; [done|].
    apply trimStart_head in Hs. apply trimStart_nil_iff in Hr.
    rewrite forallb_forall in Hr. rewrite (Hr c) in Hs; [done|].
    apply in_rev. rewrite rev_involutive. by left.
  - by intros ->.
Qed.

Lemma appCommit_activeStreamRef old new :
  activeStreamRef (appCommit old new) = activeStreamRef new.
Proof.
  unfold appCommit, saveEffect, debounceEffect.
  repeat (case_bool_decide || case_match); reflexivity.
Qed.

Lemma handleTranslate_activeStreamRef sl tl text a :
  activeStreamRef a <= activeStreamRef (handleTranslate sl tl text a).1.
Proof.
  unfold handleTranslate. destruct (falsy (trim text)); simpl; lia.
Qed.

(** A request that is issued takes the next generation. *)
Lemma handleTranslate_issues sl tl text a :
  trim text ≠ [] ->
  exists t,
    (handleTranslate sl tl text a).2 = Some t /\
    streamId t = activeStreamRef a + 1 /\
    activeStreamRef (handleTranslate sl tl text a).1 = activeStreamRef a + 1.
Proof.
  intros Hne. unfold handleTranslate.
  destruct (trim text) as [|c s]; [done|]. simpl. eexists. by repeat split.
Qed.

Lemma resume_activeStreamRef r t a :
  activeStreamRef (resume r t a).2 = activeStreamRef a.
Proof.
  unfold resume, catchBlock.
  repeat (case_bool_decide || case_match); reflexivity.
Qed.

Lemma deliver_activeStreamRef id r ts a :
  activeStreamRef (deliver id r ts a).2 = activeStreamRef a.
Proof.
  revert a. induction ts as [|t ts IH]; intros a; simpl; [done|].
  case_bool_decide.
  - pose proof (resume_activeStreamRef r t a).
    by destruct (resume r t a).
  - specialize (IH a). by destruct (deliver id r ts a).
Qed.

(** The generation counter never goes down. *)
Lemma appStep_activeStreamRef s s' :
  appStep s s' -> activeStreamRef (app s) <= activeStreamRef (app s').
Proof.
  intros Hstep.
  destruct Hstep as [text s|e s Hu|e s Hr|s|s|s|id r s]; simpl;
    rewrite ?appCommit_activeStreamRef.
  - simpl. lia.
  - simpl. lia.
  - simpl. lia.
  - simpl. lia.
  - unfold historyTimerFires. destruct (historyTimer _); simpl; lia.
  - unfold typingTimeout. destruct (typingTimeoutRef (app s)) as [c|]; [|lia].
    pose proof (handleTranslate_activeStreamRef (c_sourceLang c)
                  (c_targetLang c) (c_text c)
                  (setTypingTimeoutRef None (app s))) as Hm.
    destruct (handleTranslate _ _ _ _). simpl in *. lia.
  - unfold deliverTo.
    pose proof (deliver_activeStreamRef id r (tasks s) (app s)) as Hd.
    destruct (deliver id r (tasks s) (app s)). simpl in *. lia.
Qed.

Lemma appSteps_activeStreamRef s s' :
  rtc appStep s s' -> activeStreamRef (app s) <= activeStreamRef (app s').
Proof.
  induction 1 as [|s1 s2 s3 Hstep _ IH]; [lia|].
  pose proof (appStep_activeStreamRef _ _ Hstep). lia.
Qed.

(** The chunk of a current task is appended and displayed. *)
Lemma resume_current_chunk chunk t a :
  awaiting t = AwaitChunk -> streamId t = activeStreamRef a ->
  targetText (resume (Chunk chunk) t a).2 = fullText t ++ chunk /\
  fullText (resume (Chunk chunk) t a).1 = fullText t ++ chunk.
Proof.
  intros Hw Hc. unfold resume, stale. rewrite Hw.
  rewrite bool_decide_eq_false_2; [done|]. intros Hne. by apply Hne.
Qed.

(** A stale task that is resumed by a chunk, a result or an exception
    returns and leaves the component as it is. *)
Lemma resume_stale r t a :
  streamId t ≠ activeStreamRef a -> guarded r = true ->
  (resume r t a).2 = a.
Proof.
  intros Hst Hg. unfold resume, catchBlock, stale.
  rewrite bool_decide_eq_true_2 by exact Hst.
  destruct r; [| done | |]; by destruct (awaiting t).
Qed.

Lemma deliver_stale id r ts a :
  id ≠ activeStreamRef a -> guarded r = true -> (deliver id r ts a).2 = a.
Proof.
  intros Hid Hg. induction ts as [|t ts IH]; simpl; [done|].
  case_bool_decide as Ht.
  - pose proof (resume_stale r t a) as Hr. rewrite Ht in Hr.
    specialize (Hr Hid Hg). by destruct (resume r t a).
  - by destruct (deliver id r ts a).
Qed.

(** *** The component and its editor

    An event of the component is, on the editor, an event of the edit
    buffer or nothing: the states of the editor in a run of the component
    are states of a run of the edit buffer. *)

Lemma appCommit_editor old new :
  editor (appCommit old new) = commit (editor old) (editor new).
Proof.
  unfold appCommit, saveEffect, debounceEffect.
  repeat (case_bool_decide || case_match); reflexivity.
Qed.

Lemma handleTranslate_editor sl tl text a :
  editor (handleTranslate sl tl text a).1 = editor a.
Proof. unfold handleTranslate. by destruct (falsy (trim text)). Qed.

Lemma resume_editor r t a : editor (resume r t a).2 = editor a.
Proof.
  unfold resume, catchBlock.
  repeat (case_bool_decide || case_match); reflexivity.
Qed.

Lemma deliver_editor id r ts a : editor (deliver id r ts a).2 = editor a.
Proof.
  revert a. induction ts as [|t ts IH]; intros a; simpl; [done|].
  case_bool_decide.
  - pose proof (resume_editor r t a). by destruct (resume r t a).
  - specialize (IH a). by destruct (deliver id r ts a).
Qed.

Lemma appStep_editor s s' :
  appStep s s' ->
  editor (app s') = editor (app s) \/
  editorStep (editor (app s)) (editor (app s')).
Proof.
  intros Hstep.
  destruct Hstep as [text s|e s Hu|e s Hr|s|s|s|id r s]; simpl;
    rewrite ?appCommit_editor.
  - right. apply step_type.
  - right. apply step_undo. unfold undo. by rewrite Hu.
  - right. apply step_redo. unfold redo. by rewrite Hr.
  - right. apply (step_type []).
  - right. unfold historyTimerFires.
    pose proof (step_quiet (editor (app s))) as Hq. unfold quiet in Hq.
    destruct (historyTimer (editor (app s))) as [c|]; simpl.
    + exact Hq.
    + by rewrite commit_same.
  - left. unfold typingTimeout.
    destruct (typingTimeoutRef (app s)) as [c|]; [|done].
    pose proof (handleTranslate_editor (c_sourceLang c) (c_targetLang c)
                  (c_text c) (setTypingTimeoutRef None (app s))) as He.
    by destruct (handleTranslate _ _ _ _).
  - left. unfold deliverTo.
    pose proof (deliver_editor id r (tasks s) (app s)) as He.
    by destruct (deliver id r (tasks s) (app s)).
Qed.

(** C1.  Once a generation newer than [G1] has been issued (the counter is
    above [G1]), then whatever happens next, a chunk of [G1]'s stream, an
    exception raised to [G1] or the result of [G1]'s structured call leaves
    the whole component as it is, and so the target text, the detected
    language, the confidence, the status and the error message: [G1]'s task
    finds its generation stale and returns. *)
Theorem stale_generation_is_silent (s s' : System) (G1 : Z) (r : Resumption) :
  G1 < activeStreamRef (app s) ->
  rtc appStep s s' ->
  guarded r = true ->
  app (deliverTo G1 r s') = app s' /\
  targetText (app (deliverTo G1 r s')) = targetText (app s') /\
  detectedLang (app (deliverTo G1 r s')) = detectedLang (app s') /\
  confidence (app (deliverTo G1 r s')) = confidence (app s') /\
  status (app (deliverTo G1 r s')) = status (app s') /\
  error (app (deliverTo G1 r s')) = error (app s').
Proof.
  intros HG Hsteps Hg.
  pose proof (appSteps_activeStreamRef _ _ Hsteps) as Hmono.
  assert (He : app (deliverTo G1 r s') = app s').
  { unfold deliverTo.
    pose proof (deliver_stale G1 r (tasks s') (app s')) as Hd.
    destruct (deliver G1 r (tasks s') (app s')). simpl in *.
    apply Hd; [lia|exact Hg]. }
  rewrite He. by repeat split.
Qed.

Lemma stale_generation_is_silent_witness :
  let s' := deliverTo 2 (Chunk (lit "Hola ")) twoRequests in
  let r := Chunk (lit "Hello") in
  app (deliverTo 1 r s') = app s' /\
  targetText (app (deliverTo 1 r s')) = targetText (app s') /\
  detectedLang (app (deliverTo 1 r s')) = detectedLang (app s') /\
  confidence (app (deliverTo 1 r s')) = confidence (app s') /\
  status (app (deliverTo 1 r s')) = status (app s') /\
  error (app (deliverTo 1 r s')) = error (app s').
Proof.
  intros s' r.
  apply (stale_generation_is_silent twoRequests s' 1 r).
  - vm_compute. reflexivity.
  - apply rtc_once. apply app_resume.
  - reflexivity.
Defined.

(** The end of the stream is not guarded: with a source language other than
    ['auto'], a stale task whose stream ends still sets the status. *)
Lemma stale_stream_end_sets_status t a :
  awaiting t = AwaitChunk -> t_sourceLang t ≠ lit "auto" ->
  status (resume StreamEnd t a).2 = SUCCESS.
Proof.
  intros Hw Hl. unfold resume. rewrite Hw.
  by rewrite bool_decide_eq_false_2 by exact Hl.
Qed.

(** C4, as stated, fails: a request is in flight, the user clears; the
    counter has not advanced, the request is still the current generation,
    and its next chunk is displayed in the cleared target text. *)
Lemma handleClear_keeps_generation_cex :
  let s := {| app := initialApp None; tasks := [] |} in
  let s := onApp (onEditor (setSourceText (lit "Hello"))) s in
  let s := typingTimeout s in
  let cleared := onApp handleClear s in
  ~ (activeStreamRef (app s) < activeStreamRef (app cleared)) /\
  (exists t, tasks cleared = [t] /\ awaiting t = AwaitChunk /\
             stale t (app cleared) = false) /\
  targetText (app cleared) = [] /\
  targetText (app (deliverTo 1 (Chunk (lit "Hola")) cleared)) = lit "Hola".
Proof.
  vm_compute. split; [congruence|]. split; [|done].
  eexists. by repeat split.
Qed.

(** C4, amended.  Clear empties the source text, the target text and the
    detected language, sets the confidence to 0, the error to null and the
    status to idle (not to error), before and after the effects of its
    commit; and it leaves the generation counter as it is, so that a task
    is stale after Clear exactly when it was before. *)
Theorem handleClear_resets (a : App) :
  let cleared := handleClear a in
  let committed := appCommit a cleared in
  (sourceText (editor cleared) = [] /\ targetText cleared = [] /\
   detectedLang cleared = [] /\ confidence cleared = zero /\
   error cleared = None /\ status cleared = IDLE /\
   activeStreamRef cleared = activeStreamRef a) /\
  (sourceText (editor committed) = [] /\ targetText committed = [] /\
   detectedLang committed = [] /\ confidence committed = zero /\
   error committed = None /\ status committed = IDLE /\
   activeStreamRef committed = activeStreamRef a) /\
  status cleared ≠ ERROR /\ status committed ≠ ERROR /\
  forall t, stale t committed = stale t a.
Proof.
  simpl.
  assert (Hc : sourceText (editor (appCommit a (handleClear a))) = [] /\
               targetText (appCommit a (handleClear a)) = [] /\
               detectedLang (appCommit a (handleClear a)) = [] /\
               confidence (appCommit a (handleClear a)) = zero /\
               error (appCommit a (handleClear a)) = None /\
               status (appCommit a (handleClear a)) = IDLE /\
               activeStreamRef (appCommit a (handleClear a))
                 = activeStreamRef a).
  { rewrite appCommit_activeStreamRef.
    unfold appCommit, saveEffect, debounceEffect.
    pose proof (commit_fields (editor a) (editor (handleClear a))) as (Ht & _).
    repeat (case_bool_decide || case_match); simpl;
      repeat split; try reflexivity; try exact Ht. }
  split; [by repeat split|]. split; [exact Hc|].
  destruct Hc as (_ & _ & _ & _ & _ & Hst & Hgen).
  split; [done|]. split; [by rewrite Hst|].
  intros t. unfold stale. by rewrite Hgen.
Qed.

(** C9.  A text that is not empty but trims to the empty string passes the
    length test of the debounce effect, which sets the typing timer and
    leaves the status alone.  [handleTranslate] on it empties the target
    text and the detected language, sets the confidence to 0 and returns:
    no generation is taken, no request is made, and the status and the
    error message stay what they were.  So, when the timer fires, the
    component keeps its status instead of becoming idle, and no task is
    started. *)
Theorem handleTranslate_blank (sl tl text : jsstring) (a : App) :
  text ≠ [] -> trim text = [] ->
  (activeTab a = TextTab -> isRecording a = false ->
   sourceText (editor a) = text ->
   typingTimeoutRef (debounceEffect a) =
     Some {| c_text := text; c_sourceLang := sourceLang a;
             c_targetLang := targetLang a |} /\
   status (debounceEffect a) = status a /\
   forall ts,
     let s' := typingTimeout {| app := debounceEffect a; tasks := ts |} in
     tasks s' = ts /\ status (app s') = status a /\
     error (app s') = error a /\
     activeStreamRef (app s') = activeStreamRef a /\
     calls (app s') = calls a /\
     targetText (app s') = [] /\ detectedLang (app s') = [] /\
     confidence (app s') = zero) /\
  let a' := (handleTranslate sl tl text a).1 in
  (handleTranslate sl tl text a).2 = None /\
  a' = setConfidence zero (setDetectedLang [] (setTargetText [] a)) /\
  targetText a' = [] /\ detectedLang a' = [] /\ confidence a' = zero /\
  activeStreamRef a' = activeStreamRef a /\
  status a' = status a /\ error a' = error a /\ calls a' = calls a.
Proof.
  intros Hne Htrim. split.
  - intros Htab Hrec Hsrc.
    assert (Hlen : (0 <? length text) = true).
    { destruct text as [|c text]; [done|].
      apply Z.ltb_lt. unfold length. simpl. lia. }
    assert (Heff : debounceEffect a =
                   setTypingTimeoutRef
                     (Some {| c_text := text; c_sourceLang := sourceLang a;
                              c_targetLang := targetLang a |}) a).
    { unfold debounceEffect. simpl. by rewrite Htab, Hrec, Hsrc, Hlen. }
    rewrite Heff. split; [done|]. split; [done|]. intros ts.
    unfold typingTimeout, handleTranslate. simpl. rewrite Htrim. simpl.
    rewrite app_nil_r. by repeat split.
  - unfold handleTranslate. rewrite Htrim. simpl. by repeat split.
Qed.

Lemma handleTranslate_blank_witness :
  let text := lit "  " in
  let a := onEditor (setSourceText text) (initialApp None) in
  (activeTab a = TextTab -> isRecording a = false ->
   sourceText (editor a) = text ->
   typingTimeoutRef (debounceEffect a) =
     Some {| c_text := text; c_sourceLang := sourceLang a;
             c_targetLang := targetLang a |} /\
   status (debounceEffect a) = status a /\
   forall ts,
     let s' := typingTimeout {| app := debounceEffect a; tasks := ts |} in
     tasks s' = ts /\ status (app s') = status a /\
     error (app s') = error a /\
     activeStreamRef (app s') = activeStreamRef a /\
     calls (app s') = calls a /\
     targetText (app s') = [] /\ detectedLang (app s') = [] /\
     confidence (app s') = zero) /\
  let a' := (handleTranslate (lit "auto") (lit "es") text a).1 in
  (handleTranslate (lit "auto") (lit "es") text a).2 = None /\
  a' = setConfidence zero (setDetectedLang [] (setTargetText [] a)) /\
  targetText a' = [] /\ detectedLang a' = [] /\ confidence a' = zero /\
  activeStreamRef a' = activeStreamRef a /\
  status a' = status a /\ error a' = error a /\ calls a' = calls a.
Proof.
  intros text a.
  apply (handleTranslate_blank (lit "auto") (lit "es") text a).
  - vm_compute. congruence.
  - vm_compute. reflexivity.
Defined.

(** ** Speech playback *)

(** C8.  [handleSpeak] does nothing for the empty text, and nothing while a
    playback is in progress.  A call that is accepted sets the flag and makes
    one synthesis request; a second call made while the first is in flight
    is dropped: the state is unchanged, so nothing is queued, and the two
    calls together make exactly one request.  An exception before the
    request, a failed request and a failed decode each clear the flag. *)
Theorem speak_single_flight (browser : Browser) (p : Player)
  (text text' : jsstring) :
  handleSpeak browser [] p = p /\
  (isSpeaking p = true -> handleSpeak browser text p = p) /\
  (isSpeaking p = false -> text ≠ [] ->
   (is_Some (audioContextRef p) \/
    exists ctx, newAudioContext browser (ofInt 24000) = inr ctx) ->
   let p1 := handleSpeak browser text p in
   isSpeaking p1 = true /\
   synthesisCalls p1 = synthesisCalls p ++ [text] /\
   handleSpeak browser text' p1 = p1 /\
   synthesisCalls (handleSpeak browser text' p1) = synthesisCalls p ++ [text]) /\
  (isSpeaking p = false -> text ≠ [] -> audioContextRef p = None ->
   forall err, newAudioContext browser (ofInt 24000) = inl err ->
   isSpeaking (handleSpeak browser text p) = false /\
   synthesisCalls (handleSpeak browser text p) = synthesisCalls p) /\
  (forall err, isSpeaking (resumeSpeak (SynthesisFailed err) p) = false) /\
  (forall audioData ctx err,
     audioContextRef p = Some ctx ->
     decodeGeminiPCM audioData ctx (ofInt 24000) = inl err ->
     isSpeaking (resumeSpeak (Synthesized audioData) p) = false) /\
  isSpeaking (resumeSpeak Ended p) = false.
Proof.
  split; [done|]. split.
  { intros Hs. unfold handleSpeak, handleSpeakFrom. rewrite Hs. by rewrite orb_true_r. }
  split.
  { intros Hs Hne Hctx.
    assert (Hp1 : isSpeaking (handleSpeak browser text p) = true /\
                  synthesisCalls (handleSpeak browser text p)
                    = synthesisCalls p ++ [text]).
    { unfold handleSpeak, handleSpeakFrom. rewrite Hs.
      destruct text as [|c text]; [done|]. cbn -[ofInt].
      destruct Hctx as [[ctx Hc]|[ctx Hc]].
      - by rewrite Hc.
      - destruct (audioContextRef p); [done|]. by rewrite Hc. }
    destruct Hp1 as [Hflag Hcalls]. simpl.
    assert (Hdrop : handleSpeak browser text' (handleSpeak browser text p)
                    = handleSpeak browser text p).
    { unfold handleSpeak at 1. unfold handleSpeakFrom. rewrite Hflag. by rewrite orb_true_r. }
    rewrite Hdrop. by repeat split. }
  split.
  { intros Hs Hne Hnone err Herr. unfold handleSpeak, handleSpeakFrom. rewrite Hs.
    destruct text as [|c text]; [done|]. cbn -[ofInt].
    by rewrite Hnone, Herr. }
  split; [done|]. split; [|done].
  intros audioData ctx err Hctx Hdec. unfold resumeSpeak.
  rewrite Hctx. cbn -[ofInt decodeGeminiPCM]. by rewrite Hdec.
Qed.

Lemma speak_single_flight_witness :
  let p := initialPlayer in
  let p1 := handleSpeak allocatingBrowser (lit "hi") p in
  isSpeaking p1 = true /\
  synthesisCalls p1 = synthesisCalls p ++ [lit "hi"] /\
  handleSpeak allocatingBrowser (lit "hi") p1 = p1 /\
  synthesisCalls (handleSpeak allocatingBrowser (lit "hi") p1)
    = synthesisCalls p ++ [lit "hi"].
Proof.
  intros p.
  refine (proj1 (proj2 (proj2
            (speak_single_flight allocatingBrowser p (lit "hi") (lit "hi"))))
            _ _ _).
  - reflexivity.
  - vm_compute. congruence.
  - right. exists allocatingContext. reflexivity.
Defined.

(** The guard reads the flag of the render that built the handler: two calls
    of the handler of one render would both pass it.  A click is handled
    after the commit of the previous one, by the handler of that commit. *)
Lemma handleSpeakFrom_same_render (browser : Browser) (p : Player)
  (text : jsstring) (ctx : AudioContext) :
  text ≠ [] -> audioContextRef p = Some ctx ->
  synthesisCalls
    (handleSpeakFrom false browser text (handleSpeakFrom false browser text p))
  = synthesisCalls p ++ [text; text].
Proof.
  intros Hne Hctx. unfold handleSpeakFrom.
  destruct text as [|c text]; [done|]. cbn -[ofInt].
  rewrite Hctx. cbn. rewrite Hctx. cbn. by rewrite <- app_assoc.
Qed.

(** ** Binary floating point: the operations of the codec are exact *)

Lemma bounded32 m e :
  bounded 24 128 m e = true ->
  1 <= Zpos (digits2_pos m) <= 24 /\ -149 <= e <= 104.
Proof.
  unfold bounded, canonical_mantissa, fexp, emin.
  intros [Hc He]%andb_prop. apply Z.eqb_eq in Hc. apply Z.leb_le in He. lia.
Qed.

Lemma digits2_iter_xO m k :
  digits2_pos (Pos.iter xO m k) = (digits2_pos m + k)%positive.
Proof.
  induction k as [|k IH] using Pos.peano_ind.
  - simpl. lia.
  - rewrite Pos.iter_succ. simpl. rewrite IH. lia.
Qed.

Lemma Zpos_iter_xO m k : Zpos (Pos.iter xO m k) = Zpos m * 2 ^ Zpos k.
Proof.
  induction k as [|k IH] using Pos.peano_ind.
  - simpl. lia.
  - rewrite Pos.iter_succ, Pos2Z.inj_xO, IH, Pos2Z.inj_succ.
    rewrite Z.pow_succ_r by lia. lia.
Qed.

Lemma digits2_size p : digits2_pos p = Pos.size p.
Proof. induction p as [p IH|p IH|]; simpl; by rewrite ?IH. Qed.

(** A positive integer up to [2^15] has at most 16 binary digits. *)
Lemma digits2_int16 p : Zpos p <= 32768 -> Zpos (digits2_pos p) <= 16.
Proof.
  intros Hp. rewrite digits2_size. pose proof (Pos.size_le p) as Hs.
  assert (H2 : 2 ^ Zpos (Pos.size p) <= 2 ^ 16).
  { rewrite <- Pos2Z.inj_pow. change (2 ^ 16) with 65536. lia. }
  apply Z.pow_le_mono_r_iff in H2; lia.
Qed.

(** A mantissa of 53 digits within the exponent range is already rounded. *)
Lemma binary_round_aux_canonical s m e :
  Zpos (digits2_pos m) = 53 -> -1074 <= e <= 971 ->
  binary_round_aux 53 1024 s (Zpos m) e loc_Exact = S754_finite s m e.
Proof.
  intros Hd He. unfold binary_round_aux, shr_fexp, fexp, emin.
  cbn [Zdigits2 shr_record_of_loc]. rewrite Hd.
  replace (Z.max (53 + e - 53) (3 - 1024 - 53) - e) with 0 by lia.
  cbn [shr shr_m loc_of_shr_record round_nearest_even Zdigits2].
  rewrite Hd.
  replace (Z.max (53 + e - 53) (3 - 1024 - 53) - e) with 0 by lia.
  cbn [shr shr_m].
  replace (e <=? 1024 - 53) with true; [done|].
  symmetry. apply Z.leb_le. lia.
Qed.

(** Rounding to binary64 a value with fewer than 53 digits only
    normalises it. *)
Lemma binary_round_exact s m e :
  Zpos (digits2_pos m) < 53 ->
  -1074 <= e + Zpos (digits2_pos m) - 53 <= 971 ->
  let k := Z.to_pos (53 - Zpos (digits2_pos m)) in
  binary_round 53 1024 s m e = S754_finite s (Pos.iter xO m k) (e - Zpos k).
Proof.
  intros Hd He k. unfold binary_round, shl_align, fexp, emin.
  assert (Hk : Zpos k = 53 - Zpos (digits2_pos m)) by (unfold k; lia).
  replace (Z.max (Zpos (digits2_pos m) + e - 53) (3 - 1024 - 53) - e)
    with (Zneg k) by lia.
  replace (Z.max (Zpos (digits2_pos m) + e - 53) (3 - 1024 - 53))
    with (e - Zpos k) by lia.
  apply binary_round_aux_canonical; [|lia].
  rewrite digits2_iter_xO. lia.
Qed.

Lemma ofInt_32768 : ofInt 32768 = S754_finite false 4503599627370496 (-37).
Proof. reflexivity. Qed.

(** Multiplying by 32768 adds 15 to the exponent. *)
Lemma mul_32768 s m e :
  Zpos (digits2_pos m) = 53 -> -1074 <= e <= 900 ->
  mul (S754_finite s m e) (ofInt 32768) = S754_finite s m (e + 15).
Proof.
  intros Hd He. rewrite ofInt_32768. unfold mul, SFmul.
  rewrite xorb_false_r. rewrite Pos.mul_comm.
  change (4503599627370496 * m)%positive with (Pos.iter xO m 52).
  unfold binary_round_aux, shr_fexp, fexp, emin.
  cbn [Zdigits2 shr_record_of_loc].
  rewrite digits2_iter_xO.
  replace (Z.max (Z.pos (digits2_pos m + 52) + (e + -37) - 53) (3 - 1024 - 53)
           - (e + -37)) with 52 by lia.
  assert (Hshr :
    SpecFloat.iter_pos shr_1 52
      {| shr_m := Zpos (Pos.iter xO m 52); shr_r := false; shr_s := false |}
    = {| shr_m := Zpos m; shr_r := false; shr_s := false |}) by reflexivity.
  cbn [shr]. rewrite Hshr.
  cbn [shr_m loc_of_shr_record round_nearest_even Zdigits2].
  rewrite Hd.
  replace (Z.max (53 + (e + -37 + 52) - 53) (3 - 1024 - 53) - (e + -37 + 52))
    with 0 by lia.
  cbn [shr shr_m].
  replace (e + -37 + 52 <=? 1024 - 53) with true
    by (symmetry; apply Z.leb_le; lia).
  f_equal. lia.
Qed.

(** Dividing by 32768 subtracts 15 from the exponent. *)
Lemma div_32768 s m e :
  Zpos (digits2_pos m) = 53 -> -1000 <= e <= 971 ->
  div (S754_finite s m e) (ofInt 32768) = S754_finite s m (e - 15).
Proof.
  intros Hd He. rewrite ofInt_32768. unfold div, SFdiv, SFdiv_core_binary.
  rewrite xorb_false_r. cbn [Zdigits2]. rewrite Hd.
  change (Zpos (digits2_pos 4503599627370496)) with 53.
  unfold fexp, emin.
  replace (Z.min (Z.max (53 + e - (53 + -37) - 53) (3 - 1024 - 53)) (e - -37))
    with (e - 16) by lia.
  replace (e - -37 - (e - 16)) with 53 by lia.
  change (Z.shiftl (Zpos m) 53) with (Zpos (Pos.iter xO m 53)).
  assert (Hdiv : Z.div_eucl (Zpos (Pos.iter xO m 53)) (Zpos 4503599627370496)
                 = (Zpos (xO m), 0)).
  { assert (Hx : Zpos (Pos.iter xO m 53)
                 = Zpos (xO m) * Zpos 4503599627370496).
    { rewrite Zpos_iter_xO, Pos2Z.inj_xO. change (2 ^ 53) with 9007199254740992.
      lia. }
    rewrite Hx.
    pose proof (Z.div_mul (Zpos (xO m)) (Zpos 4503599627370496)) as Hq.
    pose proof (Z.mod_mul (Zpos (xO m)) (Zpos 4503599627370496)) as Hr.
    unfold Z.div, Z.modulo in Hq, Hr.
    destruct (Z.div_eucl _ _) as [q r]. simpl in Hq, Hr.
    rewrite Hq, Hr by lia. reflexivity. }
  rewrite Hdiv.
  change (new_location (Zpos 4503599627370496) 0) with loc_Exact.
  unfold binary_round_aux, shr_fexp, fexp, emin.
  cbn [Zdigits2 shr_record_of_loc digits2_pos]. rewrite Pos2Z.inj_succ, Hd.
  replace (Z.max (Z.succ 53 + (e - 16) - 53) (3 - 1024 - 53) - (e - 16))
    with 1 by lia.
  cbn [shr SpecFloat.iter_pos shr_1 orb shr_m loc_of_shr_record
       round_nearest_even Zdigits2].
  rewrite Hd.
  replace (Z.max (53 + (e - 16 + 1) - 53) (3 - 1024 - 53) - (e - 16 + 1))
    with 0 by lia.
  cbn [shr shr_m].
  replace (e - 16 + 1 <=? 1024 - 53) with true
    by (symmetry; apply Z.leb_le; lia).
  f_equal. lia.
Qed.

(** Storing in binary32 a binary64 number whose low 29 bits are zero drops
    those bits. *)
Lemma toFloat32_exact s m e :
  Zpos (digits2_pos m) = 24 -> -149 <= e + 29 <= 104 ->
  toFloat32 (S754_finite s (Pos.iter xO m 29) e) = S754_finite s m (e + 29).
Proof.
  intros Hd He. unfold toFloat32, binary_round, shl_align, fexp, emin.
  rewrite digits2_iter_xO, Pos2Z.inj_add, Hd.
  replace (Z.max (24 + 29 + e - 24) (3 - 128 - 24) - e) with 29 by lia.
  unfold binary_round_aux, shr_fexp, fexp, emin.
  cbn [Zdigits2 shr_record_of_loc].
  rewrite digits2_iter_xO, Pos2Z.inj_add, Hd.
  replace (Z.max (24 + 29 + e - 24) (3 - 128 - 24) - e) with 29 by lia.
  assert (Hshr :
    SpecFloat.iter_pos shr_1 29
      {| shr_m := Zpos (Pos.iter xO m 29); shr_r := false; shr_s := false |}
    = {| shr_m := Zpos m; shr_r := false; shr_s := false |}) by reflexivity.
  cbn [shr]. rewrite Hshr.
  cbn [shr_m loc_of_shr_record round_nearest_even Zdigits2].
  rewrite Hd.
  replace (Z.max (24 + (e + 29) - 24) (3 - 128 - 24) - (e + 29)) with 0 by lia.
  cbn [shr shr_m].
  replace (e + 29 <=? 128 - 24) with true
    by (symmetry; apply Z.leb_le; lia).
  reflexivity.
Qed.

(** ** The samples *)

(** The integer [createAudioBlob] stores for a finite sample: the scaled
    value truncated toward zero, wrapped to 16 bits. *)
Lemma encodeSample_finite s m e :
  bounded 24 128 m e = true ->
  encodeSample (S754_finite s m e)
  = wrap16 (cond_Zopp s (Z.shiftl (Zpos m) (e + 15))).
Proof.
  intros Hb. pose proof (bounded32 m e Hb) as [Hd He].
  unfold encodeSample, toInt16, toNumber. f_equal.
  rewrite binary_round_exact by lia.
  set (k := Z.to_pos (53 - Zpos (digits2_pos m))).
  assert (Hk : Zpos k = 53 - Zpos (digits2_pos m)) by (unfold k; lia).
  rewrite mul_32768; [| rewrite digits2_iter_xO; lia | lia].
  unfold truncate. f_equal.
  rewrite Zpos_iter_xO, <- Z.shiftl_mul_pow2 by lia.
  rewrite Z.shiftl_shiftl by lia. f_equal. lia.
Qed.

(** The same integer, from the value of the sample. *)
Lemma Qtruncate_scaled s m e q :
  valueOf (S754_finite s m e) = Some q ->
  Qtruncate (q * 32768) = cond_Zopp s (Z.shiftl (Zpos m) (e + 15)).
Proof.
  intros [= <-]. unfold Qtruncate.
  replace (Z.shiftl (Zpos m) (e + 15))
    with (Z.shiftl (Zpos m * 32768) e)
    by (change 32768 with (2 ^ 15); rewrite <- Z.shiftl_mul_pow2 by lia;
        rewrite Z.shiftl_shiftl by lia; f_equal; lia).
  destruct (Z.leb_spec 0 e) as [He|He].
  - cbn [Qmult Qnum Qden inject_Z Pos.mul]. rewrite Z.quot_1_r.
    rewrite Z.shiftl_mul_pow2 by lia. destruct s; cbn [cond_Zopp]; lia.
  - cbn [Qmult Qnum Qden inject_Z]. rewrite Pos.mul_1_r.
    assert (Hpow : 0 < 2 ^ (- e)) by (apply Z.pow_pos_nonneg; lia).
    rewrite Z2Pos.id by exact Hpow.
    rewrite Z.shiftl_div_pow2 by lia.
    destruct s; cbn [cond_Zopp].
    + rewrite Z.mul_opp_l, Z.quot_opp_l by lia. f_equal.
      apply Z.quot_div_nonneg; lia.
    + apply Z.quot_div_nonneg; lia.
Qed.

(** The sample [decodeGeminiPCM] stores for a 16-bit integer. *)
Lemma decodeSample_finite s p :
  Zpos p <= 32768 ->
  let d := Zpos (digits2_pos p) in
  decodeSample (cond_Zopp s (Zpos p))
  = S754_finite s (Pos.iter xO p (Z.to_pos (24 - d))) (d - 39).
Proof.
  intros Hp d. pose proof (digits2_int16 p Hp) as Hd. fold d in Hd.
  assert (Hd1 : 1 <= d) by (unfold d; lia).
  unfold decodeSample.
  assert (Hof : ofInt (cond_Zopp s (Zpos p)) = binary_round 53 1024 s p 0)
    by (by destruct s).
  rewrite Hof, binary_round_exact by (fold d; lia). fold d.
  set (k := Z.to_pos (53 - d)).
  assert (Hk : Zpos k = 53 - d) by (unfold k; lia).
  rewrite div_32768; [| rewrite digits2_iter_xO; fold d; lia | lia].
  set (k' := Z.to_pos (24 - d)).
  assert (Hk' : Zpos k' = 24 - d) by (unfold k'; lia).
  replace k with (29 + k')%positive by lia.
  rewrite Pos.iter_add.
  rewrite toFloat32_exact; [| rewrite digits2_iter_xO; fold d; lia | lia].
  f_equal. lia.
Qed.

Lemma decodeSample_value k :
  -32768 <= k <= 32767 ->
  exists q, valueOf (decodeSample k) = Some q /\ (q == k # 32768)%Q.
Proof.
  intros Hk.
  assert (Hcase : k = 0 \/ exists s p, k = cond_Zopp s (Zpos p)
                                      /\ Zpos p <= 32768).
  { destruct k as [|p|p]; [by left| |]; right.
    - exists false, p. simpl. lia.
    - exists true, p. simpl. lia. }
  destruct Hcase as [->|(s & p & -> & Hp)].
  - exists 0%Q. split; reflexivity.
  - rewrite decodeSample_finite by exact Hp.
    pose proof (digits2_int16 p Hp) as Hd.
    set (d := Zpos (digits2_pos p)) in *.
    assert (Hd1 : 1 <= d) by (unfold d; lia).
    eexists. split; [reflexivity|].
    replace (0 <=? d - 39) with false by (symmetry; apply Z.leb_gt; lia).
    unfold Qeq. cbn [Qnum Qden].
    assert (Hpow : 0 < 2 ^ (- (d - 39))) by (apply Z.pow_pos_nonneg; lia).
    rewrite Z2Pos.id by exact Hpow.
    assert (Hm : Zpos (Pos.iter xO p (Z.to_pos (24 - d)))
                 = Zpos p * 2 ^ (24 - d)).
    { rewrite Zpos_iter_xO. f_equal. f_equal. lia. }
    replace (- (d - 39)) with ((24 - d) + 15) by lia.
    rewrite Z.pow_add_r by lia. change (2 ^ 15) with 32768.
    destruct s; cbn [cond_Zopp].
    + rewrite Hm. lia.
    + rewrite Hm. lia.
Qed.

(** Truncation is toward zero and loses less than one. *)
Lemma Qtruncate_bound n d :
  let t := Z.quot n (Zpos d) in
  (0 <= n -> 0 <= n - t * Zpos d < Zpos d /\ 0 <= t) /\
  (n <= 0 -> 0 <= t * Zpos d - n < Zpos d /\ t <= 0).
Proof.
  intros t. subst t. split; intros Hn.
  - pose proof (Z.quot_rem' n (Zpos d)) as Hqr.
    pose proof (Z.rem_bound_pos n (Zpos d) Hn ltac:(lia)).
    pose proof (Z.quot_pos n (Zpos d) Hn ltac:(lia)). nia.
  - assert (Hq : Z.quot n (Zpos d) = - Z.quot (- n) (Zpos d)).
    { rewrite <- (Z.quot_opp_l (- n)) by lia. by rewrite Z.opp_involutive. }
    rewrite Hq.
    pose proof (Z.quot_rem' (- n) (Zpos d)) as Hqr.
    pose proof (Z.rem_bound_pos (- n) (Zpos d) ltac:(lia) ltac:(lia)).
    pose proof (Z.quot_pos (- n) (Zpos d) ltac:(lia) ltac:(lia)). nia.
Qed.

(** ** Typed arrays and bytes *)

Lemma fillFrom_take {A B} (f : A -> B) (src : list A) :
  forall (i : nat) (dst : list B),
    (i + List.length src)%nat = List.length dst ->
    fillFrom f i src dst = take i dst ++ List.map f src.
Proof.
  induction src as [|x src IH]; intros i dst Hlen; simpl in *.
  - rewrite take_ge by lia. by rewrite app_nil_r.
  - rewrite IH by (rewrite length_insert; lia).
    rewrite (take_S_r _ _ (f x)) by (apply list_lookup_insert_eq; lia).
    rewrite take_insert_ge by lia. by rewrite <- app_assoc.
Qed.

(** A loop over a destination of the same length is a map. *)
Lemma fillFrom_map {A B} (f : A -> B) (src : list A) (dst : list B) :
  List.length dst = List.length src -> fillFrom f 0 src dst = List.map f src.
Proof. intros Hlen. by rewrite fillFrom_take by lia. Qed.

Lemma pcm16_map data : pcm16 data = List.map encodeSample data.
Proof. unfold pcm16. apply fillFrom_map. by rewrite length_replicate. Qed.

Lemma byteToZ_byteOfZ z : byteToZ (byteOfZ z) = z mod 256.
Proof.
  unfold byteToZ, byteOfZ.
  pose proof (Z.mod_pos_bound z 256 ltac:(lia)) as Hz.
  destruct (Byte.of_N (Z.to_N (z mod 256))) as [b|] eqn:Hb.
  - apply Byte.to_of_N in Hb. rewrite Hb. lia.
  - apply Byte.of_N_None_iff in Hb. lia.
Qed.

(** The two bytes of a 16-bit integer, low byte first. *)
Lemma little_endian k :
  byteToZ (byteOfZ k) + 256 * byteToZ (byteOfZ (k / 256)) = k mod 65536.
Proof.
  rewrite !byteToZ_byteOfZ. change 65536 with (256 * 256).
  rewrite Z.rem_mul_r by lia. reflexivity.
Qed.

Lemma wrap16_range z : -32768 <= wrap16 z <= 32767.
Proof.
  unfold wrap16. pose proof (Z.mod_pos_bound z 65536 ltac:(lia)).
  destruct (Z.leb_spec 32768 (z mod 65536)); lia.
Qed.

Lemma wrap16_id z : -32768 <= z <= 32767 -> wrap16 z = z.
Proof.
  intros Hz. unfold wrap16.
  destruct (Z_le_gt_dec 0 z) as [Hp|Hn].
  - rewrite Z.mod_small by lia. destruct (Z.leb_spec 32768 z); lia.
  - replace (z mod 65536) with (z + 65536).
    + destruct (Z.leb_spec 32768 (z + 65536)); lia.
    + symmetry. replace z with (z + 65536 + (-1) * 65536) at 1 by lia.
      rewrite Z.mod_add by lia. apply Z.mod_small. lia.
Qed.

Lemma wrap16_of_mod z : wrap16 (z mod 65536) = wrap16 z.
Proof. unfold wrap16. by rewrite Z.mod_mod by lia. Qed.

Lemma length_uint8View ks :
  List.length (uint8View ks) = (2 * List.length ks)%nat.
Proof. induction ks as [|k ks IH]; simpl; lia. Qed.

Lemma uint8View_lookup ks : forall (i : nat) k,
  ks !! i = Some k ->
  uint8View ks !! (2 * i)%nat = Some (byteOfZ k) /\
  uint8View ks !! (2 * i + 1)%nat = Some (byteOfZ (k / 256)).
Proof.
  induction ks as [|k0 ks IH]; intros i k Hk; [done|].
  destruct i as [|i].
  - injection Hk as ->. by split.
  - simpl in Hk. destruct (IH i k Hk) as [H0 H1].
    replace (2 * S i)%nat with (S (S (2 * i))) by lia.
    replace (S (S (2 * i)) + 1)%nat with (S (S (2 * i + 1))) by lia.
    by split.
Qed.

Lemma int16View_uint8View ks :
  int16View (uint8View ks) = List.map wrap16 ks.
Proof.
  induction ks as [|k ks IH]; [done|].
  change (uint8View (k :: ks))
    with (byteOfZ k :: byteOfZ (k / 256) :: uint8View ks).
  cbn [int16View List.map]. rewrite IH. f_equal.
  rewrite little_endian. apply wrap16_of_mod.
Qed.

Lemma length_int16View buffer :
  length (int16View buffer) = length buffer / 2.
Proof.
  unfold length.
  assert (H : forall n (b : list byte), (List.length b < n)%nat ->
            Z.of_nat (List.length (int16View b))
            = Z.of_nat (List.length b) / 2).
  { induction n as [|n IH]; intros b Hb; [lia|].
    destruct b as [|lo [|hi rest]]; [done|done|].
    cbn [int16View List.length]. rewrite !Nat2Z.inj_succ.
    rewrite IH by (simpl in Hb; lia).
    replace (Z.succ (Z.succ (Z.of_nat (List.length rest))))
      with (Z.of_nat (List.length rest) + 1 * 2) by lia.
    rewrite Z.div_add by lia. lia. }
  apply (H (S (List.length buffer))). lia.
Qed.

Lemma int16View_lookup buffer : forall (i : nat) lo hi,
  buffer !! (2 * i)%nat = Some lo ->
  buffer !! (2 * i + 1)%nat = Some hi ->
  int16View buffer !! i = Some (wrap16 (byteToZ lo + 256 * byteToZ hi)).
Proof.
  assert (H : forall (i : nat) (b : list byte) lo hi,
            b !! (2 * i)%nat = Some lo -> b !! (2 * i + 1)%nat = Some hi ->
            int16View b !! i
            = Some (wrap16 (byteToZ lo + 256 * byteToZ hi))).
  { induction i as [|i IH]; intros b lo hi Hlo Hhi.
    - destruct b as [|b0 [|b1 rest]]; [done|done|].
      simpl in Hlo, Hhi. by injection Hlo as ->; injection Hhi as ->.
    - destruct b as [|b0 [|b1 rest]]; [done| |].
      + replace (2 * S i)%nat with (S (S (2 * i))) in Hlo by lia. done.
      + replace (2 * S i)%nat with (S (S (2 * i))) in Hlo by lia.
        replace (2 * S i + 1)%nat with (S (S (2 * i + 1))) in Hhi by lia.
        simpl in Hlo, Hhi. cbn [int16View]. simpl. by apply IH. }
  intros i. apply H.
Qed.

(** ** The codec *)

Lemma encodeSample_quantized x :
  valid_binary 24 128 x = true -> encodeSample x = quantized x.
Proof.
  intros Hv. unfold quantized. destruct x as [s|s| |s m e].
  - by destruct s.
  - done.
  - done.
  - rewrite encodeSample_finite by exact Hv.
    cbv zeta. destruct (valueOf (S754_finite s m e)) as [q|] eqn:Hq; [|done].
    by rewrite (Qtruncate_scaled s m e q Hq).
Qed.

(** C5, amended.  Each sample of a [Float32Array] is stored as its value
    times 32768 truncated toward zero (not rounded) and wrapped modulo
    [2^16] to a signed 16-bit integer, without clamping, low byte first;
    a sample that is not a number or is infinite is stored as 0. *)
Theorem floatToPCM16_truncates (data : list float32) (i : nat) (x : float32) :
  data !! i = Some x ->
  valid_binary 24 128 x = true ->
  let k := quantized x in
  List.length (floatToPCM16 data) = (2 * List.length data)%nat /\
  -32768 <= k <= 32767 /\
  pcm16 data !! i = Some k /\
  exists lo hi,
    floatToPCM16 data !! (2 * i)%nat = Some lo /\
    floatToPCM16 data !! (2 * i + 1)%nat = Some hi /\
    byteToZ lo + 256 * byteToZ hi = k mod 65536.
Proof.
  intros Hi Hv k.
  assert (Hk : pcm16 data !! i = Some k).
  { rewrite pcm16_map. rewrite list_lookup_fmap, Hi. simpl.
    by rewrite encodeSample_quantized. }
  split.
  { unfold floatToPCM16. rewrite length_uint8View, pcm16_map.
    by rewrite length_map. }
  split.
  { unfold k, quantized. destruct (valueOf x); [apply wrap16_range|lia]. }
  split; [exact Hk|].
  destruct (uint8View_lookup (pcm16 data) i k Hk) as [H0 H1].
  exists (byteOfZ k), (byteOfZ (k / 256)).
  split; [exact H0|]. split; [exact H1|]. apply little_endian.
Qed.

Lemma floatToPCM16_truncates_witness :
  let data := [fullScale; onePointFive] in
  let k := quantized onePointFive in
  List.length (floatToPCM16 data) = (2 * List.length data)%nat /\
  -32768 <= k <= 32767 /\
  pcm16 data !! 1%nat = Some k /\
  exists lo hi,
    floatToPCM16 data !! (2 * 1)%nat = Some lo /\
    floatToPCM16 data !! (2 * 1 + 1)%nat = Some hi /\
    byteToZ lo + 256 * byteToZ hi = k mod 65536.
Proof.
  intros data.
  apply (floatToPCM16_truncates data 1 onePointFive); reflexivity.
Defined.

(** Out of range there is no clamping: 1.5 is stored as -16384. *)
Example floatToPCM16_wraps : quantized onePointFive = -16384.
Proof. reflexivity. Qed.

(** C5, as stated, fails: three quarters of a quantization step is stored as
    0, and rounds to 1. *)
Lemma floatToPCM16_rounds_cex :
  valid_binary 24 128 threeQuarterStep = true /\
  exists q,
    valueOf threeQuarterStep = Some q /\ (q * 32768 == 3 # 4)%Q /\
    Qround (q * 32768) = 1 /\
    pcm16 [threeQuarterStep] = [0] /\
    floatToPCM16 [threeQuarterStep] = [Byte.x00; Byte.x00] /\
    pcm16 [threeQuarterStep] <> [wrap16 (Qround (q * 32768))].
Proof.
  split; [reflexivity|]. eexists. split; [reflexivity|].
  repeat split; vm_compute; congruence.
Qed.

Lemma decodeGeminiPCM_odd buffer ctx rate :
  length buffer mod 2 <> 0 -> decodeGeminiPCM buffer ctx rate = inl RangeError.
Proof.
  intros Hodd. unfold decodeGeminiPCM, newInt16Array.
  destruct (Z.eqb_spec (length buffer mod 2) 0); [done|reflexivity].
Qed.

Lemma decodeGeminiPCM_even buffer ctx rate audioBuffer channelData :
  length buffer mod 2 = 0 ->
  createBuffer ctx 1 (length buffer / 2) rate = inr audioBuffer ->
  channels audioBuffer = [channelData] ->
  length channelData = length buffer / 2 ->
  decodeGeminiPCM buffer ctx rate
  = inr {| sampleRate := sampleRate audioBuffer;
           channels := [List.map decodeSample (int16View buffer)] |}.
Proof.
  intros Heven Hctx Hch Hlen. unfold decodeGeminiPCM, newInt16Array.
  rewrite Heven. cbn [Z.eqb andThen].
  rewrite length_int16View, Hctx. cbn [andThen].
  unfold getChannelData0, setChannelData0. rewrite Hch. cbn [andThen].
  rewrite fillFrom_map.
  - reflexivity.
  - pose proof (length_int16View buffer) as Hv. unfold length in *. lia.
Qed.

(** C6.  A buffer of odd length is rejected with the [RangeError] of the
    [Int16Array] constructor (the specification's [MalformedAudioError]),
    whatever the audio context.  For a buffer of even length, when the
    context allocates the single-channel buffer it is asked for, the result
    is that buffer with, as sample [i], the little-endian signed 16-bit
    integer of bytes [2i] and [2i+1] divided by 32768.0; the division is
    exact. *)
Theorem decodeGeminiPCM_spec (buffer : list byte) (ctx : AudioContext)
  (rate : number) :
  (length buffer mod 2 <> 0 -> decodeGeminiPCM buffer ctx rate = inl RangeError)
  /\
  (length buffer mod 2 = 0 ->
   forall audioBuffer channelData,
     createBuffer ctx 1 (length buffer / 2) rate = inr audioBuffer ->
     channels audioBuffer = [channelData] ->
     length channelData = length buffer / 2 ->
     exists samples,
       decodeGeminiPCM buffer ctx rate
       = inr {| sampleRate := sampleRate audioBuffer;
                channels := [samples] |} /\
       length samples = length buffer / 2 /\
       forall (i : nat) lo hi,
         buffer !! (2 * i)%nat = Some lo ->
         buffer !! (2 * i + 1)%nat = Some hi ->
         let k := wrap16 (byteToZ lo + 256 * byteToZ hi) in
         samples !! i = Some (toFloat32 (div (ofInt k) (ofInt 32768))) /\
         exists q,
           valueOf (toFloat32 (div (ofInt k) (ofInt 32768))) = Some q /\
           (q == k # 32768)%Q).
Proof.
  split.
  - apply decodeGeminiPCM_odd.
  - intros Heven audioBuffer channelData Hctx Hch Hlen.
    exists (List.map decodeSample (int16View buffer)). split; [|split].
    + by apply (decodeGeminiPCM_even buffer ctx rate audioBuffer channelData).
    + unfold length at 1. rewrite length_map. apply length_int16View.
    + intros i lo hi Hlo Hhi k. split.
      * rewrite list_lookup_fmap.
        by rewrite (int16View_lookup buffer i lo hi Hlo Hhi).
      * apply decodeSample_value. pose proof (wrap16_range
          (byteToZ lo + 256 * byteToZ hi)). unfold k. lia.
Qed.

Lemma decodeGeminiPCM_spec_witness :
  let buffer := [Byte.x00; Byte.xc0] in
  exists samples,
    decodeGeminiPCM buffer allocatingContext (ofInt 24000)
    = inr {| sampleRate := ofInt 24000; channels := [samples] |} /\
    length samples = length buffer / 2 /\
    forall (i : nat) lo hi,
      buffer !! (2 * i)%nat = Some lo ->
      buffer !! (2 * i + 1)%nat = Some hi ->
      let k := wrap16 (byteToZ lo + 256 * byteToZ hi) in
      samples !! i = Some (toFloat32 (div (ofInt k) (ofInt 32768))) /\
      exists q,
        valueOf (toFloat32 (div (ofInt k) (ofInt 32768))) = Some q /\
        (q == k # 32768)%Q.
Proof.
  intros buffer.
  refine (proj2 (decodeGeminiPCM_spec buffer allocatingContext (ofInt 24000))
            _ {| sampleRate := ofInt 24000; channels := [[zero]] |} [zero]
            _ _ _); reflexivity.
Defined.

(** A sample in [-1, 1) is quantized without wrapping, and comes back
    within less than a quantization step. *)
Lemma sample_round_trip x q :
  valid_binary 24 128 x = true ->
  valueOf x = Some q -> (-1 <= q)%Q -> (q < 1)%Q ->
  exists q', valueOf (decodeSample (encodeSample x)) = Some q' /\
             (Qabs (q' - q) < 1 # 32768)%Q.
Proof.
  intros Hv Hq Hlo Hhi. rewrite encodeSample_quantized by exact Hv.
  unfold quantized. rewrite Hq. unfold Qtruncate.
  destruct q as [n d]. cbn [Qmult Qnum Qden inject_Z]. rewrite Pos.mul_1_r.
  unfold Qle in Hlo. unfold Qlt in Hhi. cbn [Qnum Qden] in Hlo, Hhi.
  pose proof (Qtruncate_bound (n * 32768) d) as [Hpos Hneg].
  set (t := Z.quot (n * 32768) (Zpos d)) in *. cbv zeta in Hpos, Hneg.
  assert (Ht : -32768 <= t <= 32767 /\ - Zpos d < t * Zpos d - n * 32768 < Zpos d).
  { destruct (Z_le_gt_dec 0 n) as [Hn|Hn].
    - destruct Hpos as [Hb Hs]; [lia|]. split; [|lia]. nia.
    - destruct Hneg as [Hb Hs]; [lia|]. split; [|lia]. nia. }
  destruct Ht as [Hrange Hclose].
  rewrite wrap16_id by exact Hrange.
  destruct (decodeSample_value t Hrange) as (q' & Hq' & He).
  exists q'. split; [exact Hq'|].
  apply Qabs_Qlt_condition. rewrite He.
  unfold Qlt, Qminus, Qplus, Qopp. cbn [Qnum Qden]. split; nia.
Qed.

(** C7, amended.  For samples in [-1, 1), the samples decoded from the bytes
    of the encoder differ from the originals by less than one quantization
    step, componentwise. *)
Theorem pcm_round_trip (data : list float32) (ctx : AudioContext)
  (rate : number) (audioBuffer : AudioBuffer) (channelData : list float32) :
  Forall (fun x => valid_binary 24 128 x = true /\
                   exists q, valueOf x = Some q /\ (-1 <= q)%Q /\ (q < 1)%Q)
         data ->
  createBuffer ctx 1 (length data) rate = inr audioBuffer ->
  channels audioBuffer = [channelData] ->
  length channelData = length data ->
  exists samples,
    decodeGeminiPCM (floatToPCM16 data) ctx rate
    = inr {| sampleRate := sampleRate audioBuffer; channels := [samples] |} /\
    Forall2 (fun x y => exists qx qy,
               valueOf x = Some qx /\ valueOf y = Some qy /\
               (Qabs (qy - qx) < 1 # 32768)%Q)
            data samples.
Proof.
  intros Hdata Hctx Hch Hlen.
  assert (Hbytes : length (floatToPCM16 data) = 2 * length data).
  { unfold floatToPCM16, length.
    rewrite length_uint8View, pcm16_map, length_map. lia. }
  exists (List.map decodeSample (int16View (floatToPCM16 data))). split.
  - apply (decodeGeminiPCM_even _ ctx rate audioBuffer channelData).
    + rewrite Hbytes, Z.mul_comm. apply Z.mod_mul. lia.
    + rewrite Hbytes, Z.mul_comm, Z.div_mul by lia. exact Hctx.
    + exact Hch.
    + rewrite Hbytes, Z.mul_comm, Z.div_mul by lia. exact Hlen.
  - unfold floatToPCM16. rewrite int16View_uint8View, pcm16_map.
    clear Hctx Hch Hlen Hbytes.
    induction Hdata as [|x data (Hv & q & Hq & Hlo & Hhi) _ IH];
      [constructor|].
    cbn [List.map]. constructor; [|exact IH].
    rewrite encodeSample_quantized by exact Hv.
    assert (Hw : wrap16 (quantized x) = quantized x).
    { apply wrap16_id. unfold quantized. rewrite Hq. apply wrap16_range. }
    rewrite Hw, <- encodeSample_quantized by exact Hv.
    destruct (sample_round_trip x q Hv Hq Hlo Hhi) as (q' & Hq' & Hclose).
    by exists q, q'.
Qed.

Lemma pcm_round_trip_witness :
  let data := [threeQuarterStep; S754_finite true 8388608 (-23)] in
  exists samples,
    decodeGeminiPCM (floatToPCM16 data) allocatingContext (ofInt 24000)
    = inr {| sampleRate := ofInt 24000; channels := [samples] |} /\
    Forall2 (fun x y => exists qx qy,
               valueOf x = Some qx /\ valueOf y = Some qy /\
               (Qabs (qy - qx) < 1 # 32768)%Q)
            data samples.
Proof.
  intros data.
  refine (pcm_round_trip data allocatingContext (ofInt 24000)
            {| sampleRate := ofInt 24000; channels := [[zero; zero]] |}
            [zero; zero] _ _ _ _); try reflexivity.
  repeat constructor; eexists; (split; [reflexivity|]); split;
    vm_compute; congruence.
Defined.

(** C7, as stated, fails at the sample 1.0, which is in [-1, 1]: it is
    stored as 32768 wrapped to -32768 and decoded as -1.0, two units away. *)
Lemma pcm_round_trip_full_scale_cex :
  valid_binary 24 128 fullScale = true /\
  floatToPCM16 [fullScale] = [Byte.x00; Byte.x80] /\
  decodeGeminiPCM (floatToPCM16 [fullScale]) allocatingContext (ofInt 24000)
  = inr {| sampleRate := ofInt 24000;
           channels := [[S754_finite true 8388608 (-23)]] |} /\
  exists qx qy,
    valueOf fullScale = Some qx /\ (-1 <= qx)%Q /\ (qx <= 1)%Q /\
    valueOf (S754_finite true 8388608 (-23)) = Some qy /\ (qy == -1)%Q /\
    ~ (Qabs (qy - qx) <= 1 # 32768)%Q.
Proof.
  split; [reflexivity|]. split; [reflexivity|]. split; [reflexivity|].
  do 2 eexists. split; [reflexivity|]. split; [by vm_compute|].
  split; [by vm_compute|]. split; [reflexivity|].
  split; vm_compute; congruence.
Qed.

(** Audio of odd length fails to decode, and the player's flag is cleared. *)
Lemma odd_audio_clears_flag (audioData : list byte) (p : Player) :
  length audioData mod 2 <> 0 ->
  isSpeaking (resumeSpeak (Synthesized audioData) p) = false.
Proof.
  intros Hodd. unfold resumeSpeak.
  by rewrite (decodeGeminiPCM_odd audioData _ (ofInt 24000) Hodd).
Qed.

(** [btoa] on three bytes, two bytes and one byte. *)
Example encode_Man :
  encode [byteOfZ 77; byteOfZ 97; byteOfZ 110] = lit "TWFu" /\
  encode [byteOfZ 77; byteOfZ 97] = lit "TWE=" /\
  encode [byteOfZ 77] = lit "TQ==".
Proof. by vm_compute. Qed.

(** ** The edit history, continued *)

Lemma slice0_take {A} (a : list A) e :
  0 <= e -> slice0 a e = take (Z.to_nat e) a.
Proof.
  intros He. unfold slice0. destruct (Z.ltb_spec e 0); [lia|].
  destruct (Z_le_gt_dec e (length a)) as [Hle|Hgt].
  - by rewrite Z.min_l by lia.
  - rewrite Z.min_r by lia. unfold length in *.
    rewrite Nat2Z.id. by rewrite !take_ge by lia.
Qed.

(** A settled state whose source text is not the entry at the cursor has its
    timer pending. *)
Lemma settled_pending s :
  Settled s -> Some (sourceText s) ≠ current s ->
  historyTimer s = Some (closureOf s).
Proof.
  intros [_ _ Ht Hsync] Hne.
  destruct (historyTimer s) as [c|] eqn:Hc.
  - by rewrite (Ht c).
  - by rewrite Hsync in Hne.
Qed.

(** What a push records. *)
Lemma pushText_recorded text s :
  Settled s -> Some text ≠ current s ->
  sourceText (pushText text s) = text /\
  history (pushText text s)
  = recorded {| c_sourceText := text; c_history := history s;
                c_historyIndex := historyIndex s |} /\
  historyIndex (pushText text s) = length (history (pushText text s)) - 1.
Proof.
  intros Hs Hne. unfold pushText.
  pose proof (typeText_settled text s Hs) as Hs1.
  destruct (commit_fields s (setSourceText text s)) as (Ct & Ch & Ci).
  fold (typeText text s) in Ct, Ch, Ci. simpl in Ct, Ch, Ci.
  set (s1 := typeText text s) in *.
  assert (Hne1 : Some (sourceText s1) ≠ current s1).
  { unfold current. by rewrite Ct, Ch, Ci. }
  assert (Hcl : closureOf s1
                = {| c_sourceText := text; c_history := history s;
                     c_historyIndex := historyIndex s |}).
  { unfold closureOf. by rewrite Ct, Ch, Ci. }
  unfold quiet. rewrite (settled_pending s1 Hs1 Hne1).
  destruct (commit_fields s1
              (historyTimeout (closureOf s1) (setHistoryTimer None s1)))
    as (Qt & Qh & Qi).
  destruct (historyTimeout_fields (closureOf s1) (setHistoryTimer None s1))
    as (Ht & _ & _).
  destruct (historyTimeout_records (closureOf s1) (setHistoryTimer None s1))
    as [Hh Hi]; [exact Hne1|].
  rewrite Qt, Qh, Qi, Ht, Hh, Hi, Hcl. simpl. by rewrite Ct.
Qed.

(** The two shapes of what the timer callback records: below the capacity
    the entries up to the cursor and the text, at capacity the same without
    the oldest entry. *)
Lemma recorded_below_capacity text (h : list jsstring) i :
  0 <= i < length h -> i + 1 < 50 ->
  recorded {| c_sourceText := text; c_history := h; c_historyIndex := i |}
  = take (Z.to_nat (i + 1)) h ++ [text].
Proof.
  intros Hidx Hcap. unfold recorded.
  cbn [c_sourceText c_history c_historyIndex].
  rewrite length_push, length_slice0 by lia.
  destruct (Z.ltb_spec 50 (i + 1 + 1)); [lia|].
  unfold push. by rewrite slice0_take by lia.
Qed.

Lemma recorded_at_capacity text (h : list jsstring) i :
  0 <= i < length h -> length h <= 50 -> i = 49 ->
  recorded {| c_sourceText := text; c_history := h; c_historyIndex := i |}
  = drop 1 h ++ [text].
Proof.
  intros Hidx Hlen Hcap. unfold recorded.
  cbn [c_sourceText c_history c_historyIndex].
  rewrite length_push, length_slice0 by lia.
  destruct (Z.ltb_spec 50 (i + 1 + 1)); [|lia].
  unfold push, shift. rewrite slice0_take by lia.
  unfold length in *. rewrite take_ge by lia.
  destruct h as [|x h]; [simpl in *; lia|done].
Qed.

(** X1.  A push of a text other than the entry at the cursor, below the
    capacity: the entries after the cursor (the redo tail) are dropped, the
    entries up to the cursor are kept, the text is appended and the cursor
    moves to it. *)
Theorem push_truncates_redo_tail (s : Editor) (text : jsstring) :
  reachable s -> Some text ≠ current s -> historyIndex s + 1 < 50 ->
  history (pushText text s)
  = take (Z.to_nat (historyIndex s + 1)) (history s) ++ [text] /\
  historyIndex (pushText text s) = historyIndex s + 1 /\
  handleRedo (pushText text s) = Some (pushText text s).
Proof.
  intros Hs%reachable_settled Hne Hcap.
  destruct (pushText_recorded text s Hs Hne) as (_ & Hh & Hi).
  destruct Hs as [[Hlen Hidx] _ _ _].
  rewrite recorded_below_capacity in Hh by lia.
  assert (Hl : length (history (pushText text s)) = historyIndex s + 2).
  { rewrite Hh. unfold length in *. rewrite length_app, length_take. simpl.
    lia. }
  split; [exact Hh|]. split; [lia|].
  apply handleRedo_at_end. lia.
Qed.

Lemma push_truncates_redo_tail_witness :
  let s := mount None in
  let text := lit "a" in
  history (pushText text s)
  = take (Z.to_nat (historyIndex s + 1)) (history s) ++ [text] /\
  historyIndex (pushText text s) = historyIndex s + 1 /\
  handleRedo (pushText text s) = Some (pushText text s).
Proof.
  intros s text.
  apply (push_truncates_redo_tail s text (reach_mount None)).
  - vm_compute. congruence.
  - vm_compute. reflexivity.
Defined.

(** X2.  At capacity (50 entries, cursor on the last) a push drops the
    oldest entry and appends the text; the cursor stays on the last
    entry. *)
Theorem push_evicts_oldest (s : Editor) (text : jsstring) :
  reachable s -> Some text ≠ current s -> historyIndex s = 49 ->
  history (pushText text s) = drop 1 (history s) ++ [text] /\
  historyIndex (pushText text s) = 49 /\
  length (history (pushText text s)) = 50.
Proof.
  intros Hs%reachable_settled Hne Hcap.
  destruct (pushText_recorded text s Hs Hne) as (_ & Hh & Hi).
  destruct Hs as [[Hlen Hidx] _ _ _].
  rewrite recorded_at_capacity in Hh by lia.
  assert (Hl : length (history (pushText text s)) = 50).
  { rewrite Hh. unfold length in *. rewrite length_app, length_drop. simpl.
    lia. }
  split; [exact Hh|]. split; [lia|exact Hl].
Qed.

Lemma reachable_pushText text s : reachable s -> reachable (pushText text s).
Proof.
  intros Hs. unfold pushText.
  eapply reach_step; [|apply step_quiet].
  eapply reach_step; [exact Hs|apply step_type].
Qed.

Lemma reachable_pushes texts s :
  reachable s -> reachable (foldl (fun s text => pushText text s) s texts).
Proof.
  revert s. induction texts as [|text texts IH]; intros s Hs; [done|].
  simpl. by apply IH, reachable_pushText.
Qed.

Lemma push_evicts_oldest_witness :
  let text := lit "new" in
  history (pushText text fullEditor) = drop 1 (history fullEditor) ++ [text] /\
  historyIndex (pushText text fullEditor) = 49 /\
  length (history (pushText text fullEditor)) = 50.
Proof.
  intros text. apply (push_evicts_oldest fullEditor text).
  - apply reachable_pushes, reach_mount.
  - vm_compute. congruence.
  - vm_compute. reflexivity.
Defined.

(** X3.  After a push of a new text, one undo brings back the text that was
    at the cursor before the push. *)
Theorem undo_after_push (s : Editor) (text old : jsstring) :
  reachable s -> current s = Some old -> text ≠ old ->
  exists s', undo (pushText text s) = Some s' /\
             sourceText s' = old /\ current s' = Some old /\
             history s' = history (pushText text s).
Proof.
  intros Hr Hold Hne. pose proof (reachable_settled s Hr) as Hs.
  assert (Hne' : Some text ≠ current s) by (rewrite Hold; congruence).
  destruct (pushText_recorded text s Hs Hne') as (_ & Hh & Hi).
  destruct Hs as [[Hlen Hidx] _ _ _].
  set (p := pushText text s) in *.
  assert (Hprev : get (history p) (historyIndex p - 1) = Some old /\
                  0 < historyIndex p < length (history p)).
  { destruct (Z_lt_le_dec (historyIndex s + 1) 50) as [Hlt|Hge].
    - rewrite recorded_below_capacity in Hh by lia.
      assert (Ei : historyIndex p = historyIndex s + 1).
      { rewrite Hi, Hh. unfold length in *.
        rewrite length_app, length_take. simpl. lia. }
      rewrite Hh, Ei. split.
      + replace (historyIndex s + 1 - 1) with (historyIndex s) by lia.
        unfold current, get in Hold |- *.
        destruct (Z.ltb_spec (historyIndex s) 0); [lia|].
        rewrite lookup_app_l by (rewrite length_take; unfold length in *; lia).
        rewrite lookup_take_lt by lia. exact Hold.
      + unfold length in *. rewrite length_app, length_take. simpl. lia.
    - rewrite recorded_at_capacity in Hh by lia.
      assert (El : length (history p) = 50).
      { rewrite Hh. unfold length in *. rewrite length_app, length_drop.
        simpl. lia. }
      assert (Ei : historyIndex p = 49) by lia.
      rewrite El, Ei. split; [|lia]. rewrite Hh.
      unfold current, get in Hold |- *.
      destruct (Z.ltb_spec (historyIndex s) 0); [lia|].
      destruct (Z.ltb_spec (49 - 1) 0); [lia|].
      rewrite lookup_app_l by (rewrite length_drop; unfold length in *; lia).
      rewrite lookup_drop. rewrite <- Hold. f_equal. lia. }
  destruct Hprev as [Hget Hrange].
  destruct (handleUndo_applies p Hrange) as (q & Hq & Hu).
  rewrite Hget in Hq. injection Hq as <-.
  eexists. split.
  { unfold undo. rewrite Hu. simpl. rewrite commit_replay by lia. reflexivity. }
  simpl. by repeat split.
Qed.

Lemma undo_after_push_witness :
  exists s', undo (pushText (lit "a") (mount None)) = Some s' /\
             sourceText s' = [] /\ current s' = Some [] /\
             history s' = history (pushText (lit "a") (mount None)).
Proof.
  apply (undo_after_push (mount None) (lit "a") [] (reach_mount None)).
  - reflexivity.
  - vm_compute. congruence.
Defined.

Lemma NoRepeat_app_last (h : list jsstring) text :
  NoRepeat h -> (forall a, last h = Some a -> a ≠ text) ->
  NoRepeat (h ++ [text]).
Proof.
  intros Hh Hl i a b Ha Hb.
  destruct (decide (S i < List.length h)%nat) as [Hlt|Hge].
  - rewrite lookup_app_l in Ha by lia. rewrite lookup_app_l in Hb by lia.
    by apply (Hh i).
  - assert (Hi : S i = List.length h).
    { apply lookup_lt_Some in Hb. rewrite length_app in Hb. simpl in Hb. lia. }
    rewrite lookup_app_l in Ha by lia.
    rewrite Hi, list_lookup_middle in Hb by done. injection Hb as <-.
    apply Hl. rewrite last_lookup. rewrite <- Ha. f_equal. lia.
Qed.

Lemma NoRepeat_take (h : list jsstring) n : NoRepeat h -> NoRepeat (take n h).
Proof.
  intros Hh i a b Ha Hb.
  apply lookup_take_Some in Ha as [Ha _]. apply lookup_take_Some in Hb as [Hb _].
  by apply (Hh i).
Qed.

Lemma NoRepeat_drop (h : list jsstring) n : NoRepeat h -> NoRepeat (drop n h).
Proof.
  intros Hh i a b Ha Hb. rewrite lookup_drop in Ha, Hb.
  apply (Hh (n + i)%nat a b Ha). by replace (S (n + i)) with (n + S i)%nat by lia.
Qed.

Lemma recorded_NoRepeat c :
  0 <= c_historyIndex c < length (c_history c) ->
  Some (c_sourceText c) ≠ get (c_history c) (c_historyIndex c) ->
  NoRepeat (c_history c) -> NoRepeat (recorded c).
Proof.
  intros Hidx Hne Hh. unfold recorded, push, shift.
  rewrite slice0_take by lia.
  assert (Happ : NoRepeat (take (Z.to_nat (c_historyIndex c + 1)) (c_history c)
                           ++ [c_sourceText c])).
  { apply NoRepeat_app_last; [by apply NoRepeat_take|].
    intros a Hlast Heq. apply Hne. rewrite <- Heq.
    rewrite last_lookup in Hlast. rewrite length_take in Hlast.
    apply lookup_take_Some in Hlast as [Hlast _].
    unfold get. destruct (Z.ltb_spec (c_historyIndex c) 0); [lia|].
    rewrite <- Hlast. f_equal. unfold length in *. lia. }
  destruct (50 <? _); [by apply NoRepeat_drop|exact Happ].
Qed.

Lemma undo_redo_keep_history s e :
  handleUndo s = Some e \/ handleRedo s = Some e ->
  history e = history s /\ (e ≠ s -> Some (sourceText e) = current e).
Proof.
  intros [Hu|Hr].
  - unfold handleUndo in Hu.
    destruct (Z.ltb_spec 0 (historyIndex s)); [|by injection Hu as <-].
    simpl in Hu.
    destruct (get (history s) (historyIndex s - 1)) as [p|] eqn:Hp; [|done].
    simpl in Hu. injection Hu as <-. by split.
  - unfold handleRedo in Hr.
    destruct (Z.ltb_spec (historyIndex s) (length (history s) - 1));
      [|by injection Hr as <-].
    simpl in Hr.
    destruct (get (history s) (historyIndex s + 1)) as [p|] eqn:Hp; [|done].
    simpl in Hr. injection Hr as <-. by split.
Qed.

(** X4.  In every state of a run, no entry of the history equals the entry
    that follows it: a recorded snapshot always differs from the one before
    it. *)
Theorem history_has_no_repeat (s : Editor) :
  reachable s -> NoRepeat (history s).
Proof.
  induction 1 as [saved|s s' Hr IH Hstep].
  - unfold mount. destruct saved as [savedText|]; [|by intros [|[|i]] a b].
    destruct (falsy savedText); [by intros [|[|i]] a b|].
    destruct (commit_fields (historyEffect initialEditor)
                (setHistoryIndex 0 (setHistory [savedText]
                   (setSourceText savedText (historyEffect initialEditor)))))
      as (_ & -> & _).
    by intros [|[|i]] a b.
  - pose proof (reachable_settled s Hr) as Hs.
    destruct Hstep as [text s|s|s s' Hu|s s' Hu].
    + unfold typeText.
      by destruct (commit_fields s (setSourceText text s)) as (_ & -> & _).
    + unfold quiet. destruct (historyTimer s) as [c|] eqn:Hc; [|exact IH].
      destruct Hs as [[Hlen Hidx] _ Ht _]. rewrite (Ht c Hc).
      destruct (commit_fields s
                  (historyTimeout (closureOf s) (setHistoryTimer None s)))
        as (_ & -> & _).
      destruct (decide (Some (sourceText s) = current s)) as [He|Hne].
      * by rewrite historyTimeout_same.
      * destruct (historyTimeout_records (closureOf s)
                    (setHistoryTimer None s) Hne) as [-> _].
        by apply (recorded_NoRepeat (closureOf s)).
    + unfold undo in Hu.
      destruct (handleUndo s) as [e|] eqn:He; [|done].
      injection Hu as <-.
      destruct (commit_fields s e) as (_ & -> & _).
      destruct (undo_redo_keep_history s e) as [-> _]; [by left|exact IH].
    + unfold redo in Hu.
      destruct (handleRedo s) as [e|] eqn:He; [|done].
      injection Hu as <-.
      destruct (commit_fields s e) as (_ & -> & _).
      destruct (undo_redo_keep_history s e) as [-> _]; [by right|exact IH].
Qed.

Lemma history_has_no_repeat_witness :
  NoRepeat (history (pushText (lit "b") (pushText (lit "a") (mount None)))).
Proof.
  apply history_has_no_repeat.
  apply reachable_pushText, reachable_pushText, reach_mount.
Defined.

Lemma undo_applied s :
  0 < historyIndex s < length (history s) ->
  exists prevText,
    get (history s) (historyIndex s - 1) = Some prevText /\
    undo s = Some (onEntry (history s) (historyIndex s - 1) prevText).
Proof.
  intros Hi. destruct (handleUndo_applies s Hi) as (p & Hp & Hu).
  exists p. split; [exact Hp|]. unfold undo. rewrite Hu. simpl.
  by rewrite commit_replay by lia.
Qed.

Lemma redo_applied s :
  0 <= historyIndex s < length (history s) - 1 ->
  exists nextText,
    get (history s) (historyIndex s + 1) = Some nextText /\
    redo s = Some (onEntry (history s) (historyIndex s + 1) nextText).
Proof.
  intros Hi. destruct (handleRedo_applies s Hi) as (p & Hp & Hu).
  exists p. split; [exact Hp|]. unfold redo. rewrite Hu. simpl.
  by rewrite commit_replay by lia.
Qed.

Lemma undoTimes_S k s : undoTimes (S k) s = undoTimes k s ≫= undo.
Proof. reflexivity. Qed.

Lemma redoTimes_S k s : redoTimes (S k) s = redoTimes k s ≫= redo.
Proof. reflexivity. Qed.

Lemma undoTimes_first k s s1 :
  undo s = Some s1 -> undoTimes (S k) s = undoTimes k s1.
Proof.
  intros Hu. induction k as [|k IH].
  - rewrite undoTimes_S. simpl. exact Hu.
  - rewrite undoTimes_S, IH. reflexivity.
Qed.

Lemma undoTimes_onEntry h (k : nat) : forall i x,
  Z.of_nat k <= i -> i < length h -> get h i = Some x ->
  exists y, get h (i - Z.of_nat k) = Some y /\
            undoTimes k (onEntry h i x) = Some (onEntry h (i - Z.of_nat k) y).
Proof.
  induction k as [|k IH]; intros i x Hk Hi Hx.
  - exists x. replace (i - Z.of_nat 0) with i by lia. by split.
  - destruct (IH i x ltac:(lia) Hi Hx) as (y & Hy & Hu).
    rewrite undoTimes_S, Hu. cbn [mbind option_bind].
    destruct (undo_applied (onEntry h (i - Z.of_nat k) y)) as (z & Hz & ->);
      [simpl; lia|].
    simpl in Hz |- *. exists z.
    replace (i - Z.of_nat (S k)) with (i - Z.of_nat k - 1) by lia. by split.
Qed.

Lemma redoTimes_onEntry h (k : nat) : forall i x,
  0 <= i -> i + Z.of_nat k < length h -> get h i = Some x ->
  exists y, get h (i + Z.of_nat k) = Some y /\
            redoTimes k (onEntry h i x) = Some (onEntry h (i + Z.of_nat k) y).
Proof.
  induction k as [|k IH]; intros i x H0 Hi Hx.
  - exists x. replace (i + Z.of_nat 0) with i by lia. by split.
  - destruct (IH i x H0 ltac:(lia) Hx) as (y & Hy & Hu).
    rewrite redoTimes_S, Hu. cbn [mbind option_bind].
    destruct (redo_applied (onEntry h (i + Z.of_nat k) y)) as (z & Hz & ->);
      [simpl; lia|].
    simpl in Hz |- *. exists z.
    replace (i + Z.of_nat (S k)) with (i + Z.of_nat k + 1) by lia. by split.
Qed.

(** X5.  With the cursor inside the history, [k] undos ([k] positive, at
    most the cursor) move the cursor back by [k] onto the entry shown, and
    [k] redos then bring the cursor back onto the entry it was on; the
    entries are never changed. *)
Theorem undos_then_redos (s : Editor) (k : nat) :
  0 <= historyIndex s < length (history s) ->
  (0 < k)%nat -> Z.of_nat k <= historyIndex s ->
  exists s1 s2,
    undoTimes k s = Some s1 /\
    history s1 = history s /\ historyIndex s1 = historyIndex s - Z.of_nat k /\
    current s1 = Some (sourceText s1) /\
    redoTimes k s1 = Some s2 /\
    history s2 = history s /\ historyIndex s2 = historyIndex s /\
    Some (sourceText s2) = current s.
Proof.
  intros Hidx Hk Hle. destruct k as [|k]; [lia|].
  destruct (undo_applied s ltac:(lia)) as (p & Hp & Hu).
  destruct (undoTimes_onEntry (history s) k (historyIndex s - 1) p
              ltac:(lia) ltac:(lia) Hp) as (y & Hy & Huk).
  assert (Hundo : undoTimes (S k) s
                  = Some (onEntry (history s)
                            (historyIndex s - 1 - Z.of_nat k) y)).
  { by rewrite (undoTimes_first k s _ Hu). }
  destruct (redoTimes_onEntry (history s) (S k)
              (historyIndex s - 1 - Z.of_nat k) y
              ltac:(lia) ltac:(lia) Hy) as (z & Hz & Hr).
  replace (historyIndex s - 1 - Z.of_nat k + Z.of_nat (S k))
    with (historyIndex s) in Hz, Hr by lia.
  do 2 eexists. split; [exact Hundo|]. simpl.
  split; [done|]. split; [lia|]. split; [exact Hy|].
  split; [exact Hr|]. simpl. by repeat split.
Qed.

Lemma undos_then_redos_witness :
  let s := {| sourceText := lit "ab"; history := [[]; lit "a"; lit "ab"];
              historyIndex := 2; isInternalChange := false;
              historyTimer := None |} in
  exists s1 s2,
    undoTimes 2 s = Some s1 /\
    history s1 = history s /\ historyIndex s1 = historyIndex s - Z.of_nat 2 /\
    current s1 = Some (sourceText s1) /\
    redoTimes 2 s1 = Some s2 /\
    history s2 = history s /\ historyIndex s2 = historyIndex s /\
    Some (sourceText s2) = current s.
Proof.
  intros s. apply (undos_then_redos s 2); unfold length; simpl; lia.
Defined.

(** ** Translation requests, continued *)

Ltac app_fields :=
  unfold changeText, appCommit, saveEffect, debounceEffect, onEditor;
  repeat (case_bool_decide || case_match); reflexivity.

Lemma appCommit_frame old new :
  calls (appCommit old new) = calls new /\
  sourceLang (appCommit old new) = sourceLang new /\
  targetLang (appCommit old new) = targetLang new /\
  isRecording (appCommit old new) = isRecording new /\
  activeTab (appCommit old new) = activeTab new /\
  error (appCommit old new) = error new.
Proof. repeat split; app_fields. Qed.

Lemma appCommit_sourceText old new :
  sourceText (editor (appCommit old new)) = sourceText (editor new).
Proof.
  rewrite appCommit_editor.
  by destruct (commit_fields (editor old) (editor new)) as (-> & _).
Qed.

(** The effect has run when one of its dependencies changed. *)
Lemma appCommit_debounce old new :
  debounceDeps old ≠ debounceDeps new ->
  exists mid,
    appCommit old new = debounceEffect mid /\
    sourceText (editor mid) = sourceText (editor new) /\
    activeTab mid = activeTab new /\ isRecording mid = isRecording new /\
    sourceLang mid = sourceLang new /\ targetLang mid = targetLang new /\
    targetText mid = targetText new /\ detectedLang mid = detectedLang new /\
    confidence mid = confidence new /\ status mid = status new /\
    error mid = error new /\ calls mid = calls new /\
    activeStreamRef mid = activeStreamRef new.
Proof.
  intros Hd. unfold appCommit. rewrite (bool_decide_eq_false_2 _ Hd).
  eexists. split; [reflexivity|].
  pose proof (commit_fields (editor old) (editor new)) as (Ht & _).
  unfold saveEffect. repeat (case_bool_decide || case_match); simpl;
    repeat split; exact Ht.
Qed.

Lemma translateTextStream_concat responseStream :
  concat (translateTextStream responseStream)
  = concat (List.map (default []) responseStream).
Proof.
  induction responseStream as [|[textPart|] rest IH]; simpl; [done| |done].
  destruct textPart as [|c textPart]; simpl; [done|]. by rewrite IH.
Qed.

Lemma translateTextStream_nonempty responseStream :
  Forall (fun chunk => chunk ≠ []) (translateTextStream responseStream).
Proof.
  induction responseStream as [|[textPart|] rest IH]; simpl; [done| |done].
  destruct textPart as [|c textPart]; simpl; [done|]. by constructor.
Qed.

(** The chunks of a current task are appended to the display. *)
Lemma runTask_chunks chunks : forall t a,
  awaiting t = AwaitChunk -> streamId t = activeStreamRef a ->
  fullText t = targetText a ->
  exists t' a',
    runTask (List.map Chunk chunks) (t, a) = (t', a') /\
    awaiting t' = AwaitChunk /\ streamId t' = streamId t /\
    t_text t' = t_text t /\ t_sourceLang t' = t_sourceLang t /\
    t_targetLang t' = t_targetLang t /\
    fullText t' = fullText t ++ concat chunks /\
    targetText a' = targetText a ++ concat chunks /\
    activeStreamRef a' = activeStreamRef a /\ status a' = status a /\
    error a' = error a /\ detectedLang a' = detectedLang a /\
    confidence a' = confidence a /\ calls a' = calls a.
Proof.
  induction chunks as [|c chunks IH]; intros t a Hw Hid Hfull.
  - exists t, a. simpl. rewrite !app_nil_r. by repeat split.
  - unfold runTask. simpl. unfold resume at 2, stale. rewrite Hw.
    rewrite bool_decide_eq_false_2 by (intros Hne; by apply Hne).
    cbn [fst snd].
    destruct (IH (setFullText (fullText t ++ c) t)
                 (setTargetText (fullText (setFullText (fullText t ++ c) t)) a))
      as (t' & a' & Hrun & Hw' & Hid' & Htx & Hsl & Htl & Hf & Htt & Hg & Hst
          & He & Hdl & Hcf & Hcl);
      [done|done|done|].
    exists t', a'. unfold runTask in Hrun. rewrite Hrun. simpl in *.
    rewrite Hf, Htt, <- Hfull, <- !app_assoc. by repeat split.
Qed.

Lemma runTask_app rs1 rs2 ta :
  runTask (rs1 ++ rs2) ta = runTask rs2 (runTask rs1 ta).
Proof. unfold runTask. apply foldl_app. Qed.

Lemma runTask_cons r rs t a :
  runTask (r :: rs) (t, a) = runTask rs (resume r t a).
Proof. reflexivity. Qed.

Lemma resume_end_auto t a :
  awaiting t = AwaitChunk -> t_sourceLang t = lit "auto" ->
  resume StreamEnd t a
  = (setAwaiting AwaitResult t,
     logCall (CallTranslateText (t_text t) (t_sourceLang t) (t_targetLang t))
             a).
Proof.
  intros Hw Hl. unfold resume. rewrite Hw.
  by rewrite bool_decide_eq_true_2 by exact Hl.
Qed.

Lemma resume_end_fixed t a :
  awaiting t = AwaitChunk -> t_sourceLang t ≠ lit "auto" ->
  resume StreamEnd t a = (setAwaiting Returned t, setStatus SUCCESS a).
Proof.
  intros Hw Hl. unfold resume. rewrite Hw.
  by rewrite bool_decide_eq_false_2 by exact Hl.
Qed.

Lemma resume_resolve t a result :
  awaiting t = AwaitResult -> streamId t = activeStreamRef a ->
  resume (Resolve result) t a
  = (setAwaiting Returned t,
     setStatus SUCCESS
       (setConfidence (resultConfidence result)
          (setDetectedLang (detectedLanguage result) a))).
Proof.
  intros Hw Hc. unfold resume, stale. rewrite Hw.
  rewrite bool_decide_eq_false_2; [done|]. intros Hx. by apply Hx.
Qed.


(** A request for a text that is not blank: the state and the task at the
    first [await]. *)
Lemma handleTranslate_starts sl tl text a :
  trim text ≠ [] ->
  exists a1 t1,
    handleTranslate sl tl text a = (a1, Some t1) /\
    awaiting t1 = AwaitChunk /\ streamId t1 = activeStreamRef a1 /\
    fullText t1 = [] /\ t_text t1 = text /\ t_sourceLang t1 = sl /\
    t_targetLang t1 = tl /\
    targetText a1 = [] /\ activeStreamRef a1 = activeStreamRef a + 1 /\
    status a1 = LOADING /\ error a1 = None /\
    detectedLang a1 = detectedLang a /\ confidence a1 = confidence a /\
    calls a1 = calls a ++ [CallTranslateTextStream text sl tl].
Proof.
  intros Hne. unfold handleTranslate.
  destruct (trim text) as [|c s]; [done|]. simpl.
  do 2 eexists. split; [reflexivity|]. simpl. by repeat split.
Qed.

(** X6.  A request with source language ['auto'] that runs to its end with
    no newer request: the target text is the concatenation of the texts of
    the response chunks (missing and empty ones contribute nothing), the
    detected language and the confidence are those of the structured
    result, the status is success, the error is null, and the service was
    called twice, the stream first, for the same text and languages. *)
Theorem request_auto_succeeds (tl text : jsstring)
  (responseStream : list (option jsstring)) (result : TranslationResult)
  (a : App) :
  trim text ≠ [] ->
  let a' := request (lit "auto") tl text
              (List.map Chunk (translateTextStream responseStream)
               ++ [StreamEnd; Resolve result]) a in
  targetText a' = concat (List.map (default []) responseStream) /\
  detectedLang a' = detectedLanguage result /\
  confidence a' = resultConfidence result /\
  status a' = SUCCESS /\ error a' = None /\
  activeStreamRef a' = activeStreamRef a + 1 /\
  calls a' = calls a ++ [CallTranslateTextStream text (lit "auto") tl;
                         CallTranslateText text (lit "auto") tl].
Proof.
  intros Hne. cbv zeta. unfold request.
  destruct (handleTranslate_starts (lit "auto") tl text a Hne)
    as (a1 & t1 & -> & Hw & Hid & Hf & Htx & Hsl & Htl & Htt & Hg & Hst & He
        & Hdl & Hcf & Hcl).
  rewrite runTask_app.
  destruct (runTask_chunks (translateTextStream responseStream) t1 a1)
    as (t2 & a2 & -> & Hw2 & Hid2 & Htx2 & Hsl2 & Htl2 & Hf2 & Htt2 & Hg2
        & Hst2 & He2 & Hdl2 & Hcf2 & Hcl2); [done|done|congruence|].
  rewrite runTask_cons, resume_end_auto by congruence.
  rewrite runTask_cons, resume_resolve by (simpl; congruence).
  simpl. rewrite Htt2, Htt, Hg2, Hg, He2, He, Hcl2, Hcl, Htx2, Htx, Htl2, Htl.
  rewrite Hsl2, Hsl, translateTextStream_concat, <- app_assoc.
  by repeat split.
Qed.

Lemma request_auto_succeeds_witness :
  let a := initialApp None in
  let result := {| translatedText := lit "Hola";
                   detectedLanguage := lit "en";
                   resultConfidence := zero |} in
  let responseStream := [Some (lit "Ho"); None; Some []; Some (lit "la")] in
  let a' := request (lit "auto") (lit "es") (lit "Hello")
              (List.map Chunk (translateTextStream responseStream)
               ++ [StreamEnd; Resolve result]) a in
  targetText a' = concat (List.map (default []) responseStream) /\
  detectedLang a' = detectedLanguage result /\
  confidence a' = resultConfidence result /\
  status a' = SUCCESS /\ error a' = None /\
  activeStreamRef a' = activeStreamRef a + 1 /\
  calls a' = calls a ++ [CallTranslateTextStream (lit "Hello") (lit "auto")
                           (lit "es");
                         CallTranslateText (lit "Hello") (lit "auto")
                           (lit "es")].
Proof.
  intros a result responseStream.
  apply (request_auto_succeeds (lit "es") (lit "Hello") responseStream result a).
  vm_compute. congruence.
Defined.

(** X7.  A request with a source language other than ['auto'] that runs to
    its end: the target text is the concatenation of the chunks, the status
    is success, the service was called once (no structured call), and the
    detected language and the confidence are left as they were. *)
Theorem request_fixed_language_succeeds (sl tl text : jsstring)
  (chunks : list jsstring) (a : App) :
  trim text ≠ [] -> sl ≠ lit "auto" ->
  let a' := request sl tl text (List.map Chunk chunks ++ [StreamEnd]) a in
  targetText a' = concat chunks /\
  status a' = SUCCESS /\ error a' = None /\
  detectedLang a' = detectedLang a /\ confidence a' = confidence a /\
  activeStreamRef a' = activeStreamRef a + 1 /\
  calls a' = calls a ++ [CallTranslateTextStream text sl tl].
Proof.
  intros Hne Hsl0. cbv zeta. unfold request.
  destruct (handleTranslate_starts sl tl text a Hne)
    as (a1 & t1 & -> & Hw & Hid & Hf & Htx & Hsl & Htl & Htt & Hg & Hst & He
        & Hdl & Hcf & Hcl).
  rewrite runTask_app.
  destruct (runTask_chunks chunks t1 a1)
    as (t2 & a2 & -> & Hw2 & Hid2 & Htx2 & Hsl2 & Htl2 & Hf2 & Htt2 & Hg2
        & Hst2 & He2 & Hdl2 & Hcf2 & Hcl2); [done|done|congruence|].
  rewrite runTask_cons, resume_end_fixed by congruence.
  simpl. rewrite Htt2, Htt, Hg2, Hg, He2, He, Hcl2, Hcl, Hdl2, Hdl, Hcf2, Hcf.
  by repeat split.
Qed.

Lemma request_fixed_language_succeeds_witness :
  let a := initialApp None in
  let a' := request (lit "en") (lit "es") (lit "Hello")
              (List.map Chunk [lit "Ho"; lit "la"] ++ [StreamEnd]) a in
  targetText a' = concat [lit "Ho"; lit "la"] /\
  status a' = SUCCESS /\ error a' = None /\
  detectedLang a' = detectedLang a /\ confidence a' = confidence a /\
  activeStreamRef a' = activeStreamRef a + 1 /\
  calls a' = calls a ++ [CallTranslateTextStream (lit "Hello") (lit "en")
                           (lit "es")].
Proof.
  intros a.
  apply (request_fixed_language_succeeds (lit "en") (lit "es") (lit "Hello")
           [lit "Ho"; lit "la"] a); vm_compute; congruence.
Defined.



(** What the debounce effect leaves, in the text tab. *)
Lemma debounceEffect_text a :
  activeTab a = TextTab ->
  (sourceText (editor a) ≠ [] -> isRecording a = false ->
   debounceEffect a
   = setTypingTimeoutRef
       (Some {| c_text := sourceText (editor a); c_sourceLang := sourceLang a;
                c_targetLang := targetLang a |}) a) /\
  (sourceText (editor a) = [] ->
   debounceEffect a
   = setStatus IDLE (setConfidence zero (setDetectedLang []
       (setTargetText [] (setTypingTimeoutRef None a))))) /\
  (isRecording a = true -> typingTimeoutRef (debounceEffect a) = None).
Proof.
  intros Htab. unfold debounceEffect. simpl. rewrite Htab. repeat split.
  - intros Hne Hrec. rewrite Hrec.
    destruct (sourceText (editor a)) as [|c s] eqn:Hs; [done|].
    replace (0 <? length (c :: s)) with true; [by destruct a|].
    symmetry. apply Z.ltb_lt. unfold length. simpl. lia.
  - intros ->. reflexivity.
  - intros ->. rewrite andb_false_r. by destruct (_ =? _).
Qed.

(** X9.  In the text tab, not recording: two changes of the source text in
    a row, the second to a different text that is not blank, and then the
    expiry of the typing timer issue exactly one request, for the second
    text; the timer is consumed, so that a second expiry does nothing. *)
Theorem debounce_keeps_last_text (a : App) (ts : list Task)
  (text1 text2 : jsstring) :
  activeTab a = TextTab -> isRecording a = false ->
  text2 ≠ text1 -> trim text2 ≠ [] ->
  let s2 := onApp (onEditor (setSourceText text2))
              (onApp (onEditor (setSourceText text1))
                 {| app := a; tasks := ts |}) in
  let s3 := typingTimeout s2 in
  calls (app s2) = calls a /\
  calls (app s3)
  = calls a ++ [CallTranslateTextStream text2 (sourceLang a) (targetLang a)] /\
  (exists t, tasks s3 = ts ++ [t] /\ t_text t = text2 /\
             streamId t = activeStreamRef a + 1) /\
  typingTimeout s3 = s3.
Proof.
  intros Htab Hrec Hdiff Hne. cbv zeta.
  unfold onApp. cbn [app tasks].
  set (a1 := appCommit a (onEditor (setSourceText text1) a)).
  assert (H1 : sourceText (editor a1) = text1 /\ calls a1 = calls a /\
               sourceLang a1 = sourceLang a /\ targetLang a1 = targetLang a /\
               isRecording a1 = false /\ activeTab a1 = TextTab /\
               activeStreamRef a1 = activeStreamRef a).
  { unfold a1. rewrite appCommit_sourceText, appCommit_activeStreamRef.
    destruct (appCommit_frame a (onEditor (setSourceText text1) a))
      as (-> & -> & -> & -> & -> & _). by repeat split. }
  destruct H1 as (Hs1 & Hc1 & Hsl1 & Htl1 & Hr1 & Htab1 & Hg1).
  destruct (appCommit_debounce a1 (onEditor (setSourceText text2) a1))
    as (mid & Hmid & Hms & Hmtab & Hmrec & Hmsl & Hmtl & _ & _ & _ & _ & _
        & Hmcl & Hmg).
  { unfold debounceDeps. simpl. rewrite Hs1. congruence. }
  simpl in Hms, Hmtab, Hmrec, Hmsl, Hmtl, Hmcl, Hmg.
  assert (Hne2 : text2 ≠ []) by (intros ->; by apply Hne).
  destruct (debounceEffect_text mid) as (Hset & _ & _); [congruence|].
  rewrite Hmid, Hset by congruence.
  split; [simpl; congruence|].
  unfold typingTimeout. cbn [app tasks typingTimeoutRef setTypingTimeoutRef].
  cbn [c_text c_sourceLang c_targetLang].
  destruct (handleTranslate_starts (sourceLang mid) (targetLang mid)
              (sourceText (editor mid))
              (setTypingTimeoutRef None
                 (setTypingTimeoutRef
                    (Some {| c_text := sourceText (editor mid);
                             c_sourceLang := sourceLang mid;
                             c_targetLang := targetLang mid |}) mid)))
    as (a3 & t3 & Hht & Hw & Hid & Hf & Htx & _ & _ & _ & Hg3 & _ & _ & _ & _
        & Hcl3); [congruence|].
  rewrite Hht. cbn [app tasks option_list].
  assert (Htimer : typingTimeoutRef a3 = None).
  { unfold handleTranslate in Hht.
    destruct (falsy (trim (sourceText (editor mid)))); by injection Hht as <- _. }
  simpl in Hg3, Hcl3. split; [|split].
  - rewrite Hcl3. congruence.
  - exists t3. split; [done|]. split; [congruence|]. rewrite Hid, Hg3. lia.
  - by rewrite Htimer.
Qed.

Lemma debounce_keeps_last_text_witness :
  let a := initialApp None in
  let s2 := onApp (onEditor (setSourceText (lit "ab")))
              (onApp (onEditor (setSourceText (lit "a")))
                 {| app := a; tasks := [] |}) in
  let s3 := typingTimeout s2 in
  calls (app s2) = calls a /\
  calls (app s3)
  = calls a ++ [CallTranslateTextStream (lit "ab") (sourceLang a)
                  (targetLang a)] /\
  (exists t, tasks s3 = [] ++ [t] /\ t_text t = lit "ab" /\
             streamId t = activeStreamRef a + 1) /\
  typingTimeout s3 = s3.
Proof.
  intros a.
  apply (debounce_keeps_last_text a [] (lit "a") (lit "ab"));
    vm_compute; congruence.
Defined.

(** X10.  In the text tab, emptying a source text that was not empty cancels
    the typing timer and, at once, empties the target text and the detected
    language, zeroes the confidence and makes the status idle; it leaves the
    error message and the generation counter as they are, and makes no
    request. *)
Theorem empty_text_goes_idle (a : App) :
  activeTab a = TextTab -> sourceText (editor a) ≠ [] ->
  let a' := changeText [] a in
  typingTimeoutRef a' = None /\
  targetText a' = [] /\ detectedLang a' = [] /\ confidence a' = zero /\
  status a' = IDLE /\
  error a' = error a /\ activeStreamRef a' = activeStreamRef a /\
  calls a' = calls a /\
  forall ts, typingTimeout {| app := a'; tasks := ts |}
             = {| app := a'; tasks := ts |}.
Proof.
  intros Htab Hne. cbv zeta. unfold changeText.
  destruct (appCommit_debounce a (onEditor (setSourceText []) a))
    as (mid & Hmid & Hms & Hmtab & _ & _ & _ & _ & _ & _ & _ & Hme & Hmcl
        & Hmg).
  { unfold debounceDeps. simpl. congruence. }
  simpl in Hms, Hmtab, Hme, Hmcl, Hmg.
  destruct (debounceEffect_text mid) as (_ & Hclr & _); [congruence|].
  rewrite Hmid, Hclr by exact Hms. simpl. by repeat split.
Qed.

Lemma empty_text_goes_idle_witness :
  let a := changeText (lit "a") (initialApp None) in
  let a' := changeText [] a in
  typingTimeoutRef a' = None /\
  targetText a' = [] /\ detectedLang a' = [] /\ confidence a' = zero /\
  status a' = IDLE /\
  error a' = error a /\ activeStreamRef a' = activeStreamRef a /\
  calls a' = calls a /\
  forall ts, typingTimeout {| app := a'; tasks := ts |}
             = {| app := a'; tasks := ts |}.
Proof.
  intros a. apply (empty_text_goes_idle a); vm_compute; congruence.
Defined.

Lemma appCommit_timer_recording old new :
  isRecording new = true ->
  (debounceDeps old = debounceDeps new -> typingTimeoutRef new = None) ->
  typingTimeoutRef (appCommit old new) = None.
Proof.
  intros Hrec Hsame.
  destruct (decide (debounceDeps old = debounceDeps new)) as [Hd|Hd].
  - unfold appCommit. rewrite (bool_decide_eq_true_2 _ Hd).
    rewrite <- (Hsame Hd). unfold saveEffect.
    repeat (case_bool_decide || case_match); reflexivity.
  - destruct (appCommit_debounce old new Hd)
      as (mid & -> & _ & Hmtab & Hmrec & _).
    unfold debounceEffect. simpl. rewrite Hmrec, Hrec, andb_false_r.
    repeat case_match; reflexivity.
Qed.

(** X11.  While recording, changes of the source text start no translation:
    once [onopen] has set [isRecording], after any sequence of changes of the
    text no typing timer is pending and no request has been made.  When
    recording stops, in the text tab and with a source text that is not
    empty, the timer is set for the text as it is then. *)
Theorem recording_suppresses_translation (a : App) (texts : list jsstring) :
  isRecording a = false ->
  let opened := appCommit a (setIsRecording true a) in
  let a2 := foldl (fun a text => changeText text a) opened texts in
  typingTimeoutRef a2 = None /\ isRecording a2 = true /\
  calls a2 = calls a /\ activeStreamRef a2 = activeStreamRef a /\
  (forall ts, typingTimeout {| app := a2; tasks := ts |}
              = {| app := a2; tasks := ts |}) /\
  (activeTab a = TextTab -> sourceText (editor a2) ≠ [] ->
   typingTimeoutRef (appCommit a2 (setIsRecording false a2))
   = Some {| c_text := sourceText (editor a2); c_sourceLang := sourceLang a;
             c_targetLang := targetLang a |}).
Proof.
  intros Hrec. cbv zeta.
  set (opened := appCommit a (setIsRecording true a)).
  assert (Hinv : forall texts b,
            typingTimeoutRef b = None /\ isRecording b = true ->
            let b' := foldl (fun a text => changeText text a) b texts in
            (typingTimeoutRef b' = None /\ isRecording b' = true) /\
            calls b' = calls b /\ activeStreamRef b' = activeStreamRef b /\
            activeTab b' = activeTab b /\ sourceLang b' = sourceLang b /\
            targetLang b' = targetLang b).
  { clear. induction texts as [|text texts IH]; intros b [Ht Hr]; [done|].
    simpl.
    destruct (appCommit_frame b (onEditor (setSourceText text) b))
      as (Hc & Hsl & Htl & Hrc & Htab & _).
    pose proof (appCommit_activeStreamRef b (onEditor (setSourceText text) b))
      as Hg.
    destruct (IH (changeText text b)) as (Hi & Hc' & Hg' & Htab' & Hsl' & Htl').
    { unfold changeText. split.
      - apply appCommit_timer_recording; [exact Hr|]. intros _. exact Ht.
      - by rewrite Hrc. }
    unfold changeText in *. split; [exact Hi|].
    rewrite Hc', Hg', Htab', Hsl', Htl', Hc, Hg, Htab, Hsl, Htl.
    by repeat split. }
  assert (Hopen : typingTimeoutRef opened = None /\ isRecording opened = true).
  { unfold opened. split.
    - apply appCommit_timer_recording; [done|].
      unfold debounceDeps. simpl. rewrite Hrec. congruence.
    - by destruct (appCommit_frame a (setIsRecording true a))
        as (_ & _ & _ & -> & _). }
  destruct (Hinv texts opened Hopen) as ((Ht & Hr) & Hc & Hg & Htab & Hsl & Htl).
  cbv zeta in *.
  set (a2 := foldl (fun a text => changeText text a) opened texts) in *.
  destruct (appCommit_frame a (setIsRecording true a))
    as (Hoc & Hosl & Hotl & _ & Hotab & _).
  fold opened in Hoc, Hosl, Hotl, Hotab. simpl in Hoc, Hosl, Hotl, Hotab.
  split; [exact Ht|]. split; [exact Hr|]. split; [congruence|].
  split.
  { rewrite Hg. unfold opened. by rewrite appCommit_activeStreamRef. }
  split.
  { intros ts. unfold typingTimeout. simpl. by rewrite Ht. }
  intros Htab0 Hne.
  destruct (appCommit_debounce a2 (setIsRecording false a2))
    as (mid & Hmid & Hms & Hmtab & Hmrec & Hmsl & Hmtl & _).
  { unfold debounceDeps. simpl. rewrite Hr. congruence. }
  simpl in Hms, Hmtab, Hmrec, Hmsl, Hmtl.
  destruct (debounceEffect_text mid) as (Hset & _ & _); [congruence|].
  rewrite Hmid, Hset by congruence. simpl. f_equal. f_equal; congruence.
Qed.

Lemma recording_suppresses_translation_witness :
  let a := initialApp None in
  let opened := appCommit a (setIsRecording true a) in
  let a2 := foldl (fun a text => changeText text a) opened
              [lit "hello"; lit "hello world"] in
  typingTimeoutRef a2 = None /\ isRecording a2 = true /\
  calls a2 = calls a /\ activeStreamRef a2 = activeStreamRef a /\
  (forall ts, typingTimeout {| app := a2; tasks := ts |}
              = {| app := a2; tasks := ts |}) /\
  (activeTab a = TextTab -> sourceText (editor a2) ≠ [] ->
   typingTimeoutRef (appCommit a2 (setIsRecording false a2))
   = Some {| c_text := sourceText (editor a2); c_sourceLang := sourceLang a;
             c_targetLang := targetLang a |}).
Proof.
  intros a.
  apply (recording_suppresses_translation a [lit "hello"; lit "hello world"]).
  reflexivity.
Defined.

Lemma resume_streamId r t a : streamId (resume r t a).1 = streamId t.
Proof.
  unfold resume, catchBlock.
  repeat (case_bool_decide || case_match); reflexivity.
Qed.

Lemma deliver_streamIds id r ts a :
  List.map streamId (deliver id r ts a).1 = List.map streamId ts.
Proof.
  revert a. induction ts as [|t ts IH]; intros a; simpl; [done|].
  case_bool_decide.
  - pose proof (resume_streamId r t a). destruct (resume r t a). simpl in *.
    congruence.
  - specialize (IH a). destruct (deliver id r ts a). simpl in *. congruence.
Qed.

Lemma Fresh_same_tasks s s' :
  List.map streamId (tasks s') = List.map streamId (tasks s) ->
  activeStreamRef (app s') = activeStreamRef (app s) ->
  Fresh s -> Fresh s'.
Proof.
  intros Hids Hg [Hnd Hle]. split; [by rewrite Hids|].
  apply (List.Forall_map streamId (fun x => x <= activeStreamRef (app s'))).
  apply (List.Forall_map streamId (fun x => x <= activeStreamRef (app s)))
    in Hle.
  rewrite Hids, Hg. exact Hle.
Qed.

Lemma appStep_Fresh s s' : appStep s s' -> Fresh s -> Fresh s'.
Proof.
  intros Hstep HF.
  destruct Hstep as [text s|e s Hu|e s Hr|s|s|s|id r s].
  - apply (Fresh_same_tasks s); [reflexivity| |exact HF].
    simpl. by rewrite appCommit_activeStreamRef.
  - apply (Fresh_same_tasks s); [reflexivity| |exact HF].
    simpl. by rewrite appCommit_activeStreamRef.
  - apply (Fresh_same_tasks s); [reflexivity| |exact HF].
    simpl. by rewrite appCommit_activeStreamRef.
  - apply (Fresh_same_tasks s); [reflexivity| |exact HF].
    simpl. by rewrite appCommit_activeStreamRef.
  - apply (Fresh_same_tasks s); [reflexivity| |exact HF].
    simpl. rewrite appCommit_activeStreamRef.
    unfold historyTimerFires. by destruct (historyTimer _).
  - unfold typingTimeout. destruct (typingTimeoutRef (app s)) as [c|]; [|done].
    unfold handleTranslate. destruct (falsy (trim (c_text c))).
    + apply (Fresh_same_tasks s); [simpl; by rewrite app_nil_r|done|exact HF].
    + destruct HF as [Hnd Hle]. split; simpl.
      * rewrite map_app. simpl. apply NoDup_app. split; [exact Hnd|].
        split; [|apply NoDup_singleton].
        intros x Hx Hx'. apply list_elem_of_singleton in Hx'. subst x.
        apply (List.Forall_map streamId
                 (fun x => x <= activeStreamRef (app s))) in Hle.
        rewrite Forall_forall in Hle.
        specialize (Hle _ Hx). simpl in Hle. lia.
      * apply Forall_app. split; [|constructor; [simpl; lia|constructor]].
        eapply Forall_impl; [exact Hle|]. simpl. intros t Ht. lia.
  - apply (Fresh_same_tasks s); [| |exact HF]; unfold deliverTo.
    + pose proof (deliver_streamIds id r (tasks s) (app s)).
      by destruct (deliver id r (tasks s) (app s)).
    + pose proof (deliver_activeStreamRef id r (tasks s) (app s)).
      by destruct (deliver id r (tasks s) (app s)).
Qed.

(** X12.  In every run of the component from its first render, the tasks in
    flight have distinct generations, none above the counter; so at most
    one task is current: two tasks that both pass the generation check are
    the same task. *)
Theorem one_current_generation (saved : option jsstring) (s : System) :
  rtc appStep {| app := initialApp saved; tasks := [] |} s ->
  Fresh s /\
  forall (i j : nat) t1 t2,
    tasks s !! i = Some t1 -> tasks s !! j = Some t2 ->
    stale t1 (app s) = false -> stale t2 (app s) = false -> i = j.
Proof.
  intros Hrun.
  assert (HF : Fresh s).
  { revert s Hrun. apply (rtc_ind_r (fun s => Fresh s)).
    - split; constructor.
    - intros s2 s3 _ Hstep IH. by apply (appStep_Fresh s2). }
  split; [exact HF|]. destruct HF as [Hnd _].
  intros i j t1 t2 H1 H2 Hs1 Hs2. unfold stale in *.
  apply bool_decide_eq_false in Hs1, Hs2.
  apply (NoDup_lookup _ i j (streamId t1) Hnd).
  - by rewrite list_lookup_fmap, H1.
  - rewrite list_lookup_fmap, H2. simpl. f_equal.
    destruct (decide (streamId t1 = activeStreamRef (app s))) as [E1|]; [|done].
    destruct (decide (streamId t2 = activeStreamRef (app s))) as [E2|]; [|done].
    congruence.
Qed.

Lemma one_current_generation_witness :
  Fresh twoRequests /\
  forall (i j : nat) t1 t2,
    tasks twoRequests !! i = Some t1 -> tasks twoRequests !! j = Some t2 ->
    stale t1 (app twoRequests) = false ->
    stale t2 (app twoRequests) = false -> i = j.
Proof.
  apply (one_current_generation None).
  unfold twoRequests. cbv zeta.
  eapply rtc_r; [|apply app_typing_timer].
  eapply rtc_r; [|apply (app_change (lit "Hello world"))].
  eapply rtc_r; [|apply app_typing_timer].
  apply rtc_once, (app_change (lit "Hello")).
Defined.

(** ** Swap *)

(** A commit leaves the translation output alone unless the source text is
    empty in the text tab. *)
Lemma appCommit_output old new :
  sourceText (editor new) ≠ [] \/ activeTab new = DocumentTab ->
  targetText (appCommit old new) = targetText new /\
  detectedLang (appCommit old new) = detectedLang new /\
  confidence (appCommit old new) = confidence new /\
  status (appCommit old new) = status new.
Proof.
  intros Hcase.
  destruct (decide (debounceDeps old = debounceDeps new)) as [Hd|Hd].
  - unfold appCommit. rewrite (bool_decide_eq_true_2 _ Hd). unfold saveEffect.
    repeat (case_bool_decide || case_match); by repeat split.
  - destruct (appCommit_debounce old new Hd)
      as (mid & -> & Hms & Hmtab & _ & _ & _ & Htt & Hdl & Hcf & Hst & _).
    unfold debounceEffect. simpl.
    destruct Hcase as [Hne|Hdoc].
    + destruct (activeTab mid); [|by repeat split].
      destruct (sourceText (editor mid)) as [|c s] eqn:Hs; [congruence|].
      replace (length (c :: s) =? 0) with false
        by (symmetry; apply Z.eqb_neq; unfold length; simpl; lia).
      destruct (_ && _); by repeat split.
    + rewrite Hmtab, Hdoc. by repeat split.
Qed.

Lemma swap_fields a :
  sourceLang a ≠ lit "auto" ->
  sourceLang (swap a) = targetLang a /\
  targetLang (swap a) = sourceLang a /\
  sourceText (editor (swap a)) = targetText a /\
  activeTab (swap a) = activeTab a /\
  (targetText a ≠ [] \/ activeTab a = DocumentTab ->
   targetText (swap a) = sourceText (editor a)).
Proof.
  intros Hauto. unfold swap.
  assert (Hh : handleSwap a
               = setTargetText (sourceText (editor a))
                   (onEditor (setSourceText (targetText a))
                      (setTargetLang (sourceLang a)
                         (setSourceLang (targetLang a) a)))).
  { unfold handleSwap. by rewrite bool_decide_eq_false_2 by exact Hauto. }
  rewrite appCommit_sourceText.
  destruct (appCommit_frame a (handleSwap a)) as (_ & -> & -> & _ & -> & _).
  rewrite Hh. simpl. repeat split.
  intros Hcase.
  by destruct (appCommit_output a
                 (setTargetText (sourceText (editor a))
                    (onEditor (setSourceText (targetText a))
                       (setTargetLang (sourceLang a)
                          (setSourceLang (targetLang a) a)))))
    as (-> & _).
Qed.

(** X13.  Swap does nothing when the source language is ['auto'].
    Otherwise it exchanges the two languages and the two texts; and, when
    neither language is ['auto'] and neither text is empty (or in the
    document tab), a second swap gives back the languages and the texts
    there were. *)
Theorem swap_twice_restores (a : App) :
  (sourceLang a = lit "auto" -> handleSwap a = a) /\
  (sourceLang a ≠ lit "auto" ->
   (targetText a ≠ [] \/ activeTab a = DocumentTab) ->
   sourceLang (swap a) = targetLang a /\ targetLang (swap a) = sourceLang a /\
   sourceText (editor (swap a)) = targetText a /\
   targetText (swap a) = sourceText (editor a)) /\
  (sourceLang a ≠ lit "auto" -> targetLang a ≠ lit "auto" ->
   ((sourceText (editor a) ≠ [] /\ targetText a ≠ [])
    \/ activeTab a = DocumentTab) ->
   sourceLang (swap (swap a)) = sourceLang a /\
   targetLang (swap (swap a)) = targetLang a /\
   sourceText (editor (swap (swap a))) = sourceText (editor a) /\
   targetText (swap (swap a)) = targetText a).
Proof.
  split; [|split].
  - intros Hauto. unfold handleSwap. by rewrite bool_decide_eq_true_2.
  - intros Hs Hcase.
    destruct (swap_fields a Hs) as (H1 & H2 & H3 & _ & H4).
    by rewrite H1, H2, H3, H4.
  - intros Hs Ht Hcase.
    destruct (swap_fields a Hs) as (H1 & H2 & H3 & Htab & H4).
    assert (H4' : targetText (swap a) = sourceText (editor a))
      by (apply H4; tauto).
    destruct (swap_fields (swap a)) as (G1 & G2 & G3 & _ & G4);
      [congruence|].
    rewrite G1, G2, G3, G4, H1, H2, H3, H4'; [done|].
    rewrite H4', Htab. tauto.
Qed.

Lemma swap_twice_restores_witness :
  let a := setTargetText (lit "Hola")
             (onEditor (setSourceText (lit "Hello"))
                (setSourceLang (lit "en") (initialApp None))) in
  sourceLang (swap (swap a)) = sourceLang a /\
  targetLang (swap (swap a)) = targetLang a /\
  sourceText (editor (swap (swap a))) = sourceText (editor a) /\
  targetText (swap (swap a)) = targetText a.
Proof.
  intros a.
  refine (proj2 (proj2 (swap_twice_restores a)) _ _ _).
  - vm_compute. congruence.
  - vm_compute. congruence.
  - left. split; vm_compute; congruence.
Defined.

(** X14.  In the text tab, a swap while the target text is empty (and the
    source text is not) loses the text from both panes: the empty target
    text becomes the source text, and the effect for an empty source text
    empties the target text, where the text had just been put, and makes the
    status idle. *)
Theorem swap_with_empty_target_erases (a : App) :
  activeTab a = TextTab -> sourceLang a ≠ lit "auto" ->
  targetText a = [] -> sourceText (editor a) ≠ [] ->
  targetText (handleSwap a) = sourceText (editor a) /\
  sourceText (editor (swap a)) = [] /\ targetText (swap a) = [] /\
  status (swap a) = IDLE /\ typingTimeoutRef (swap a) = None.
Proof.
  intros Htab Hs Htt Hne.
  assert (Hh : handleSwap a
               = setTargetText (sourceText (editor a))
                   (onEditor (setSourceText (targetText a))
                      (setTargetLang (sourceLang a)
                         (setSourceLang (targetLang a) a)))).
  { unfold handleSwap. by rewrite bool_decide_eq_false_2 by exact Hs. }
  split; [by rewrite Hh|].
  unfold swap.
  destruct (appCommit_debounce a (handleSwap a))
    as (mid & Hmid & Hms & Hmtab & _).
  { rewrite Hh. unfold debounceDeps. simpl. rewrite Htt. congruence. }
  rewrite Hh in Hms, Hmtab. simpl in Hms, Hmtab.
  destruct (debounceEffect_text mid) as (_ & Hclr & _); [congruence|].
  rewrite Hmid, Hclr by congruence. simpl. rewrite Hms, Htt. by repeat split.
Qed.

Lemma swap_with_empty_target_erases_witness :
  let a := onEditor (setSourceText (lit "Hello"))
             (setSourceLang (lit "en") (initialApp None)) in
  targetText (handleSwap a) = sourceText (editor a) /\
  sourceText (editor (swap a)) = [] /\ targetText (swap a) = [] /\
  status (swap a) = IDLE /\ typingTimeoutRef (swap a) = None.
Proof.
  intros a. apply (swap_with_empty_target_erases a); vm_compute; congruence.
Defined.

(** ** The codec, continued *)

Lemma decodeSample_valid k :
  -32768 <= k <= 32767 -> valid_binary 24 128 (decodeSample k) = true.
Proof.
  intros Hk.
  assert (Hcase : k = 0 \/ exists s p, k = cond_Zopp s (Zpos p)
                                      /\ Zpos p <= 32768).
  { destruct k as [|p|p]; [by left| |]; right.
    - exists false, p. simpl. lia.
    - exists true, p. simpl. lia. }
  destruct Hcase as [->|(s & p & -> & Hp)]; [reflexivity|].
  rewrite decodeSample_finite by exact Hp.
  pose proof (digits2_int16 p Hp) as Hd.
  unfold valid_binary, bounded, canonical_mantissa, fexp, emin.
  rewrite digits2_iter_xO, Pos2Z.inj_add.
  set (d := Zpos (digits2_pos p)) in *.
  assert (Hd1 : 1 <= d) by (unfold d; lia).
  rewrite Z2Pos.id by lia.
  apply andb_true_intro. split; [apply Z.eqb_eq|apply Z.leb_le]; lia.
Qed.

(** The integer of a decoded sample is the integer it was decoded from. *)
Lemma encodeSample_decodeSample k :
  -32768 <= k <= 32767 -> encodeSample (decodeSample k) = k.
Proof.
  intros Hk.
  assert (Hcase : k = 0 \/ exists s p, k = cond_Zopp s (Zpos p)
                                      /\ Zpos p <= 32768).
  { destruct k as [|p|p]; [by left| |]; right.
    - exists false, p. simpl. lia.
    - exists true, p. simpl. lia. }
  destruct Hcase as [->|(s & p & -> & Hp)]; [reflexivity|].
  pose proof (decodeSample_valid _ Hk) as Hv.
  rewrite decodeSample_finite in Hv |- * by exact Hp.
  rewrite encodeSample_finite by exact Hv.
  pose proof (digits2_int16 p Hp) as Hd.
  set (d := Zpos (digits2_pos p)) in *.
  assert (Hd1 : 1 <= d) by (unfold d; lia).
  rewrite Zpos_iter_xO, Z2Pos.id by lia.
  rewrite <- Z.shiftl_mul_pow2, Z.shiftl_shiftl by lia.
  replace (24 - d + (d - 39 + 15)) with 0 by lia.
  rewrite Z.shiftl_0_r. by apply wrap16_id.
Qed.

Lemma byteOfZ_byteToZ b : byteOfZ (byteToZ b) = b.
Proof.
  unfold byteOfZ, byteToZ.
  pose proof (Byte.to_N_bounded b) as Hb.
  rewrite Z.mod_small by lia. rewrite N2Z.id. by rewrite Byte.of_to_N.
Qed.

Lemma byteToZ_bounds b : 0 <= byteToZ b < 256.
Proof. unfold byteToZ. pose proof (Byte.to_N_bounded b). lia. Qed.

Lemma byteOfZ_mod z : byteOfZ (z mod 256) = byteOfZ z.
Proof. unfold byteOfZ. by rewrite Z.mod_mod by lia. Qed.

Lemma uint8View_int16View buffer :
  length buffer mod 2 = 0 -> uint8View (int16View buffer) = buffer.
Proof.
  unfold length.
  assert (H : forall n (b : list byte), (List.length b < n)%nat ->
            Z.of_nat (List.length b) mod 2 = 0 ->
            uint8View (int16View b) = b).
  { induction n as [|n IH]; intros b Hn Heven; [lia|].
    destruct b as [|lo [|hi rest]]; [done|done|].
    cbn [int16View].
    change (uint8View (?k :: ?ks))
      with (byteOfZ k :: byteOfZ (k / 256) :: uint8View ks).
    rewrite IH.
    - pose proof (byteToZ_bounds lo). pose proof (byteToZ_bounds hi).
      set (u := byteToZ lo + 256 * byteToZ hi).
      assert (Hw : wrap16 u = u \/ wrap16 u = u - 65536).
      { unfold wrap16. rewrite Z.mod_small by (unfold u; lia).
        destruct (32768 <=? u); tauto. }
      assert (Hlo : byteOfZ (wrap16 u) = lo).
      { transitivity (byteOfZ (byteToZ lo)); [|apply byteOfZ_byteToZ].
        rewrite <- (byteOfZ_mod (wrap16 u)), <- (byteOfZ_mod (byteToZ lo)).
        f_equal. destruct Hw as [-> | ->].
        - unfold u. rewrite Z.mul_comm, Z.mod_add by lia. done.
        - replace (u - 65536) with (byteToZ lo + (byteToZ hi - 256) * 256)
            by (unfold u; lia).
          rewrite Z.mod_add by lia. done. }
      assert (Hhi : byteOfZ (wrap16 u / 256) = hi).
      { transitivity (byteOfZ (byteToZ hi)); [|apply byteOfZ_byteToZ].
        rewrite <- (byteOfZ_mod (wrap16 u / 256)),
          <- (byteOfZ_mod (byteToZ hi)).
        f_equal. destruct Hw as [-> | ->].
        - replace u with (byteToZ lo + byteToZ hi * 256) by (unfold u; lia).
          rewrite Z.div_add, Z.div_small by lia. done.
        - replace (u - 65536) with (byteToZ lo + (byteToZ hi - 256) * 256)
            by (unfold u; lia).
          rewrite Z.div_add, Z.div_small by lia.
          replace (0 + (byteToZ hi - 256)) with (byteToZ hi + (-1) * 256)
            by lia.
          rewrite Z.mod_add by lia. done. }
      by rewrite Hlo, Hhi.
    - simpl in Hn. lia.
    - cbn [List.length] in Heven. rewrite !Nat2Z.inj_succ in Heven.
      replace (Z.succ (Z.succ (Z.of_nat (List.length rest))))
        with (Z.of_nat (List.length rest) + 1 * 2) in Heven by lia.
      by rewrite Z.mod_add in Heven by lia. }
  apply (H (S (List.length buffer))). lia.
Qed.

Lemma int16View_range buffer :
  Forall (fun k => -32768 <= k <= 32767) (int16View buffer).
Proof.
  assert (H : forall n (b : list byte), (List.length b < n)%nat ->
            Forall (fun k => -32768 <= k <= 32767) (int16View b)).
  { induction n as [|n IH]; intros b Hn; [lia|].
    destruct b as [|lo [|hi rest]]; [constructor|constructor|].
    cbn [int16View]. constructor; [apply wrap16_range|].
    apply IH. simpl in Hn. lia. }
  apply (H (S (List.length buffer))). lia.
Qed.

(** X15.  The samples [decodeGeminiPCM] stores are binary32 numbers in
    [-1, 1): never an infinity or not-a-number, never 1.0 or more. *)
Theorem decoded_samples_in_range (buffer : list byte) (ctx : AudioContext)
  (rate : number) (audioBuffer : AudioBuffer) (channelData samples
  : list float32) :
  createBuffer ctx 1 (length buffer / 2) rate = inr audioBuffer ->
  channels audioBuffer = [channelData] ->
  length channelData = length buffer / 2 ->
  decodeGeminiPCM buffer ctx rate
  = inr {| sampleRate := sampleRate audioBuffer; channels := [samples] |} ->
  Forall (fun x => valid_binary 24 128 x = true /\
                   exists q, valueOf x = Some q /\ (-1 <= q)%Q /\ (q < 1)%Q)
         samples.
Proof.
  intros Hctx Hch Hlen Hdec.
  destruct (Z.eq_dec (length buffer mod 2) 0) as [Heven|Hodd].
  - rewrite (decodeGeminiPCM_even buffer ctx rate audioBuffer channelData)
      in Hdec by done.
    injection Hdec as <-.
    apply List.Forall_map.
    eapply Forall_impl; [apply (int16View_range buffer)|].
    intros k Hk. cbn beta in Hk. split; [by apply decodeSample_valid|].
    destruct (decodeSample_value k Hk) as (q & Hq & He).
    exists q. split; [exact Hq|]. rewrite He.
    unfold Qle, Qlt. simpl. lia.
  - by rewrite decodeGeminiPCM_odd in Hdec.
Qed.

Lemma decoded_samples_in_range_witness :
  Forall (fun x => valid_binary 24 128 x = true /\
                   exists q, valueOf x = Some q /\ (-1 <= q)%Q /\ (q < 1)%Q)
         [S754_finite true 8388608 (-24)].
Proof.
  apply (decoded_samples_in_range [Byte.x00; Byte.xc0] allocatingContext
           (ofInt 24000)
           {| sampleRate := ofInt 24000; channels := [[zero]] |} [zero]);
    reflexivity.
Defined.

(** X16.  Encoding the samples that [decodeGeminiPCM] decoded from a buffer
    gives back the bytes of the buffer, exactly. *)
Theorem encode_decoded_is_identity (buffer : list byte) (ctx : AudioContext)
  (rate : number) (audioBuffer : AudioBuffer) (channelData : list float32) :
  length buffer mod 2 = 0 ->
  createBuffer ctx 1 (length buffer / 2) rate = inr audioBuffer ->
  channels audioBuffer = [channelData] ->
  length channelData = length buffer / 2 ->
  exists samples,
    decodeGeminiPCM buffer ctx rate
    = inr {| sampleRate := sampleRate audioBuffer; channels := [samples] |} /\
    floatToPCM16 samples = buffer.
Proof.
  intros Heven Hctx Hch Hlen.
  exists (List.map decodeSample (int16View buffer)). split.
  - by apply (decodeGeminiPCM_even buffer ctx rate audioBuffer channelData).
  - unfold floatToPCM16. rewrite pcm16_map, List.map_map.
    rewrite <- (uint8View_int16View buffer Heven) at 2. f_equal.
    pose proof (int16View_range buffer) as Hr.
    induction Hr as [|k ks Hk _ IH]; [done|].
    simpl. by rewrite encodeSample_decodeSample, IH.
Qed.

Lemma encode_decoded_is_identity_witness :
  let buffer := [Byte.x34; Byte.x12; Byte.x00; Byte.x80] in
  exists samples,
    decodeGeminiPCM buffer allocatingContext (ofInt 24000)
    = inr {| sampleRate := ofInt 24000; channels := [samples] |} /\
    floatToPCM16 samples = buffer.
Proof.
  intros buffer.
  refine (encode_decoded_is_identity buffer allocatingContext (ofInt 24000)
            {| sampleRate := ofInt 24000; channels := [[zero; zero]] |}
            [zero; zero] _ _ _ _); reflexivity.
Defined.

(** ** Base64: [encode] and the decoding of [generateSpeech] *)

(** Linear arithmetic with divisions by constants. *)
Ltac div_lia := Z.to_euclidean_division_equations; lia.

Lemma list_ind3 {A} (P : list A -> Prop) :
  P [] -> (forall a, P [a]) -> (forall a b, P [a; b]) ->
  (forall a b c rest, P rest -> P (a :: b :: c :: rest)) ->
  forall l, P l.
Proof.
  intros H0 H1 H2 H3.
  assert (Hall : forall l, P l /\ (forall a, P (a :: l))
                           /\ (forall a b, P (a :: b :: l))).
  { induction l as [|c l (IH0 & IH1 & IH2)]; [by repeat split|].
    repeat split; [apply IH1|intros a; apply IH2|].
    intros a b. apply H3, IH0. }
  intros l. apply Hall.
Qed.

Lemma base64Value_base64Char n :
  0 <= n < 64 -> base64Value (base64Char n) = Some n.
Proof.
  intros Hn. unfold base64Value, base64Char.
  repeat match goal with
         | |- context [?a <? ?b] => destruct (Z.ltb_spec a b)
         | |- context [?a =? ?b] => destruct (Z.eqb_spec a b)
         end;
    rewrite Z2N.id by lia;
    repeat match goal with
           | |- context [?a <=? ?b] => destruct (Z.leb_spec a b)
           | |- context [?a =? ?b] => destruct (Z.eqb_spec a b)
           end; cbn [andb]; try lia; f_equal; lia.
Qed.

Lemma base64Char_plain n :
  0 <= n < 64 ->
  isAsciiWhitespace (base64Char n) = false /\ base64Char n <> 61%N.
Proof.
  intros Hn.
  assert (Hc : (43 <= base64Char n <= 122)%N /\ base64Char n <> 61%N).
  { unfold base64Char.
    repeat match goal with
           | |- context [?a <? ?b] => destruct (Z.ltb_spec a b)
           | |- context [?a =? ?b] => destruct (Z.eqb_spec a b)
           end; lia. }
  destruct Hc as [Hr Hp]. split; [|exact Hp].
  unfold isAsciiWhitespace.
  repeat match goal with
         | |- context [N.eqb ?a ?b] => destruct (N.eqb_spec a b)
         end; try lia; reflexivity.
Qed.

Lemma encodeValues_range bytes :
  Forall (fun v => 0 <= v < 64) (encodeValues bytes).
Proof.
  induction bytes as [|a|a b|a b c rest IH] using list_ind3; cbn [encodeValues].
  - constructor.
  - pose proof (byteToZ_bounds a).
    repeat (apply List.Forall_cons; [cbn beta; div_lia|]). apply List.Forall_nil.
  - pose proof (byteToZ_bounds a). pose proof (byteToZ_bounds b).
    repeat (apply List.Forall_cons; [cbn beta; div_lia|]). apply List.Forall_nil.
  - pose proof (byteToZ_bounds a). pose proof (byteToZ_bounds b).
    pose proof (byteToZ_bounds c).
    do 4 (apply List.Forall_cons; [cbn beta; div_lia|]). exact IH.
Qed.

Lemma padding_cons3 {a b c : byte} rest :
  padding (a :: b :: c :: rest) = padding rest.
Proof.
  unfold padding. cbn [List.length].
  replace (S (S (S (List.length rest)))) with (List.length rest + 1 * 3)%nat
    by lia.
  by rewrite Nat.Div0.mod_add.
Qed.

Lemma encode_values bytes :
  encode bytes = List.map base64Char (encodeValues bytes) ++ padding bytes.
Proof.
  induction bytes as [|a|a b|a b c rest IH] using list_ind3;
    [reflexivity..|].
  rewrite padding_cons3. cbn [encode encodeValues List.map app].
  by rewrite IH.
Qed.

(** The number of characters [encode] produces, and how many of them are
    padding. *)
Lemma encode_lengths bytes :
  ((List.length (encodeValues bytes) + List.length (padding bytes)) mod 4 = 0)%nat
  /\ (List.length (padding bytes) <= 2)%nat
  /\ (List.length (encodeValues bytes) mod 4 <> 1)%nat
  /\ (bytes <> [] -> encodeValues bytes <> []).
Proof.
  induction bytes as [|a|a b|a b c rest IH] using list_ind3.
  - repeat split; cbn; try lia; done.
  - repeat split; cbn; try lia; done.
  - repeat split; cbn; try lia; done.
  - rewrite padding_cons3. cbn [encodeValues List.length].
    destruct IH as (IH1 & IH2 & IH3 & _).
    repeat split; [| exact IH2 | | done].
    + replace (S (S (S (S (List.length (encodeValues rest)))))
               + List.length (padding rest))%nat
        with ((List.length (encodeValues rest) + List.length (padding rest))
              + 1 * 4)%nat by lia.
      by rewrite Nat.Div0.mod_add.
    + replace (S (S (S (S (List.length (encodeValues rest))))))
        with (List.length (encodeValues rest) + 1 * 4)%nat by lia.
      by rewrite Nat.Div0.mod_add.
Qed.

Lemma decodeValues_encodeValues bytes :
  decodeValues (encodeValues bytes) = List.map byteToZ bytes.
Proof.
  induction bytes as [|a|a b|a b c rest IH] using list_ind3.
  - reflexivity.
  - pose proof (byteToZ_bounds a). cbn [encodeValues decodeValues List.map].
    f_equal. div_lia.
  - pose proof (byteToZ_bounds a). pose proof (byteToZ_bounds b).
    cbn [encodeValues decodeValues List.map].
    f_equal; [div_lia|]. f_equal. div_lia.
  - pose proof (byteToZ_bounds a). pose proof (byteToZ_bounds b).
    pose proof (byteToZ_bounds c).
    cbn [encodeValues decodeValues List.map]. rewrite IH.
    f_equal; [div_lia|]. f_equal; [div_lia|]. f_equal. div_lia.
Qed.

Lemma filter_all {A} (f : A -> bool) l :
  Forall (fun x => f x = true) l -> List.filter f l = l.
Proof.
  induction 1 as [|x l Hx _ IH]; [done|]. simpl. by rewrite Hx, IH.
Qed.

Lemma stripPadding_padded (l p : jsstring) :
  Forall (fun c => c <> 61%N) l ->
  p = [] \/ p = [61%N] \/ p = [61%N; 61%N] ->
  stripPadding (l ++ p) = l.
Proof.
  intros Hl Hp. unfold stripPadding. rewrite rev_app_distr.
  assert (Hrev : Forall (fun c => c <> 61%N) (rev l)).
  { by apply List.Forall_rev. }
  assert (Hhead : match rev l with
                  | c :: _ => N.eqb c 61 = false
                  | [] => True
                  end).
  { destruct Hrev as [|c r Hc _]; [done|]. by apply N.eqb_neq. }
  destruct Hp as [->|[->| ->]]; simpl.
  - destruct (rev l) as [|c r] eqn:E; [by rewrite app_nil_r|].
    rewrite Hhead. by rewrite app_nil_r.
  - destruct (rev l) as [|c r] eqn:E.
    + apply (f_equal (@rev N)) in E. by rewrite rev_involutive in E.
    + rewrite Hhead. rewrite <- E. apply rev_involutive.
  - apply rev_involutive.
Qed.

Lemma mapM_base64Value vs :
  Forall (fun v => 0 <= v < 64) vs ->
  mapM base64Value (List.map base64Char vs) = Some vs.
Proof.
  induction 1 as [|v vs Hv _ IH]; [done|].
  cbn [List.map mapM]. rewrite base64Value_base64Char by done.
  cbn [mbind option_bind]. rewrite IH. reflexivity.
Qed.

Lemma atob_encode bytes :
  atob (encode bytes)
  = inr (List.map (fun b => Byte.to_N b) bytes).
Proof.
  unfold atob. rewrite encode_values.
  pose proof (encodeValues_range bytes) as Hr.
  destruct (encode_lengths bytes) as (Hlen & Hpad & Hone & _).
  assert (Hp : padding bytes = [] \/ padding bytes = [61%N]
               \/ padding bytes = [61%N; 61%N]).
  { unfold padding. destruct (List.length bytes mod 3)%nat as [|[|[|?]]]; auto. }
  rewrite filter_all.
  2:{ apply Forall_app. split.
      - apply List.Forall_map. eapply Forall_impl; [exact Hr|].
        intros v Hv. cbn beta. by rewrite (proj1 (base64Char_plain v Hv)).
      - destruct Hp as [->|[->| ->]]; repeat constructor. }
  assert (H4 : length (List.map base64Char (encodeValues bytes) ++ padding bytes)
               mod 4 = 0).
  { unfold length. rewrite length_app, length_map.
    change 4 with (Z.of_nat 4). rewrite <- Nat2Z.inj_mod. by rewrite Hlen. }
  rewrite H4. cbn [Z.eqb].
  rewrite stripPadding_padded; [| |exact Hp].
  2:{ apply List.Forall_map. eapply Forall_impl; [exact Hr|].
      intros v Hv. exact (proj2 (base64Char_plain v Hv)). }
  assert (H1 : (length (List.map base64Char (encodeValues bytes)) mod 4 =? 1)
               = false).
  { apply Z.eqb_neq. unfold length. rewrite length_map.
    change 4 with (Z.of_nat 4). rewrite <- Nat2Z.inj_mod. lia. }
  rewrite H1, mapM_base64Value by done.
  rewrite decodeValues_encodeValues, List.map_map. f_equal.
  apply List.map_ext. intros b. unfold byteToZ. apply N2Z.id.
Qed.

Lemma encode_nonempty (bytes : list byte) :
  bytes <> [] -> falsy (encode bytes) = false.
Proof.
  intros Hne. rewrite encode_values.
  destruct (encode_lengths bytes) as (_ & _ & _ & Hv).
  destruct (encodeValues bytes) as [|v vs]; [by destruct Hv|reflexivity].
Qed.

(** The loop [bytes[i] = binaryString.charCodeAt(i)] on the characters that
    [String.fromCharCode] made of bytes. *)
Lemma charCodes_of_bytes (bytes : list byte) :
  List.map (fun c => byteOfZ (Z.of_N c))
           (List.map (fun b => Byte.to_N b) bytes)
  = bytes.
Proof.
  rewrite List.map_map. rewrite <- (List.map_id bytes) at 2.
  apply List.map_ext. intros b. apply (byteOfZ_byteToZ b).
Qed.

(** X17.  The decoding loop of [generateSpeech] inverts [encode]: from a
    payload that is [encode(bytes)] it returns exactly [bytes].  The one
    exception is the empty array, whose encoding is the empty string, which
    [generateSpeech] rejects as missing audio. *)
Theorem generateSpeech_inverts_encode (bytes : list byte) :
  generateSpeechBytes (Some (encode bytes))
  = match bytes with
    | [] => inl NoAudioData
    | _ :: _ => inr bytes
    end.
Proof.
  destruct bytes as [|b0 bytes']; [reflexivity|].
  set (bytes := b0 :: bytes').
  assert (Hne : bytes <> []) by done.
  unfold generateSpeechBytes.
  rewrite (encode_nonempty bytes Hne), atob_encode.
  cbn [andThen]. f_equal. apply charCodes_of_bytes.
Qed.

(** X18.  The payload of [createAudioBlob] for [l] samples has four
    characters for every three bytes of its [2l] bytes, the last group
    padded: four times the ceiling of [2l / 3]. *)
Theorem createAudioBlob_length (samples : list float32) :
  length (data (createAudioBlob samples))
  = 4 * ((2 * length samples + 2) / 3).
Proof.
  assert (Henc : forall bytes : list byte,
            length (encode bytes) = 4 * ((length bytes + 2) / 3)).
  { induction bytes as [|a|a b|a b c rest IH] using list_ind3;
      [reflexivity..|].
    cbn [encode]. unfold length in *. cbn [List.length].
    rewrite !Nat2Z.inj_succ, IH. div_lia. }
  unfold createAudioBlob. cbn [data]. rewrite Henc. f_equal. f_equal.
  unfold length. rewrite length_uint8View, pcm16_map, length_map. lia.
Qed.

(** ** Speech playback, over a run of events *)

Lemma handleSpeak_keeps browser text p :
  (forall ctx, audioContextRef p = Some ctx ->
               audioContextRef (handleSpeak browser text p) = Some ctx) /\
  (audioContextRef p = None ->
   audioContextRef (handleSpeak browser text p) = None \/
   exists ctx, newAudioContext browser (ofInt 24000) = inr ctx /\
               audioContextRef (handleSpeak browser text p) = Some ctx) /\
  synthesisCalls p `prefix_of` synthesisCalls (handleSpeak browser text p) /\
  started (handleSpeak browser text p) = started p.
Proof.
  unfold handleSpeak, handleSpeakFrom.
  destruct (falsy text || isSpeaking p).
  { repeat split; auto. }
  cbn -[ofInt].
  destruct (audioContextRef p) as [ctx0|] eqn:Hc.
  - cbn. rewrite Hc. repeat split; [done|done|by eexists].
  - destruct (newAudioContext browser (ofInt 24000)) as [err|ctx] eqn:Hn;
      cbn -[ofInt].
    + rewrite Hc. repeat split; [done|by left|done].
    + repeat split; [done| |by eexists].
      intros _. right. by exists ctx.
Qed.

Lemma resumeSpeak_keeps r p :
  audioContextRef (resumeSpeak r p) = audioContextRef p /\
  synthesisCalls (resumeSpeak r p) = synthesisCalls p /\
  started p `prefix_of` started (resumeSpeak r p).
Proof.
  destruct r as [audioData|err|]; [|by repeat split..].
  unfold resumeSpeak.
  destruct (decodeGeminiPCM audioData _ _) as [err|b]; cbn -[ofInt].
  - by repeat split.
  - repeat split. by eexists.
Qed.

(** X19.  The audio context of the player is created at most once: over any
    sequence of clicks on Speak, results of the synthesis and ends of
    playback, a context that exists is kept, and one that appears is the one
    the browser made for 24000 Hz.  The log of synthesis requests and the
    list of started buffers only grow. *)
Theorem audio_context_is_kept (browser : Browser) (events : list PlayerEvent)
  (p : Player) :
  let p' := playerRun browser p events in
  (forall ctx, audioContextRef p = Some ctx -> audioContextRef p' = Some ctx)
  /\
  (audioContextRef p = None ->
   audioContextRef p' = None \/
   exists ctx, newAudioContext browser (ofInt 24000) = inr ctx /\
               audioContextRef p' = Some ctx) /\
  synthesisCalls p `prefix_of` synthesisCalls p' /\
  started p `prefix_of` started p'.
Proof.
  revert p. induction events as [|e events IH]; intros p.
  { cbn. repeat split; auto. }
  cbn -[ofInt]. specialize (IH (playerStep browser p e)).
  cbn zeta in IH. destruct IH as (IHk & IHn & IHc & IHs).
  assert (Hstep :
    (forall ctx, audioContextRef p = Some ctx ->
                 audioContextRef (playerStep browser p e) = Some ctx) /\
    (audioContextRef p = None ->
     audioContextRef (playerStep browser p e) = None \/
     exists ctx, newAudioContext browser (ofInt 24000) = inr ctx /\
                 audioContextRef (playerStep browser p e) = Some ctx) /\
    synthesisCalls p `prefix_of` synthesisCalls (playerStep browser p e) /\
    started p `prefix_of` started (playerStep browser p e)).
  { destruct e as [text|r]; cbn [playerStep].
    - destruct (handleSpeak_keeps browser text p) as (H1 & H2 & H3 & H4).
      rewrite H4. by repeat split.
    - destruct (resumeSpeak_keeps r p) as (H1 & H2 & H3).
      rewrite H1, H2. repeat split; auto. }
  destruct Hstep as (Hk & Hn & Hc & Hs).
  repeat split.
  - intros ctx Hctx. by apply IHk, Hk.
  - intros Hnone. destruct (Hn Hnone) as [Hstill|(ctx & Hmade & Hctx)].
    + by apply IHn.
    + right. exists ctx. split; [exact Hmade|]. by apply IHk.
  - by etrans.
  - by etrans.
Qed.

Lemma audio_context_is_kept_witness :
  let p' := playerRun allocatingBrowser initialPlayer
              [SpeakClick (lit "hi"); Resumed Ended; SpeakClick (lit "ho")] in
  audioContextRef p' = None \/
  exists ctx, newAudioContext allocatingBrowser (ofInt 24000) = inr ctx /\
              audioContextRef p' = Some ctx.
Proof.
  intros p'.
  apply (proj1 (proj2 (audio_context_is_kept allocatingBrowser
           [SpeakClick (lit "hi"); Resumed Ended; SpeakClick (lit "ho")]
           initialPlayer))).
  reflexivity.
Defined.



(** ** Voice transcription *)

Lemma transcribe_text texts : forall a,
  sourceText (editor (transcribe texts a))
  = foldl (fun prev text => appendTranscription text prev)
          (sourceText (editor a)) texts.
Proof.
  induction texts as [|text texts IH]; intros a; [done|].
  cbn [transcribe foldl]. fold (transcribe texts (onTranscription text a)).
  rewrite IH. f_equal. unfold onTranscription.
  by rewrite appCommit_sourceText.
Qed.

Lemma transcription_appends texts : forall prev,
  prev ≠ [] ->
  foldl (fun prev text => appendTranscription text prev) prev texts
  = prev ++ flat_map (fun t => lit " " ++ t) texts.
Proof.
  induction texts as [|text texts IH]; intros prev Hne.
  { by rewrite app_nil_r. }
  cbn [foldl flat_map]. unfold appendTranscription at 2.
  destruct prev as [|c prev']; [done|]. cbn [falsy].
  rewrite IH by done. by rewrite <- !app_assoc.
Qed.

(** X21.  The transcriptions of a voice session are joined by single
    spaces after the text that was there; empty transcriptions that arrive
    while the text is still empty leave it empty, later ones add a space. *)
Theorem transcriptions_are_joined (texts : list jsstring) (a : App) :
  sourceText (editor (transcribe texts a))
  = joinSpace (skipEmpty (sourceText (editor a) :: texts)).
Proof.
  rewrite transcribe_text.
  generalize (sourceText (editor a)). clear a.
  induction texts as [|text texts IH]; intros prev.
  - destruct prev; [done|]. cbn. by rewrite app_nil_r.
  - destruct prev as [|c prev'].
    + cbn [foldl skipEmpty falsy]. unfold appendTranscription at 2.
      cbn [falsy]. rewrite IH. reflexivity.
    + cbn [skipEmpty falsy joinSpace].
      by rewrite transcription_appends.
Qed.

(** ** Download *)





(** ** The saved text *)

Lemma appMount_editor saved : editor (appMount saved) = mount saved.
Proof.
  unfold appMount, mount. destruct saved as [[|c t]|]; [reflexivity| |reflexivity].
  cbn [falsy localStorage setEditor initialApp]. by rewrite appCommit_editor.
Qed.

Lemma appMount_sourceText saved :
  sourceText (editor (appMount saved)) = default [] saved.
Proof.
  unfold appMount. destruct saved as [[|c t]|]; [reflexivity| |reflexivity].
  cbn [falsy localStorage setEditor initialApp]. by rewrite appCommit_sourceText.
Qed.

Lemma appCommit_localStorage old new :
  activeTab new = TextTab ->
  localStorage (appCommit old new)
  = if bool_decide (saveDeps old = saveDeps new) then localStorage new
    else Some (sourceText (editor new)).
Proof.
  intros Htab. unfold appCommit.
  pose proof (commit_fields (editor old) (editor new)) as (Ht & _).
  unfold saveEffect, debounceEffect.
  repeat (case_bool_decide || case_match); simpl in *;
    congruence.
Qed.

Lemma appCommit_Persisted old new :
  Persisted old -> activeTab new = TextTab ->
  (localStorage new = localStorage old \/
   localStorage new = None /\ sourceText (editor new) = []) ->
  Persisted (appCommit old new).
Proof.
  intros [Hto Hp] Htab Hl. split.
  { by destruct (appCommit_frame old new) as (_ & _ & _ & _ & -> & _). }
  rewrite appCommit_localStorage, appCommit_sourceText by done.
  case_bool_decide as Hd; [|by left].
  unfold saveDeps in Hd. injection Hd as Hd _.
  destruct Hl as [Hl|Hl]; [|by right].
  rewrite Hl, <- Hd. exact Hp.
Qed.

Lemma handleTranslate_saved sl tl text a :
  activeTab (handleTranslate sl tl text a).1 = activeTab a /\
  localStorage (handleTranslate sl tl text a).1 = localStorage a.
Proof. unfold handleTranslate. by destruct (falsy (trim text)). Qed.

Lemma resume_saved r t a :
  activeTab (resume r t a).2 = activeTab a /\
  localStorage (resume r t a).2 = localStorage a.
Proof.
  unfold resume, catchBlock.
  destruct r; repeat (case_match || case_bool_decide); by split.
Qed.

Lemma deliver_saved id r ts a :
  activeTab (deliver id r ts a).2 = activeTab a /\
  localStorage (deliver id r ts a).2 = localStorage a.
Proof.
  revert a. induction ts as [|t ts IH]; intros a; simpl; [done|].
  case_bool_decide.
  - pose proof (resume_saved r t a). by destruct (resume r t a).
  - specialize (IH a). by destruct (deliver id r ts a).
Qed.

Lemma appStep_Persisted s s' :
  appStep s s' -> Persisted (app s) -> Persisted (app s').
Proof.
  intros Hstep HP. pose proof HP as [Htab Hst].
  destruct Hstep as [text s|e s Hu|e s Hr|s|s|s|id r s]; cbn [app onApp].
  - apply appCommit_Persisted; [done|done|by left].
  - apply appCommit_Persisted; [done|done|by left].
  - apply appCommit_Persisted; [done|done|by left].
  - apply appCommit_Persisted; [done|done|by right].
  - apply appCommit_Persisted; [done| |left];
      unfold historyTimerFires; by destruct (historyTimer _).
  - unfold typingTimeout. destruct (typingTimeoutRef (app s)) as [c|]; [|done].
    pose proof (handleTranslate_saved (c_sourceLang c) (c_targetLang c)
                  (c_text c) (setTypingTimeoutRef None (app s))) as [Ht Hl].
    pose proof (handleTranslate_editor (c_sourceLang c) (c_targetLang c)
                  (c_text c) (setTypingTimeoutRef None (app s))) as He.
    destruct (handleTranslate _ _ _ _) as [a t]. cbn [app fst] in *.
    unfold Persisted. by rewrite Ht, Hl, He.
  - unfold deliverTo.
    pose proof (deliver_saved id r (tasks s) (app s)) as [Ht Hl].
    pose proof (deliver_editor id r (tasks s) (app s)) as He.
    destruct (deliver id r (tasks s) (app s)) as [ts a]. cbn [app snd] in *.
    unfold Persisted. by rewrite Ht, Hl, He.
Qed.

Lemma appMount_Persisted saved : Persisted (appMount saved).
Proof.
  split.
  { unfold appMount. destruct saved as [[|c t]|]; [reflexivity| |reflexivity].
    cbn [falsy localStorage setEditor initialApp].
    match goal with
    | |- activeTab (appCommit ?old ?new) = _ =>
        destruct (appCommit_frame old new) as (_ & _ & _ & _ & -> & _)
    end. reflexivity. }
  left. rewrite appMount_sourceText.
  unfold appMount. destruct saved as [[|c t]|]; [reflexivity| |reflexivity].
  cbn [falsy localStorage setEditor initialApp]. rewrite appCommit_localStorage by reflexivity.
  rewrite bool_decide_eq_false_2; [reflexivity|].
  unfold saveDeps. intros Heq. apply (f_equal fst) in Heq.
  vm_compute in Heq. discriminate Heq.
Qed.

(** X23.  The first render keeps the saved text: the effects run in an order
    in which the restore effect reads the item before the save effect
    overwrites it with the empty text of the first render.  After the mount
    the saved text is the source text and the single entry of the history, it
    is stored again, and its translation is scheduled with the initial
    languages. *)
Theorem mount_restores_saved_text (savedText : jsstring) :
  savedText ≠ [] ->
  let a := appMount (Some savedText) in
  sourceText (editor a) = savedText /\
  history (editor a) = [savedText] /\ historyIndex (editor a) = 0 /\
  localStorage a = Some savedText /\
  typingTimeoutRef a
  = Some {| c_text := savedText; c_sourceLang := lit "auto";
            c_targetLang := lit "es" |} /\
  status a = IDLE /\ calls a = [].
Proof.
  intros Hne. destruct savedText as [|c t]; [done|].
  cbv zeta. by repeat split.
Qed.

Lemma mount_restores_saved_text_witness :
  let a := appMount (Some (lit "Hello")) in
  sourceText (editor a) = lit "Hello" /\
  history (editor a) = [lit "Hello"] /\ historyIndex (editor a) = 0 /\
  localStorage a = Some (lit "Hello") /\
  typingTimeoutRef a
  = Some {| c_text := lit "Hello"; c_sourceLang := lit "auto";
            c_targetLang := lit "es" |} /\
  status a = IDLE /\ calls a = [].
Proof.
  apply (mount_restores_saved_text (lit "Hello")).
  vm_compute. congruence.
Defined.

(** X24.  A reload gives back the source text: in every state of a run that
    starts with the first render (changes of the text, undo, redo, Clear,
    timers, deliveries to requests in flight), mounting the component anew
    on the item that [localStorage] holds restores the source text as it
    is. *)
Theorem reload_restores_source_text (saved : option jsstring) (s : System) :
  rtc appStep {| app := appMount saved; tasks := [] |} s ->
  sourceText (editor (appMount (localStorage (app s))))
  = sourceText (editor (app s)).
Proof.
  intros Hrun.
  assert (HP : Persisted (app s)).
  { revert s Hrun. apply (rtc_ind_r (fun s => Persisted (app s))).
    - apply appMount_Persisted.
    - intros s2 s3 _ Hstep IH. by apply (appStep_Persisted s2). }
  rewrite appMount_sourceText. destruct HP as [_ [-> | [-> ->]]]; done.
Qed.

Lemma reload_restores_source_text_witness :
  let s := onApp handleClear
             (onApp (onEditor (setSourceText (lit "Hello")))
                {| app := appMount (Some (lit "Hi")); tasks := [] |}) in
  sourceText (editor (appMount (localStorage (app s))))
  = sourceText (editor (app s)).
Proof.
  intros s. apply (reload_restores_source_text (Some (lit "Hi"))).
  eapply rtc_r; [|apply app_clear].
  apply rtc_once, (app_change (lit "Hello")).
Defined.
